(** * blbgo/runner: a shallow embedding of the dependency runner

    The Go package registers producer functions, calls them in an order in
    which every parameter can be supplied from the results of earlier calls,
    runs the [Main] value and closes every produced closer.  The package
    works on [reflect.Type] and [reflect.Value]; here these become ordinary
    inductive types, the runner's maps become [gmap]s and the methods of
    [*runner] become functions that take the runner and return the updated
    runner next to their Go result.  The package [shutdownermain], whose
    [Shutdown] and [Main.Run] meet on a channel, becomes a step function on
    the calls that are in progress. *)

From stdpp Require Import gmap strings list.
From Equations Require Import Equations.
From Stdlib Require Import ZArith Lia.

Local Open Scope Z_scope.

(** ** reflect.Type *)

(** The kinds the package tells apart with [Type.Kind()]. *)
Inductive Kind := Interface | Slice | OtherKind.

(** The types that occur as parameters and results of producers.  Interface
    types are told apart by name; [error] and [runner.Main] are two of them. *)
Inductive rtype :=
  | TInterface (name : string)
  | TSlice (elem : rtype)
  | TOther (name : string).

Definition kind (t : rtype) : Kind :=
  match t with
  | TInterface _ => Interface
  | TSlice _ => Slice
  | TOther _ => OtherKind
  end.

(** [Type.Elem()], used by the source on slice types only. *)
Definition Elem (t : rtype) : rtype :=
  match t with
  | TSlice e => e
  | _ => t
  end.

(** [reflect.SliceOf]. *)
Definition SliceOf (t : rtype) : rtype := TSlice t.

Definition errorType : rtype := TInterface "error".
Definition mainType : rtype := TInterface "runner.Main".

#[global] Instance Kind_eq_dec : EqDecision Kind.
Proof. solve_decision. Defined.

#[global] Instance rtype_eq_dec : EqDecision rtype.
Proof. solve_decision. Defined.

Fixpoint rtype_code (t : rtype) : nat * (bool * string) :=
  match t with
  | TInterface n => (O, (true, n))
  | TOther n => (O, (false, n))
  | TSlice e => let '(d, b) := rtype_code e in (S d, b)
  end.

Fixpoint rtype_decode_depth (d : nat) (b : bool * string) : rtype :=
  match d with
  | O => if fst b then TInterface (snd b) else TOther (snd b)
  | S d' => TSlice (rtype_decode_depth d' b)
  end.

Definition rtype_decode (c : nat * (bool * string)) : rtype :=
  rtype_decode_depth (fst c) (snd c).

#[global] Instance rtype_countable : Countable rtype.
Proof.
  refine (inj_countable' rtype_code rtype_decode _).
  intros t. unfold rtype_decode.
  induction t as [n | e IH | n]; simpl; try reflexivity.
  destruct (rtype_code e) as [d b]; simpl in *. by rewrite IH.
Defined.

(** ** Errors *)

(** The error values of the package, [fmt.Errorf("%w type: %v", e, t)],
    errors made inside the package with [errors.New(msg)] or with
    [fmt.Errorf(msg + "%v", t)], which wraps nothing, and error values that
    come from outside (producers, [Main.Run], closers), told apart by a
    number.  An error from outside that wraps one of the package's is an
    [Errorf] too. *)
Inductive error :=
  | ErrProducerNil
  | ErrProducerNotFunc
  | ErrProducerInvalidReturns
  | ErrProducerInvalidInputs
  | ErrMissingDependency
  | ErrNoProducerMakes
  | ErrProducerReturnedNil
  | ErrNoMain
  | ErrDelayCloserTimeout
  | Errorf (wrapped : error) (t : rtype)
  | ErrorsNew (msg : string)
  | ErrorfType (msg : string) (t : rtype)
  | Foreign (n : nat).

#[global] Instance error_eq_dec : EqDecision error.
Proof. solve_decision. Defined.

(** [errors.Is]: the error itself or one reached by unwrapping. *)
Fixpoint errors_Is (err target : error) : bool :=
  bool_decide (err = target) ||
  match err with
  | Errorf e _ => errors_Is e target
  | _ => false
  end.

(** ** Produced values *)

(** What [select] in [close] takes after a [general.DelayCloser] was called:
    a value received on [doneChan], the channel found closed, or the timer. *)
Inductive select_case :=
  | Received (err : option error)
  | ChanClosed
  | TimerFired.

(** The teardown contract of a value: none, [io.Closer] with what [Close()]
    returns, or [general.DelayCloser]. *)
Inductive closing :=
  | NoClose
  | IoCloser (ret : option error)
  | DelayCloser (sel : select_case).

(** A value of a user type: its identity, its teardown contract and, when it
    implements [Main], what [Run()] returns. *)
Record obj := Obj {
  obj_id : nat;
  obj_close : closing;
  obj_run : option (option error);
}.

(** The dynamic value of a non-nil interface. *)
Inductive dyn :=
  | Object (o : obj)
  | ErrorValue (e : error).

(** [v.(error)] for a value found in the trailing [error] result. *)
Definition as_error (d : dyn) : error :=
  match d with
  | ErrorValue e => e
  | Object o => Foreign (obj_id o)
  end.

(** [reflect.Value]: the zero Value, a value of interface type (nil or not)
    and a slice of interface values. *)
Inductive Value :=
  | Invalid
  | VIface (t : rtype) (d : option dyn)
  | VSlice (t : rtype) (elems : list dyn).

Definition nilValue : Value := Invalid.

Definition IsNil (v : Value) : bool :=
  match v with
  | VIface _ None => true
  | _ => false
  end.

Definition TypeOf (v : Value) : rtype :=
  match v with
  | Invalid => TOther "invalid"
  | VIface t _ => t
  | VSlice t _ => t
  end.

(** [Value.Interface()]. *)
Definition InterfaceOf (v : Value) : option dyn :=
  match v with
  | VIface _ d => d
  | _ => None
  end.

(** [reflect.MakeSlice(t, 0, cap)]: the capacity is not observable. *)
Definition MakeSlice (t : rtype) : Value := VSlice t [].

(** [reflect.Append(s, v)] for a slice value [s] and a non-nil interface
    value [v], the only way the source calls it. *)
Definition Append (s v : Value) : Value :=
  match s, v with
  | VSlice t l, VIface _ (Some d) => VSlice t (l ++ [d])
  | _, _ => s
  end.

(** ** Producers *)

(** A function value: its identity, [Type().In(i)], [Type().Out(i)] and what
    the body returns for given arguments, one entry per result ([None] is a
    nil interface). *)
Record func := Func {
  fn_id : nat;
  fn_in : list rtype;
  fn_out : list rtype;
  fn_body : list Value → list (option dyn);
}.

(** What can be passed to [Add] as [interface{}]. *)
Inductive producer :=
  | PNil
  | PNotFunc
  | PFunc (f : func).

(** [Value.Call]: one Value per declared result, typed as declared. *)
Definition Call (f : func) (ins : list Value) : list Value :=
  imap (λ i t, VIface t (default None (fn_body f ins !! i))) (fn_out f).

(** ** The runner *)

(** What the runner did to the outside, in order: producer calls, [Main.Run]
    and [Close] calls. *)
Inductive event :=
  | Called (id : nat) (args : list Value)
  | Ran (id : nat)
  | Closed (id : nat).

(** [type runner struct] of the current revision.  A nil map reads like the
    empty one.  [trace] is not a field of the source: it records the calls
    the runner makes. *)
Record runner := Runner {
  closeTimeout : Z;
  produceCounts : gmap rtype Z;
  provideSlice : gmap rtype bool;
  producers : list func;
  values : gmap rtype Value;
  closers : list dyn;
  trace : list event;
}.

Definition set_produceCounts (m : gmap rtype Z) (r : runner) : runner :=
  Runner (closeTimeout r) m (provideSlice r) (producers r) (values r) (closers r) (trace r).
Definition set_provideSlice (m : gmap rtype bool) (r : runner) : runner :=
  Runner (closeTimeout r) (produceCounts r) m (producers r) (values r) (closers r) (trace r).
Definition set_producers (l : list func) (r : runner) : runner :=
  Runner (closeTimeout r) (produceCounts r) (provideSlice r) l (values r) (closers r) (trace r).
Definition set_values (m : gmap rtype Value) (r : runner) : runner :=
  Runner (closeTimeout r) (produceCounts r) (provideSlice r) (producers r) m (closers r) (trace r).
Definition set_closers (l : list dyn) (r : runner) : runner :=
  Runner (closeTimeout r) (produceCounts r) (provideSlice r) (producers r) (values r) l (trace r).
Definition emit (e : event) (r : runner) : runner :=
  Runner (closeTimeout r) (produceCounts r) (provideSlice r) (producers r) (values r) (closers r)
         (trace r ++ [e]).

(** Go's [int] is 64 bits wide here. *)
Definition wrap64 (z : Z) : Z := (z + 2 ^ 63) mod 2 ^ 64 - 2 ^ 63.

(** [r.produceCounts[t]] and [r.provideSlice[t]]: a missing key reads as the
    zero value. *)
Definition count (r : runner) (t : rtype) : Z := default 0 (produceCounts r !! t).
Definition wantSlice (r : runner) (t : rtype) : bool := default false (provideSlice r !! t).

(** [20 * time.Second] in nanoseconds. *)
Definition defaultCloseTimeout : Z := 20 * 1000000000.

(** [new()] *)
Definition new : runner :=
  Runner defaultCloseTimeout ∅ ∅ [] ∅ [] [].

(** *** add *)

(** The first loop of [add]: every result type before the optional trailing
    [error] must be an interface and is counted. *)
Fixpoint add_outs (r : runner) (outs : list rtype) : runner * option error :=
  match outs with
  | [] => (r, None)
  | outType :: outs' =>
      if decide (kind outType = Interface) then
        add_outs (set_produceCounts
                    (<[outType := wrap64 (count r outType + 1)]> (produceCounts r)) r) outs'
      else (r, Some ErrProducerInvalidReturns)
  end.

(** The second loop of [add], given the parameter types in the order the loop
    visits them (last parameter first). *)
Fixpoint add_ins (r : runner) (ins : list rtype) : runner * option error :=
  match ins with
  | [] => (r, None)
  | inType :: ins' =>
      if decide (kind inType = Slice ∧ kind (Elem inType) = Interface) then
        add_ins (set_provideSlice (<[Elem inType := true]> (provideSlice r)) r) ins'
      else if decide (kind inType = Interface) then add_ins r ins'
      else (r, Some ErrProducerInvalidInputs)
  end.

(** [outCount] after the trailing [error] was taken off. *)
Definition outCount (f : func) : nat :=
  let n := length (fn_out f) in
  if decide ((0 < n)%nat ∧ fn_out f !! (n - 1)%nat = Some errorType) then (n - 1)%nat else n.

Definition add (r : runner) (p : producer) : runner * option error :=
  match p with
  | PNil => (r, Some ErrProducerNil)
  | PNotFunc => (r, Some ErrProducerNotFunc)
  | PFunc f =>
      match add_outs r (take (outCount f) (fn_out f)) with
      | (r1, Some err) => (r1, Some err)
      | (r1, None) =>
          match add_ins r1 (rev (fn_in f)) with
          | (r2, Some err) => (r2, Some err)
          | (r2, None) => (set_producers (producers r2 ++ [f]) r2, None)
          end
      end
  end.

(** *** Resolution *)

Definition findParam (r : runner) (paramType : rtype) : Value * option error :=
  let k := kind paramType in
  let pending :=
    if decide (k = Slice) then bool_decide (0 < count r (Elem paramType))
    else bool_decide (0 < count r paramType) in
  if pending then (nilValue, Some (Errorf ErrMissingDependency paramType))
  else
    match values r !! paramType with
    | Some param => (param, None)
    | None =>
        if decide (k ≠ Slice) then
          (* bad will be no way to resolve this type ever *)
          (nilValue, Some (Errorf ErrNoProducerMakes paramType))
        else (MakeSlice paramType, None)
    end.

(** The first loop of [resolveProvider]: the arguments, or the error of the
    first parameter that has none. *)
Fixpoint findParams (r : runner) (paramTypes : list rtype) : error + list Value :=
  match paramTypes with
  | [] => inr []
  | paramType :: rest =>
      match findParam r paramType with
      | (_, Some err) => inl err
      | (param, None) =>
          match findParams r rest with
          | inl err => inl err
          | inr params => inr (param :: params)
          end
      end
  end.

Definition saveIfCloser (r : runner) (value : Value) : runner :=
  match InterfaceOf value with
  | Some (Object o) =>
      match obj_close o with
      | IoCloser _ => set_closers (closers r ++ [Object o]) r
      | DelayCloser _ => set_closers (closers r ++ [Object o]) r
      | NoClose => r
      end
  | _ => r
  end.

Definition handleProvidedValue (r : runner) (value : Value) : runner * option error :=
  let providedValueType := TypeOf value in
  let waitForCount := count r providedValueType in
  if decide (waitForCount ≤ 0) then
    (r, Some (ErrorfType "BUG not waiting for produced type: " providedValueType))
  else
    (* nothing wants a slice but a slice is what there will be *)
    let r :=
      if decide (1 < waitForCount ∧ wantSlice r providedValueType = false)
      then set_provideSlice (<[providedValueType := true]> (provideSlice r)) r
      else r in
    (* waitForCount is positive: the subtraction cannot wrap *)
    let r := set_produceCounts (<[providedValueType := waitForCount - 1]> (produceCounts r)) r in
    let r := saveIfCloser r value in
    if negb (wantSlice r providedValueType) then
      (set_values (<[providedValueType := value]> (values r)) r, None)
    else
      let providedSliceType := SliceOf providedValueType in
      match values r !! providedSliceType with
      | Some aValue =>
          (set_values (<[providedSliceType := Append aValue value]> (values r)) r, None)
      | None =>
          (set_values (<[providedSliceType := Append (MakeSlice providedSliceType) value]>
                         (values r)) r, None)
      end.

(** The last loop of [resolveProvider], over the pairs of [Out(i)] and
    [results[i]] for [i < resultsCount]. *)
Fixpoint handleResults (r : runner) (results : list (rtype * Value)) : runner * option error :=
  match results with
  | [] => (r, None)
  | (outType, result) :: rest =>
      if IsNil result then (r, Some (Errorf ErrProducerReturnedNil outType))
      else
        match handleProvidedValue r result with
        | (r', Some err) => (r', Some err)
        | (r', None) => handleResults r' rest
        end
  end.

Definition resolveProvider (r : runner) (provider : func) : runner * option error :=
  match findParams r (fn_in provider) with
  | inl err => (r, Some err)
  | inr ins =>
      let r := emit (Called (fn_id provider) ins) r in
      let results := Call provider ins in
      let resultsCount := length results in
      let handle n := handleResults r (take n (zip (fn_out provider) results)) in
      if decide ((0 < resultsCount)%nat ∧
                 fn_out provider !! (resultsCount - 1)%nat = Some errorType) then
        match results !! (resultsCount - 1)%nat with
        | Some (VIface _ (Some d)) => (r, Some (as_error d))
        | _ => handle (resultsCount - 1)%nat
        end
      else handle resultsCount
  end.

(** One run of the inner loop of [build] over the producers [ps], with the
    [waitingProducers] and [errs] collected so far. *)
Inductive pass_result :=
  | PassFatal (r : runner) (err : error)
  | PassDone (r : runner) (waitingProducers : list func) (errs : list error).

Fixpoint pass (r : runner) (ps : list func) (waitingProducers : list func)
    (errs : list error) : pass_result :=
  match ps with
  | [] => PassDone r waitingProducers errs
  | value :: ps' =>
      match resolveProvider r value with
      | (r', Some err) =>
          if errors_Is err ErrMissingDependency then
            pass r' ps' (waitingProducers ++ [value]) (errs ++ [err])
          else PassFatal r' err
      | (r', None) => pass r' ps' waitingProducers errs
      end
  end.

(** Keeps the equation of a value that is matched on. *)
Definition inspect {A : Type} (x : A) : {y : A | x = y} := exist _ x eq_refl.

(** [build]: the outer loop runs while [r.producers] is not empty; a pass in
    which every producer waits ends it, any other pass leaves fewer
    producers.  Go's nil result is [None]. *)
Equations? build (r : runner) : runner * option (list error)
    by wf (length (producers r)) lt :=
  build r with inspect (producers r) := {
    | exist _ nil _ =>
        (* nil out producers, produceCounts, and provideSlice *)
        (set_provideSlice ∅ (set_produceCounts ∅ (set_producers [] r)), None)
    | exist _ (cons p ps) Hps with inspect (pass r (p :: ps) [] []) := {
        | exist _ (PassFatal r' err) _ => (r', Some [err])
        | exist _ (PassDone r' waitingProducers errs) Hpass
            with inspect (length waitingProducers =? length (p :: ps))%nat := {
            (* did not resolve any producers *)
            | exist _ true _ => (r', Some errs)
            | exist _ false Hlen => build (set_producers waitingProducers r') } } }.
Proof.
  change (pass r (p :: ps) [] [] = PassDone r' waitingProducers errs) in Hpass.
  assert (∀ qs r0 waiting0 errs0 r1 waiting1 errs1,
            pass r0 qs waiting0 errs0 = PassDone r1 waiting1 errs1 →
            (length waiting1 ≤ length waiting0 + length qs)%nat) as Hkept.
  { induction qs as [| q qs IH]; intros r0 waiting0 errs0 r1 waiting1 errs1; simpl.
    - intros [= _ <- _]. lia.
    - destruct (resolveProvider r0 q) as [r2 [err |]].
      + destruct (errors_Is err ErrMissingDependency); [| discriminate].
        intros H. apply IH in H. rewrite length_app in H. simpl in H. lia.
      + intros H. apply IH in H. lia. }
  apply Hkept in Hpass. rewrite Hps.
  apply Nat.eqb_neq in Hlen. simpl in *. lia.
Qed.

(** *** Teardown *)

(** The loop of [close] over the closers still to visit, given in the order
    of the visit.  The result is the runner (its trace) and the errors. *)
Fixpoint closeLoop (r : runner) (cs : list dyn) (errs : list error) : runner * list error :=
  match cs with
  | [] => (r, errs)
  | v :: cs' =>
      match v with
      | Object (Obj id (IoCloser ret) _) =>
          let r := emit (Closed id) r in
          match ret with
          | Some err => closeLoop r cs' (errs ++ [err])
          | None => closeLoop r cs' errs
          end
      | Object (Obj id (DelayCloser sel) _) =>
          let r := emit (Closed id) r in
          match sel with
          | Received (Some err) => closeLoop r cs' (errs ++ [err])
          | Received None => closeLoop r cs' errs
          | ChanClosed => (r, errs ++ [ErrorsNew "BUG runner DelayCloser doneChan closed"])
          | TimerFired => (r, errs ++ [ErrDelayCloserTimeout])
          end
      | _ => closeLoop r cs' (errs ++ [ErrorsNew "BUG runner has non closer in closers"])
      end
  end.

(** [close]: [i] runs from [len(r.closers) - 1] down to [0]. *)
Definition close (r : runner) (errs : list error) : runner * list error :=
  closeLoop r (rev (closers r)) errs.

(** *** run and Run *)

Definition run (r : runner) : runner * list error :=
  match build r with
  | (r, Some errs) => close r errs
  | (r, None) =>
      (* get the Main interface *)
      match values r !! mainType with
      | None => close r [ErrNoMain]
      | Some mainValue =>
          match InterfaceOf mainValue with
          | Some (Object (Obj id _ (Some ret))) =>
              (* values no longer needed *)
              let r := set_values ∅ r in
              let r := emit (Ran id) r in
              match ret with
              | Some err => close r [err]
              | None => close r []
              end
          | _ =>
              close r [ErrorsNew "BUG Main interface found but can not type assert to Main"]
          end
      end
  end.

(** The loop of [Run] over the producers. *)
Fixpoint addAll (r : runner) (ps : list producer) : runner * option error :=
  match ps with
  | [] => (r, None)
  | v :: ps' =>
      match add r v with
      | (r', Some err) => (r', Some err)
      | (r', None) => addAll r' ps'
      end
  end.

Definition Run (ps : list producer) : runner * list error :=
  match addAll new ps with
  | (r, Some err) => (r, [err])
  | (r, None) => run r
  end.

(** ** The earlier revision of [resolveProvider] *)

(** [runner.go] also holds the revision before [findParam],
    [handleProvidedValue] and [closers] were introduced (its lines 1 to
    323).  [Add] and the loop of [build] are the same there;
    [resolveProvider] does the lookup and the storing in its two loops
    itself, does not record closers, and differs in what it does for a slice
    that is not in the store.  Its [close] walks the map [values] and waits
    for all [DelayCloser]s together; it is not part of this development.
    The copy of [runner.go] kept behind [runner_test.go] has the closers of
    the current revision and a [findParam] that does the lookup below. *)
Module Earlier.

(** The body of the first loop of [resolveProvider] (lines 209 to 223). *)
Definition lookupParam (r : runner) (paramType : rtype) : Value * option error :=
  let pending :=
    if decide (kind paramType = Slice) then bool_decide (0 < count r (Elem paramType))
    else bool_decide (0 < count r paramType) in
  if pending then (nilValue, Some (Errorf ErrMissingDependency paramType))
  else
    match values r !! paramType with
    | Some anIn => (anIn, None)
    | None =>
        (* bad will be no way to resolve this type ever *)
        (nilValue, Some (Errorf ErrNoProducerMakes paramType))
    end.

Fixpoint lookupParams (r : runner) (paramTypes : list rtype) : error + list Value :=
  match paramTypes with
  | [] => inr []
  | paramType :: rest =>
      match lookupParam r paramType with
      | (_, Some err) => inl err
      | (anIn, None) =>
          match lookupParams r rest with
          | inl err => inl err
          | inr ins => inr (anIn :: ins)
          end
      end
  end.

(** The body of the last loop of [resolveProvider] after the nil test
    (lines 239 to 262). *)
Definition storeResult (r : runner) (result : Value) : runner * option error :=
  let resultType := TypeOf result in
  let waitForCount := count r resultType in
  if decide (waitForCount ≤ 0) then
    (r, Some (ErrorfType "BUG not waiting for produced type: " resultType))
  else
    let r :=
      if decide (1 < waitForCount ∧ wantSlice r resultType = false)
      then set_provideSlice (<[resultType := true]> (provideSlice r)) r
      else r in
    let r := set_produceCounts (<[resultType := waitForCount - 1]> (produceCounts r)) r in
    if wantSlice r resultType then
      let sliceType := SliceOf resultType in
      match values r !! sliceType with
      | Some aValue => (set_values (<[sliceType := Append aValue result]> (values r)) r, None)
      | None =>
          (set_values (<[sliceType := Append (MakeSlice sliceType) result]> (values r)) r,
           None)
      end
    else (set_values (<[resultType := result]> (values r)) r, None).

Fixpoint storeResults (r : runner) (results : list (rtype * Value)) : runner * option error :=
  match results with
  | [] => (r, None)
  | (outType, result) :: rest =>
      if IsNil result then (r, Some (Errorf ErrProducerReturnedNil outType))
      else
        match storeResult r result with
        | (r', Some err) => (r', Some err)
        | (r', None) => storeResults r' rest
        end
  end.

Definition resolveProvider (r : runner) (provider : func) : runner * option error :=
  match lookupParams r (fn_in provider) with
  | inl err => (r, Some err)
  | inr ins =>
      let r := emit (Called (fn_id provider) ins) r in
      let results := Call provider ins in
      let resultsCount := length results in
      let store n := storeResults r (take n (zip (fn_out provider) results)) in
      if decide ((0 < resultsCount)%nat ∧
                 fn_out provider !! (resultsCount - 1)%nat = Some errorType) then
        match results !! (resultsCount - 1)%nat with
        | Some (VIface _ (Some d)) => (r, Some (as_error d))
        | _ => store (resultsCount - 1)%nat
        end
      else store resultsCount
  end.

End Earlier.

(** ** shutdownermain *)

(** [shutdownermain] gives a [general.Shutdowner] and the [runner.Main]
    that waits for it.  [Shutdown] and [Main.Run] are called from different
    goroutines: each call is at one of its statements, and a step moves one
    call over a statement that does not block, or a sender and a receiver
    together over the unbuffered channel. *)
Module Shutdownermain.

(** [type shutdowner struct]: the mutex, [done] and whether [shutdownChan]
    is closed.  [sent] and [order] are not in the source: the values that
    went through the channel, and the errors of the calls of [Shutdown] in
    the order in which they took the mutex. *)
Record shutdowner := Shutdowner {
  locked : bool;
  done : bool;
  closed : bool;
  sent : list (option error);
  order : list (option error);
}.

(** [NewShutdownerMain]: both results share the one channel. *)
Definition NewShutdownerMain : shutdowner := Shutdowner false false false [] [].

(** Where a call is.  [Shutdown(err)]: at [r.Lock()], at [if !r.done], at
    [r.shutdownChan <- err], at [close(r.shutdownChan)], at the deferred
    [r.Unlock()], returned.  [Run()]: at [<-r], returned with a value.  A
    send on a closed channel and the close of a closed channel panic. *)
Inductive call :=
  | AtLock (err : option error)
  | AtTest (err : option error)
  | AtSend (err : option error)
  | AtClose
  | AtUnlock
  | ShutdownReturned
  | AtReceive
  | RunReturned (ret : option error)
  | Panicked.

(** A call that holds the mutex. *)
Definition holds (c : call) : bool :=
  match c with
  | AtTest _ | AtSend _ | AtClose | AtUnlock => true
  | _ => false
  end.

(** A call that has not started. *)
Definition fresh (c : call) : bool :=
  match c with
  | AtLock _ | AtReceive => true
  | _ => false
  end.

(** The call [i] goes over its statement, if the statement does not
    block. *)
Definition advance (i : nat) (s : shutdowner) (calls : list call)
    : option (shutdowner * list call) :=
  match calls !! i with
  | Some (AtLock err) =>
      if locked s then None
      else Some (Shutdowner true (done s) (closed s) (sent s) (order s ++ [err]),
                 <[i := AtTest err]> calls)
  | Some (AtTest err) =>
      if done s then Some (s, <[i := AtUnlock]> calls)
      else Some (Shutdowner (locked s) true (closed s) (sent s) (order s),
                 <[i := AtSend err]> calls)
  | Some (AtSend err) =>
      if closed s then Some (s, <[i := Panicked]> calls) else None
  | Some AtClose =>
      if closed s then Some (s, <[i := Panicked]> calls)
      else Some (Shutdowner (locked s) (done s) true (sent s) (order s),
                 <[i := AtUnlock]> calls)
  | Some AtUnlock =>
      Some (Shutdowner false (done s) (closed s) (sent s) (order s),
            <[i := ShutdownReturned]> calls)
  | Some AtReceive =>
      (* a receive from a closed channel gives the zero value *)
      if closed s then Some (s, <[i := RunReturned None]> calls) else None
  | _ => None
  end.

(** The sender [i] and the receiver [j] meet on the open channel. *)
Definition rendezvous (i j : nat) (s : shutdowner) (calls : list call)
    : option (shutdowner * list call) :=
  match calls !! i, calls !! j with
  | Some (AtSend err), Some AtReceive =>
      if closed s then None
      else Some (Shutdowner (locked s) (done s) (closed s) (sent s ++ [err]) (order s),
                 <[i := AtClose]> (<[j := RunReturned err]> calls))
  | _, _ => None
  end.

Inductive action :=
  | Advance (i : nat)
  | Rendezvous (i j : nat).

Definition step (a : action) (s : shutdowner) (calls : list call)
    : option (shutdowner * list call) :=
  match a with
  | Advance i => advance i s calls
  | Rendezvous i j => rendezvous i j s calls
  end.

(** A schedule is run from the left; [None] when one of its steps cannot
    be taken. *)
Fixpoint steps (schedule : list action) (s : shutdowner) (calls : list call)
    : option (shutdowner * list call) :=
  match schedule with
  | [] => Some (s, calls)
  | a :: schedule' =>
      match step a s calls with
      | Some (s', calls') => steps schedule' s' calls'
      | None => None
      end
  end.

(** What holds of a shutdowner and the calls made on it: one call at most
    holds the mutex; before [done] is set nothing was sent; after, the
    error [first] of the call that took the mutex first is the only value
    that is sent, and the mutex is free again only when it was received and
    the channel is closed. *)
Definition consistent (s : shutdowner) (calls : list call) : Prop :=
  (∀ i j ci cj, calls !! i = Some ci → calls !! j = Some cj →
                holds ci = true → holds cj = true → i = j)
  ∧ (locked s = false → ∀ i c, calls !! i = Some c → holds c = false)
  ∧ (done s = false →
     sent s = [] ∧ closed s = false ∧ (locked s = false → order s = [])
     ∧ ∀ i c, calls !! i = Some c →
              match c with
              | AtLock _ | AtReceive => True
              | AtTest err => order s = [err]
              | _ => False
              end)
  ∧ (done s = true →
     ∃ first rest,
       order s = first :: rest
       ∧ (sent s = [] ∨ sent s = [first])
       ∧ (sent s = [first] → ∃ j, calls !! j = Some (RunReturned first))
       ∧ (locked s = false → sent s = [first] ∧ closed s = true)
       ∧ ∀ i c, calls !! i = Some c →
                match c with
                | AtSend err => err = first ∧ sent s = [] ∧ closed s = false
                | AtClose => sent s = [first] ∧ closed s = false
                | AtTest _ | AtUnlock | ShutdownReturned =>
                    sent s = [first] ∧ closed s = true
                | RunReturned ret =>
                    (ret = first ∧ sent s = [first]) ∨ (ret = None ∧ closed s = true)
                | Panicked => False
                | _ => True
                end).

End Shutdownermain.

(** ** The producers of the package's tests *)

Module Tests.

Definition testInterface1 : rtype := TInterface "testInterface1".
Definition testInterface2 : rtype := TInterface "testInterface2".

Definition testStruct1 : dyn := Object (Obj 1 NoClose None).
Definition testStruct2 : dyn := Object (Obj 2 NoClose None).
Definition errCloser : error := Foreign 100.
Definition errDelayCloser : error := Foreign 101.
Definition errMainError : error := Foreign 102.
Definition testStruct2Closer : dyn := Object (Obj 3 (IoCloser (Some errCloser)) None).
Definition testStruct2DelayCloser : dyn :=
  Object (Obj 4 (DelayCloser (Received (Some errDelayCloser))) None).
Definition testMain : dyn := Object (Obj 5 NoClose (Some None)).
Definition testMainError : dyn := Object (Obj 6 NoClose (Some (Some errMainError))).

Definition nonInterfaceOut : func := Func 10 [] [TOther "int"] (λ _, [None]).
Definition nonInterfaceIn : func :=
  Func 11 [TOther "int"] [testInterface1] (λ _, [Some testStruct1]).
Definition new1Consume2 : func :=
  Func 12 [testInterface2] [testInterface1] (λ _, [Some testStruct1]).
Definition new2Consume1 : func :=
  Func 13 [testInterface1] [testInterface2] (λ _, [Some testStruct2]).
Definition newNilProvider : func := Func 14 [] [testInterface1] (λ _, [None]).
Definition newMainError : func := Func 15 [] [mainType] (λ _, [Some testMainError]).
Definition new2 : func := Func 16 [] [testInterface2] (λ _, [Some testStruct2]).
Definition new1ConsumeSice2 : func :=
  Func 17 [TSlice testInterface2] [testInterface1] (λ _, [Some testStruct1]).
Definition new2Closer : func := Func 18 [] [testInterface2] (λ _, [Some testStruct2Closer]).
Definition new2DelayCloser : func :=
  Func 19 [] [testInterface2] (λ _, [Some testStruct2DelayCloser]).
Definition newMain : func := Func 20 [testInterface1] [mainType] (λ _, [Some testMain]).

End Tests.

(** ** Vocabulary of the properties *)

(** The test of [findParam] on the count: of the element type for a slice
    parameter, of the type itself otherwise. *)
Definition pending (r : runner) (paramType : rtype) : Prop :=
  0 < count r (if decide (kind paramType = Slice) then Elem paramType else paramType).

(** A parameter for which [findParam] returns a value. *)
Definition bound (r : runner) (paramType : rtype) : Prop :=
  ¬ pending r paramType ∧ (is_Some (values r !! paramType) ∨ kind paramType = Slice).

#[global] Instance pending_dec r t : Decision (pending r t).
Proof. unfold pending. apply _. Defined.

(** The attempt of [p] in state [r] ends with an error that wraps
    [ErrMissingDependency] and [p] was not called: the runner, its trace
    included, is as before. *)
Definition deferred_uncalled (r : runner) (p : func) : Prop :=
  ∃ e, resolveProvider r p = (r, Some e) ∧ errors_Is e ErrMissingDependency = true.

(** The reading of the spec: an attempt is deferred without a call exactly
    when some parameter is pending. *)
Definition deferred_iff_some_pending (r : runner) (p : func) : Prop :=
  deferred_uncalled r p ↔ ∃ t, t ∈ fn_in p ∧ pending r t.

(** A value that [saveIfCloser] records. *)
Definition capable (d : dyn) : bool :=
  match d with
  | Object (Obj _ (IoCloser _) _) | Object (Obj _ (DelayCloser _) _) => true
  | _ => false
  end.

(** A closer at which the loop of [close] returns: a [DelayCloser] whose
    [select] finds the channel closed or the timer fired. *)
Definition aborts (d : dyn) : bool :=
  match d with
  | Object (Obj _ (DelayCloser ChanClosed) _)
  | Object (Obj _ (DelayCloser TimerFired) _) => true
  | _ => false
  end.

(** The [Close] calls for a list of recorded values, one per closer. *)
Definition close_calls (cs : list dyn) : list event :=
  omap (λ d, match d with
             | Object o => if capable d then Some (Closed (obj_id o)) else None
             | ErrorValue _ => None
             end) cs.

(** The identities of the values closed in a trace, in order. *)
Definition closed_ids (tr : list event) : list nat :=
  omap (λ e, match e with Closed id => Some id | _ => None end) tr.

(** What [handleProvidedValue] adds to [closers] for a value. *)
Definition recorded (value : Value) : list dyn :=
  match InterfaceOf value with
  | Some d => if capable d then [d] else []
  | None => []
  end.

(** A parameter type that [add] accepts. *)
Definition valid_in (t : rtype) : Prop :=
  (kind t = Slice ∧ kind (Elem t) = Interface) ∨ kind t = Interface.

#[global] Instance valid_in_dec t : Decision (valid_in t).
Proof. unfold valid_in. apply _. Defined.

(** [c++] on a Go [int]. *)
Definition incr64 (c : Z) : Z := wrap64 (c + 1).

(** The counts after the first loop of [add] went through [outs]. *)
Definition count_up (m : gmap rtype Z) (outs : list rtype) : gmap rtype Z :=
  foldl (λ m t, <[t := incr64 (default 0 (m !! t))]> m) m outs.

(** The slice marks after the second loop of [add] visited [ins]. *)
Definition mark_slices (m : gmap rtype bool) (ins : list rtype) : gmap rtype bool :=
  foldl (λ m t, if decide (kind t = Slice) then <[Elem t := true]> m else m) m ins.

(** The result types of [f] that [add] counts: all but a trailing [error]. *)
Definition supplied (f : func) : list rtype := take (outCount f) (fn_out f).



(** What holds of the counts and the store while the producers [ps] are
    added and resolved, for the types [M] they supply: only supplied
    interface types have a count, and only their slices are in the store. *)
Definition catalog_within (M : rtype → Prop) (r : runner) : Prop :=
  (∀ ty, count r ty ≠ 0 → M ty ∧ kind ty = Interface)
  ∧ (∀ ty, is_Some (values r !! TSlice ty) → M ty).

(** The states of a resolution that starts in [r0]: producers are attempted
    and [build] swaps its lists. *)
Inductive resolving (r0 : runner) : runner → Prop :=
  | resolving_start : resolving r0 r0
  | resolving_attempt r p : resolving r0 r → resolving r0 (fst (resolveProvider r p))
  | resolving_swap r waitingProducers :
      resolving r0 r → resolving r0 (set_producers waitingProducers r).

(** A producer that, once called, does not end its attempt with an error
    wrapping [ErrMissingDependency]. *)
Definition never_asks_again (p : func) : Prop :=
  ∀ r ins r' err,
    findParams r (fn_in p) = inr ins →
    resolveProvider r p = (r', Some err) →
    errors_Is err ErrMissingDependency = false.

(** The event [ev] is a call of the producer [p]. *)
Definition call_of (p : func) (ev : event) : Prop := ∃ ins, ev = Called (fn_id p) ins.

(** The values stored under the list form of [T]. *)
Definition stored_at (T : rtype) (r : runner) : list dyn :=
  match values r !! TSlice T with
  | Some (VSlice _ l) => l
  | _ => []
  end.

(** How many results of type [T] the producer [p] is counted for, and the
    producers of a list together. *)
Definition supplies (T : rtype) (p : func) : nat :=
  count_occ rtype_eq_dec (supplied p) T.
Definition supplies_all (T : rtype) (ps : list func) : Z :=
  Z.of_nat (sum_list_with (supplies T) ps).

(** The result types of a signature as its reader sees them: all of them,
    but not the last one when it is [error]. *)
Definition results_but_error (outs : list rtype) : list rtype :=
  if decide (last outs = Some errorType) then removelast outs else outs.

(** The store of a type [T] that is delivered [K] times in all and kept in
    list form: no single value, the values delivered so far in the list and
    the rest still counted. *)
Definition list_form (T : rtype) (K : Z) (r : runner) : Prop :=
  (∀ ty, count r ty ≠ 0 → kind ty = Interface)
  ∧ values r !! T = None
  ∧ 0 ≤ count r T
  ∧ Z.of_nat (length (stored_at T r)) + count r T = K
  ∧ (wantSlice r T = true ∨ values r !! TSlice T = None)
  ∧ (∀ x, values r !! TSlice T = Some x → ∃ l, x = VSlice (TSlice T) l).

(** The reading of the spec: two registered producers that both supply
    [Main], none of whose parameters is [Main] or a slice of it, are
    resolved, and [Run] reports [ErrNoMain]. *)
Definition two_mains_resolve (P1 P2 : func) : Prop :=
  snd (addAll new [PFunc P1; PFunc P2]) = None →
  mainType ∈ supplied P1 → mainType ∈ supplied P2 →
  Forall (λ t, t ≠ mainType ∧ t ≠ TSlice mainType) (fn_in P1 ++ fn_in P2) →
  snd (build (fst (addAll new [PFunc P1; PFunc P2]))) = None
  ∧ ErrNoMain ∈ snd (Run [PFunc P1; PFunc P2]).

(** What resolution keeps of the store: only interface types are counted;
    a key of the store is an interface type, with a single value, or the
    slice of one, with a list; a type with a single value is no longer
    counted and not marked for the list form; a type with a list is
    marked. *)
Definition store_consistent (r : runner) : Prop :=
  (∀ ty, count r ty ≠ 0 → kind ty = Interface)
  ∧ (∀ k, is_Some (values r !! k) →
          kind k = Interface ∨ ∃ T, k = TSlice T ∧ kind T = Interface)
  ∧ (∀ T, kind T = Interface → is_Some (values r !! T) →
          count r T = 0 ∧ wantSlice r T = false)
  ∧ (∀ T, is_Some (values r !! TSlice T) → wantSlice r T = true)
  ∧ (∀ T x, values r !! TSlice T = Some x → ∃ l, x = VSlice (TSlice T) l).

(** Where the [K] results of type [T] are while they are delivered: in the
    list, if some producer takes a slice of [T] ([marked]) or [K] is two or
    more; as the single value, if not. *)
Definition delivery_form (T : rtype) (K : Z) (marked : bool) (r : runner) : Prop :=
  0 ≤ count r T
  ∧ if marked then
      wantSlice r T = true ∧ values r !! T = None
      ∧ Z.of_nat (length (stored_at T r)) + count r T = K
    else
      (wantSlice r T = false ∧ values r !! TSlice T = None ∧ values r !! T = None
       ∧ count r T = K)
      ∨ (wantSlice r T = false ∧ values r !! TSlice T = None ∧ is_Some (values r !! T)
         ∧ K = 1 ∧ count r T = 0)
      ∨ (wantSlice r T = true ∧ values r !! T = None ∧ 2 ≤ K
         ∧ Z.of_nat (length (stored_at T r)) + count r T = K).

(** The store of [r'] continues that of [r]: the single values are the
    same, the lists are longer or the same, the counts are lower or the
    same and not negative if they were not. *)
Definition store_extends (r r' : runner) : Prop :=
  (∀ T x, kind T = Interface → values r !! T = Some x → values r' !! T = Some x)
  ∧ (∀ T, stored_at T r `prefix_of` stored_at T r')
  ∧ (∀ T, count r' T ≤ count r T ∧ (0 ≤ count r T → 0 ≤ count r' T)).

(** The error a closer reports when it is closed and does not abort the
    loop: what [Close()] returns, or what arrives on [doneChan]. *)
Definition reported (d : dyn) : option error :=
  match d with
  | Object (Obj _ (IoCloser ret) _) => ret
  | Object (Obj _ (DelayCloser (Received ret)) _) => ret
  | _ => None
  end.

(** The type whose count [findParam] tests for a parameter: the element
    type of a slice, the type itself otherwise. *)
Definition counted_for (paramType : rtype) : rtype :=
  if decide (kind paramType = Slice) then Elem paramType else paramType.

(** The producer [p] takes a result of the producer [q]: [q] is counted
    for a type that [p] has as a parameter or as the element type of a
    slice parameter. *)
Definition takes_from (p q : func) : Prop :=
  ∃ t, t ∈ fn_in p ∧ (0 < supplies (counted_for t) q)%nat.

(** Every call in the trace [tr] is a call of a producer of [fs] that comes
    after a call of each producer of [fs] it takes a result of. *)
Definition calls_follow_suppliers (fs : list func) (tr : list event) : Prop :=
  ∀ k id ins,
    tr !! k = Some (Called id ins) →
    ∃ p, p ∈ fs ∧ fn_id p = id
         ∧ ∀ q, q ∈ fs → takes_from p q →
                ∃ j ins', (j < k)%nat ∧ tr !! j = Some (Called (fn_id q) ins').

(** ** Runners and producers of the examples *)

Module Examples.
Import Tests.

Definition testInterface3 : rtype := TInterface "testInterface3".
Definition testStruct3 : dyn := Object (Obj 7 NoClose None).

(** [func(testInterface2, testInterface3) testInterface1] *)
Definition new1Consume2And3 : func :=
  Func 30 [testInterface2; testInterface3] [testInterface1] (λ _, [Some testStruct1]).


(** [func(testInterface1) testInterface3] *)
Definition new3Consume1 : func :=
  Func 32 [testInterface1] [testInterface3] (λ _, [Some testStruct3]).

(** The runner after [new2], [new2], [new1Consume2And3] and [new3Consume1]
    were added and the first pass of [build] called [new2] twice: the state
    in which the pass attempts [new1Consume2And3]. *)
Definition twoSuppliersDone : runner :=
  let r := fst (addAll new [PFunc new2; PFunc new2; PFunc new1Consume2And3;
                            PFunc new3Consume1]) in
  fst (resolveProvider (fst (resolveProvider r new2)) new2).

(** [func(int, []testInterface2) (testInterface1, error)]: the first loop of
    [add] counts [testInterface1] and not the [error], the second marks
    [testInterface2] before it meets [int]. *)
Definition new1OrErrorConsumeIntAndSlice2 : func :=
  Func 33 [TOther "int"; TSlice testInterface2] [testInterface1; errorType]
       (λ _, [Some testStruct1; None]).

(** A [DelayCloser] that never reports, and closers made before and after
    it. *)
Definition closerBefore : dyn := Object (Obj 8 (IoCloser (Some (Foreign 108))) None).
Definition neverDone : dyn := Object (Obj 9 (DelayCloser TimerFired) None).
Definition closerAfter : dyn := Object (Obj 10 (IoCloser (Some (Foreign 110))) None).
Definition newCloserBefore : func := Func 34 [] [testInterface2] (λ _, [Some closerBefore]).
Definition newNeverDone : func := Func 35 [] [testInterface2] (λ _, [Some neverDone]).
Definition newCloserAfter : func := Func 36 [] [testInterface2] (λ _, [Some closerAfter]).

(** The runner after these three were added and called, in this order. *)
Definition threeClosersBuilt : runner :=
  fst (build (fst (addAll new [PFunc newCloserBefore; PFunc newNeverDone;
                                PFunc newCloserAfter]))).

(** [func() (testInterface1, error)] that returns
    [nil, runner.ErrMissingDependency]. *)
Definition newAsksAgain : func :=
  Func 37 [] [testInterface1; errorType]
       (λ _, [None; Some (ErrorValue ErrMissingDependency)]).

(** The runner after [newAsksAgain] and [new1ConsumeSice2] were added. *)
Definition twoAdded : runner :=
  fst (addAll new [PFunc newAsksAgain; PFunc new1ConsumeSice2]).

(** Two producers of [Main]: one asks for [testInterface2], one asks for
    nothing. *)
Definition newMainConsume2 : func :=
  Func 38 [testInterface2] [mainType] (λ _, [Some testMain]).
Definition newMainAlone : func := Func 39 [] [mainType] (λ _, [Some testMain]).

(** A runner in which [new1Consume2] waits for the one [testInterface2]
    still counted. *)
Definition oneWaiting : runner :=
  Runner defaultCloseTimeout {[testInterface2 := 1]} ∅ [new1Consume2] ∅ [] [].

End Examples.

(** * Properties *)

(** ** The tests of the package, replayed on the model *)

Section PackageTests.
Import Tests.

Example TestErrNoMain : snd (Run []) = [ErrNoMain].
Proof. reflexivity. Qed.

Example TestErrProducerNil : snd (Run [PNil]) = [ErrProducerNil].
Proof. reflexivity. Qed.

Example TestErrProducerNotFunc : snd (Run [PNotFunc]) = [ErrProducerNotFunc].
Proof. reflexivity. Qed.

Example TestErrProducerInvalidReturns :
  snd (Run [PFunc nonInterfaceOut]) = [ErrProducerInvalidReturns].
Proof. reflexivity. Qed.

Example TestErrProducerInvalidInputs :
  snd (Run [PFunc nonInterfaceIn]) = [ErrProducerInvalidInputs].
Proof. reflexivity. Qed.

Example TestErrNoProducerMakes :
  snd (Run [PFunc new1Consume2]) = [Errorf ErrNoProducerMakes testInterface2].
Proof. vm_compute. reflexivity. Qed.

Example TestCircularReferenceError :
  snd (Run [PFunc new1Consume2; PFunc new2Consume1])
  = [Errorf ErrMissingDependency testInterface2; Errorf ErrMissingDependency testInterface1].
Proof. vm_compute. reflexivity. Qed.

Example TestErrProducerReturnedNil :
  snd (Run [PFunc newNilProvider]) = [Errorf ErrProducerReturnedNil testInterface1].
Proof. vm_compute. reflexivity. Qed.

Example TestMainRunErrorReturned : snd (Run [PFunc newMainError]) = [errMainError].
Proof. vm_compute. reflexivity. Qed.

Example TestSliceWhenSingleNeededError :
  snd (Run [PFunc new1Consume2; PFunc new2; PFunc new2])
  = [Errorf ErrNoProducerMakes testInterface2].
Proof. vm_compute. reflexivity. Qed.

Example TestMainRun :
  snd (Run [PFunc new1ConsumeSice2; PFunc new2; PFunc new2Closer; PFunc new2DelayCloser;
            PFunc newMain])
  = [errDelayCloser; errCloser].
Proof. vm_compute. reflexivity. Qed.

End PackageTests.

(** ** Auxiliary *)

Lemma pair_with_snd {A B} (x : A * B) (b : B) : snd x = b → x = (fst x, b).
Proof. intros <-. by destruct x. Qed.

(** ** The steps of an attempt *)

Lemma saveIfCloser_trace r v : trace (saveIfCloser r v) = trace r.
Proof. unfold saveIfCloser. by repeat case_match. Qed.

Lemma saveIfCloser_producers r v : producers (saveIfCloser r v) = producers r.
Proof. unfold saveIfCloser. by repeat case_match. Qed.

Lemma saveIfCloser_closers r v : closers (saveIfCloser r v) = closers r ++ recorded v.
Proof.
  unfold saveIfCloser, recorded.
  destruct (InterfaceOf v) as [[[id [| ret | sel] run] | e] |]; simpl;
    by rewrite ?app_nil_r.
Qed.

Lemma saveIfCloser_maps r v :
  produceCounts (saveIfCloser r v) = produceCounts r
  ∧ provideSlice (saveIfCloser r v) = provideSlice r
  ∧ values (saveIfCloser r v) = values r.
Proof. unfold saveIfCloser. by repeat case_match. Qed.

Lemma handleProvidedValue_trace r v : trace (fst (handleProvidedValue r v)) = trace r.
Proof.
  unfold handleProvidedValue.
  repeat case_match; simpl; rewrite ?saveIfCloser_trace; simpl; try done;
    by case_match.
Qed.

Lemma handleProvidedValue_producers r v :
  producers (fst (handleProvidedValue r v)) = producers r.
Proof.
  unfold handleProvidedValue.
  repeat case_match; simpl; rewrite ?saveIfCloser_producers; simpl; try done;
    by case_match.
Qed.

(** [handleProvidedValue] records a value that can be closed behind the ones
    recorded before; when it fails it changes nothing. *)
Lemma handleProvidedValue_closers r v r' :
  handleProvidedValue r v = (r', None) → closers r' = closers r ++ recorded v.
Proof.
  unfold handleProvidedValue.
  destruct (decide (count r (TypeOf v) ≤ 0)); [discriminate |].
  repeat case_match; intros [= <-]; simpl; rewrite saveIfCloser_closers; simpl;
    by repeat case_match.
Qed.

Lemma handleProvidedValue_fails r v r' err :
  handleProvidedValue r v = (r', Some err) → r' = r.
Proof.
  unfold handleProvidedValue.
  destruct (decide (count r (TypeOf v) ≤ 0)); [by intros [= <-] |].
  repeat case_match; discriminate.
Qed.

(** The errors that [handleResults] makes do not wrap
    [ErrMissingDependency]. *)
Lemma handleProvidedValue_error r v r' err :
  handleProvidedValue r v = (r', Some err) → errors_Is err ErrMissingDependency = false.
Proof.
  unfold handleProvidedValue.
  destruct (decide (count r (TypeOf v) ≤ 0)); [by intros [= _ <-] |].
  repeat case_match; discriminate.
Qed.

(** What a successful [handleProvidedValue] does to each field. *)
Lemma handleProvidedValue_fields r v r' :
  handleProvidedValue r v = (r', None) →
  let t := TypeOf v in
  0 < count r t
  ∧ produceCounts r' = <[t := count r t - 1]> (produceCounts r)
  ∧ provideSlice r'
    = (if decide (1 < count r t ∧ wantSlice r t = false)
       then <[t := true]> (provideSlice r) else provideSlice r)
  ∧ values r'
    = (if wantSlice r' t
       then <[TSlice t := Append (default (MakeSlice (TSlice t)) (values r !! TSlice t)) v]>
              (values r)
       else <[t := v]> (values r)).
Proof.
  intros H. cbv zeta. unfold handleProvidedValue in H.
  set (t := TypeOf v) in *.
  destruct (decide (count r t ≤ 0)) as [| Hpos]; [discriminate |].
  split; [lia |].
  set (r1 := if decide _ then _ else r) in H.
  assert (provideSlice r1
          = (if decide (1 < count r t ∧ wantSlice r t = false)
             then <[t := true]> (provideSlice r) else provideSlice r)
          ∧ produceCounts r1 = produceCounts r ∧ values r1 = values r
          ∧ count r1 t = count r t) as (Hps & Hpc & Hvals & Hcount)
    by (subst r1; by case_decide).
  clearbody r1.
  set (r2 := set_produceCounts _ r1) in H.
  destruct (saveIfCloser_maps r2 v) as (Hc3 & Hs3 & Hv3).
  unfold wantSlice in *.
  destruct (negb _) eqn:Hw; [| destruct (values _ !! SliceOf t) eqn:Hl];
    injection H as <-; simpl; rewrite Hs3, Hc3, Hv3; subst r2; simpl;
    rewrite Hs3 in Hw; simpl in Hw; rewrite Hps in *;
    rewrite ?Hcount, ?Hpc, ?Hvals;
    (split; [done |]); (split; [done |]).
  - apply negb_true_iff in Hw. by rewrite Hw.
  - apply negb_false_iff in Hw. rewrite Hw.
    rewrite Hv3 in Hl. simpl in Hl. rewrite Hvals in Hl.
    unfold SliceOf in Hl. by rewrite Hl.
  - apply negb_false_iff in Hw. rewrite Hw.
    rewrite Hv3 in Hl. simpl in Hl. rewrite Hvals in Hl.
    unfold SliceOf in Hl. by rewrite Hl.
Qed.

Lemma handleResults_trace r l : trace (fst (handleResults r l)) = trace r.
Proof.
  revert r. induction l as [| [t v] l IH]; intros r; simpl; [done |].
  destruct (IsNil v); [done |].
  pose proof (handleProvidedValue_trace r v) as Hv.
  destruct (handleProvidedValue r v) as [r' [err |]]; simpl in *; [done |].
  by rewrite IH.
Qed.

Lemma handleResults_producers r l : producers (fst (handleResults r l)) = producers r.
Proof.
  revert r. induction l as [| [t v] l IH]; intros r; simpl; [done |].
  destruct (IsNil v); [done |].
  pose proof (handleProvidedValue_producers r v) as Hv.
  destruct (handleProvidedValue r v) as [r' [err |]]; simpl in *; [done |].
  by rewrite IH.
Qed.

Lemma handleResults_error r l r' err :
  handleResults r l = (r', Some err) → errors_Is err ErrMissingDependency = false.
Proof.
  revert r. induction l as [| [t v] l IH]; intros r; simpl; [discriminate |].
  destruct (IsNil v); [by intros [= _ <-] |].
  destruct (handleProvidedValue r v) as [r1 [e |]] eqn:Hv.
  - intros [= _ <-]. by eapply handleProvidedValue_error.
  - apply IH.
Qed.

(** A producer whose arguments were found is called, once, and nothing else
    is called by the attempt. *)
Lemma resolveProvider_called r p ins :
  findParams r (fn_in p) = inr ins →
  trace (fst (resolveProvider r p)) = trace r ++ [Called (fn_id p) ins].
Proof.
  intros Hins. unfold resolveProvider. rewrite Hins.
  repeat case_match; simpl; try done; by rewrite handleResults_trace.
Qed.

Lemma resolveProvider_not_called r p err :
  findParams r (fn_in p) = inl err → resolveProvider r p = (r, Some err).
Proof. intros Hins. unfold resolveProvider. by rewrite Hins. Qed.

Lemma resolveProvider_unchanged r p err :
  resolveProvider r p = (r, Some err) ↔ findParams r (fn_in p) = inl err.
Proof.
  split; [| apply resolveProvider_not_called].
  intros Hres. destruct (findParams r (fn_in p)) as [err' | ins] eqn:Hins.
  - rewrite (resolveProvider_not_called _ _ _ Hins) in Hres. congruence.
  - pose proof (resolveProvider_called _ _ _ Hins) as Htr.
    rewrite Hres in Htr. simpl in Htr.
    apply (f_equal length) in Htr. rewrite length_app in Htr. simpl in Htr. lia.
Qed.

Lemma resolveProvider_producers r p : producers (fst (resolveProvider r p)) = producers r.
Proof.
  unfold resolveProvider.
  repeat case_match; simpl; try done; by rewrite handleResults_producers.
Qed.

(** An attempt that ends with an error wrapping [ErrMissingDependency]
    leaves the counts, the marks, the store and the closers as they were. *)
Lemma resolveProvider_deferred_same r p r' err :
  resolveProvider r p = (r', Some err) →
  errors_Is err ErrMissingDependency = true →
  produceCounts r' = produceCounts r ∧ provideSlice r' = provideSlice r
  ∧ values r' = values r ∧ closers r' = closers r ∧ producers r' = producers r.
Proof.
  unfold resolveProvider.
  destruct (findParams r (fn_in p)) as [e | ins]; [by intros [= <- _] |].
  intros Hres Hm.
  repeat case_match; try (by injection Hres as <- _);
    apply handleResults_error in Hres; congruence.
Qed.

(** The results that [resolveProvider] hands to [handleResults]: the types
    that [add] counted, each with a value of that type. *)
Lemma zip_Call_typed p ins n :
  Forall (λ e, ∃ x, snd e = VIface (fst e) x) (take n (zip (fn_out p) (Call p ins)))
  ∧ (take n (zip (fn_out p) (Call p ins))).*1 = take n (fn_out p).
Proof.
  split.
  - apply Forall_take, Forall_lookup_2. intros i [t v] Hi.
    apply lookup_zip_Some in Hi as [Ht Hv]. simpl in *.
    unfold Call in Hv. rewrite list_lookup_imap, Ht in Hv. simpl in Hv.
    injection Hv as <-. by eexists.
  - rewrite fmap_take. f_equal. apply fst_zip.
    unfold Call. by rewrite length_imap.
Qed.

(** ** Parameter lookup *)

Lemma findParam_pending r t :
  pending r t → findParam r t = (nilValue, Some (Errorf ErrMissingDependency t)).
Proof.
  unfold pending, findParam. intros H.
  destruct (decide (kind t = Slice)); by rewrite bool_decide_eq_true_2.
Qed.

Lemma findParam_not_pending r t :
  ¬ pending r t →
  findParam r t =
  match values r !! t with
  | Some param => (param, None)
  | None =>
      if decide (kind t ≠ Slice) then (nilValue, Some (Errorf ErrNoProducerMakes t))
      else (MakeSlice t, None)
  end.
Proof.
  unfold pending, findParam. intros H.
  destruct (decide (kind t = Slice)); by rewrite bool_decide_eq_false_2.
Qed.

Lemma findParam_bound r t : bound r t → ∃ v, findParam r t = (v, None).
Proof.
  intros [Hn Hv]. rewrite findParam_not_pending by done.
  destruct (values r !! t) as [v |] eqn:Hl; [by eexists |].
  destruct Hv as [[? ?] | Hk]; [done |].
  destruct (decide (kind t ≠ Slice)); [done | by eexists].
Qed.

Lemma findParam_None_bound r t v : findParam r t = (v, None) → bound r t.
Proof.
  intros H. destruct (decide (pending r t)) as [Hp | Hp].
  - rewrite findParam_pending in H by done. discriminate.
  - split; [done |]. rewrite findParam_not_pending in H by done.
    destruct (values r !! t); [by left; eexists |].
    destruct (decide (kind t ≠ Slice)); [discriminate |].
    right. by destruct (decide (kind t = Slice)).
Qed.

Lemma findParam_missing r t v e :
  findParam r t = (v, Some e) → errors_Is e ErrMissingDependency = true → pending r t.
Proof.
  intros H He. destruct (decide (pending r t)) as [Hp | Hp]; [done |].
  rewrite findParam_not_pending in H by done.
  destruct (values r !! t); [discriminate |].
  destruct (decide (kind t ≠ Slice)); [| discriminate].
  injection H as _ <-. discriminate.
Qed.

(** [findParams] stops with [ErrMissingDependency] exactly when the first
    parameter without a value is a pending one. *)
Lemma findParams_missing_iff r ts :
  (∃ e, findParams r ts = inl e ∧ errors_Is e ErrMissingDependency = true)
  ↔ (∃ pre t post, ts = pre ++ t :: post ∧ Forall (bound r) pre ∧ pending r t).
Proof.
  induction ts as [| t ts IH]; simpl.
  - split; [intros (e & [=] & _) | intros (pre & t & post & H & _)].
    by destruct pre.
  - split.
    + intros (e & He & Hm).
      destruct (findParam r t) as [v [e' |]] eqn:Hf.
      * injection He as ->. exists [], t, ts. repeat split; [done |].
        eapply findParam_missing; eauto.
      * destruct (findParams r ts) as [e' | ins] eqn:Hfs; [| discriminate].
        injection He as ->.
        destruct (proj1 IH) as (pre & t' & post & -> & Hpre & Hp); [by eexists |].
        exists (t :: pre), t', post. repeat split; [| done].
        constructor; [| done]. eapply findParam_None_bound; eauto.
    + intros (pre & t' & post & Heq & Hpre & Hp).
      destruct pre as [| t0 pre]; simpl in Heq; injection Heq as -> ->.
      * rewrite findParam_pending by done. by eexists.
      * apply Forall_cons in Hpre as [Hb Hpre].
        destruct (findParam_bound _ _ Hb) as [v ->].
        destruct (proj2 IH) as (e & -> & He); [by exists pre, t', post |].
        by eexists.
Qed.

Lemma findParams_all_present r ts :
  Forall (λ t, ¬ pending r t ∧ is_Some (values r !! t)) ts →
  ∃ ins, findParams r ts = inr ins ∧ Forall2 (λ t v, values r !! t = Some v) ts ins.
Proof.
  induction 1 as [| t ts [Hn [v Hv]] _ (ins & IH & Hall)]; simpl.
  - by exists [].
  - rewrite findParam_not_pending, Hv, IH by done.
    exists (v :: ins). split; [done |]. by constructor.
Qed.


Lemma resolveProvider_first_pending r p t ts :
  fn_in p = t :: ts → pending r t →
  resolveProvider r p = (r, Some (Errorf ErrMissingDependency t)).
Proof.
  intros Hin Hp. apply resolveProvider_not_called. rewrite Hin. simpl.
  by rewrite findParam_pending.
Qed.

(** ** Passes and [build] *)

(** A pass keeps no more producers than it is given. *)
Lemma pass_waiting_length r ps waiting errs r' waiting' errs' :
  pass r ps waiting errs = PassDone r' waiting' errs' →
  (length waiting' ≤ length waiting + length ps)%nat.
Proof.
  revert r waiting errs.
  induction ps as [| p ps IH]; intros r waiting errs; simpl.
  - intros [= _ <- _]. lia.
  - destruct (resolveProvider r p) as [r1 [err |]].
    + destruct (errors_Is err ErrMissingDependency); [| discriminate].
      intros H. apply IH in H. rewrite length_app in H. simpl in H. lia.
    + intros H. apply IH in H. lia.
Qed.

Lemma build_step r :
  build r =
  match producers r with
  | [] => (set_provideSlice ∅ (set_produceCounts ∅ (set_producers [] r)), None)
  | _ :: _ =>
      match pass r (producers r) [] [] with
      | PassFatal r' err => (r', Some [err])
      | PassDone r' waitingProducers errs =>
          if (length waitingProducers =? length (producers r))%nat then (r', Some errs)
          else build (set_producers waitingProducers r')
      end
  end.
Proof.
  funelim (build r); try rewrite <- Heqcall;
    repeat match goal with H : {| pr1 := _ |} = _ |- _ => clear H end.
  - by rewrite e.
  - by rewrite Hps, e.
  - by rewrite Hps, Hpass, e.
  - by rewrite Hps, Hpass, Hlen.
Qed.

(** What a finished pass collected: the producers it kept, in order, each
    with the error of its attempt, which wraps [ErrMissingDependency]. *)
Lemma pass_done_collects r ps waiting errs r' waiting' errs' :
  pass r ps waiting errs = PassDone r' waiting' errs' →
  ∃ kept kepterrs,
    waiting' = waiting ++ kept ∧ errs' = errs ++ kepterrs
    ∧ Forall2 (λ p e, errors_Is e ErrMissingDependency = true
                      ∧ ∃ ri, snd (resolveProvider ri p) = Some e) kept kepterrs
    ∧ (length kept ≤ length ps)%nat
    ∧ (length kept = length ps → kept = ps).
Proof.
  revert r waiting errs.
  induction ps as [| p ps IH]; intros r waiting errs; simpl.
  - intros [= _ <- <-]. exists [], []. rewrite !app_nil_r. by repeat split.
  - destruct (resolveProvider r p) as [r1 [err |]] eqn:Hres.
    + destruct (errors_Is err ErrMissingDependency) eqn:Hm; [| discriminate].
      intros (kept & kepterrs & -> & -> & Hall & Hlen & Hfull)%IH.
      exists (p :: kept), (err :: kepterrs). rewrite <- !app_assoc. simpl.
      repeat split; try done.
      * constructor; [| done]. split; [done |]. exists r. by rewrite Hres.
      * lia.
      * intros [= Hl]. by rewrite Hfull.
    + intros (kept & kepterrs & -> & -> & Hall & Hlen & Hfull)%IH.
      exists kept, kepterrs. repeat split; try done; lia.
Qed.

(** In a pass over producers that never ask again, the producers that are
    called and those that are kept for the next pass are different ones. *)
Lemma pass_calls ps r waiting errs :
  Forall never_asks_again ps →
  ∃ called kept evs,
    Forall2 call_of called evs
    ∧ called ++ kept ⊆+ ps
    ∧ match pass r ps waiting errs with
      | PassDone r' waiting' _ => waiting' = waiting ++ kept ∧ trace r' = trace r ++ evs
      | PassFatal r' _ => trace r' = trace r ++ evs
      end.
Proof.
  intros Hall. revert r waiting errs.
  induction Hall as [| p ps Hp _ IH]; intros r waiting errs; simpl.
  - exists [], [], []. by rewrite !app_nil_r.
  - destruct (findParams r (fn_in p)) as [err | ins] eqn:Hins.
    + rewrite (resolveProvider_not_called _ _ _ Hins).
      destruct (errors_Is err ErrMissingDependency).
      * destruct (IH r (waiting ++ [p]) (errs ++ [err]))
          as (called & kept & evs & Hcalls & Hsub & Hpass).
        exists called, (p :: kept), evs. split; [done |]. split.
        -- rewrite <- Permutation_middle. by apply submseteq_skip.
        -- destruct (pass r ps _ _); [done |].
           by rewrite <- app_assoc in Hpass.
      * exists [], [], []. split; [done |]. split; [apply submseteq_nil_l |].
        by rewrite app_nil_r.
    + pose proof (resolveProvider_called _ _ _ Hins) as Htrace.
      destruct (resolveProvider r p) as [r1 [err |]] eqn:Hres; simpl in Htrace.
      * rewrite (Hp _ _ _ _ Hins Hres).
        exists [p], [], [Called (fn_id p) ins]. split; [| split].
        -- constructor; [by eexists | done].
        -- simpl. apply submseteq_skip, submseteq_nil_l.
        -- done.
      * destruct (IH r1 waiting errs) as (called & kept & evs & Hcalls & Hsub & Hpass).
        exists (p :: called), kept, (Called (fn_id p) ins :: evs). split; [| split].
        -- constructor; [by eexists | done].
        -- simpl. by apply submseteq_skip.
        -- rewrite Htrace, <- app_assoc in Hpass. by destruct (pass r1 ps _ _).
Qed.

(** ** Registration *)

Lemma add_outs_accepts outs r :
  Forall (λ t, kind t = Interface) outs →
  add_outs r outs = (set_produceCounts (count_up (produceCounts r) outs) r, None).
Proof.
  intros Hall. revert r.
  induction Hall as [| t outs Ht _ IH]; intros r; simpl.
  - by destruct r.
  - rewrite decide_True by done. rewrite IH. by destruct r.
Qed.

Lemma add_ins_accepts ins r :
  Forall valid_in ins →
  add_ins r ins = (set_provideSlice (mark_slices (provideSlice r) ins) r, None).
Proof.
  intros Hall. revert r.
  induction Hall as [| t ins Ht _ IH]; intros r; simpl.
  - by destruct r.
  - destruct Ht as [[Hs He] | Hi].
    + rewrite decide_True by done. rewrite IH. simpl.
      rewrite decide_True by done. by destruct r.
    + rewrite decide_False by (intros [? _]; congruence).
      rewrite decide_True by done. rewrite IH.
      by rewrite (decide_False (P := kind t = Slice)) by congruence.
Qed.

(** The second loop of [add] stops at the first parameter it does not
    accept, with the marks made so far. *)
Lemma add_ins_rejects visited bad rest r :
  Forall valid_in visited → ¬ valid_in bad →
  add_ins r (visited ++ bad :: rest)
  = (set_provideSlice (mark_slices (provideSlice r) visited) r,
     Some ErrProducerInvalidInputs).
Proof.
  intros Hall Hbad. revert r.
  induction Hall as [| t ins Ht _ IH]; intros r; simpl.
  - rewrite decide_False by (intros ?; apply Hbad; by left).
    rewrite decide_False by (intros ?; apply Hbad; by right).
    by destruct r.
  - destruct Ht as [[Hs He] | Hi].
    + rewrite decide_True by done. rewrite IH. simpl.
      rewrite decide_True by done. by destruct r.
    + rewrite decide_False by (intros [? _]; congruence).
      rewrite decide_True by done. rewrite IH.
      by rewrite (decide_False (P := kind t = Slice)) by congruence.
Qed.

Lemma add_accepts r f :
  Forall (λ t, kind t = Interface) (supplied f) → Forall valid_in (fn_in f) →
  add r (PFunc f)
  = (Runner (closeTimeout r) (count_up (produceCounts r) (supplied f))
            (mark_slices (provideSlice r) (rev (fn_in f))) (producers r ++ [f])
            (values r) (closers r) (trace r), None).
Proof.
  intros Hout Hin. unfold add. fold (supplied f).
  rewrite add_outs_accepts by done.
  rewrite add_ins_accepts by (by apply Forall_rev).
  reflexivity.
Qed.

Lemma add_outs_accepted r outs r' :
  add_outs r outs = (r', None) → Forall (λ t, kind t = Interface) outs.
Proof.
  revert r. induction outs as [| t outs IH]; intros r; simpl; [done |].
  destruct (decide (kind t = Interface)); [| discriminate].
  intros H. constructor; [done | by eapply IH].
Qed.

Lemma add_ins_accepted r ins r' :
  add_ins r ins = (r', None) → Forall valid_in ins.
Proof.
  revert r. induction ins as [| t ins IH]; intros r; simpl; [done |].
  destruct (decide (kind t = Slice ∧ kind (Elem t) = Interface)).
  - intros H. constructor; [by left | by eapply IH].
  - destruct (decide (kind t = Interface)); [| discriminate].
    intros H. constructor; [by right | by eapply IH].
Qed.

(** What a successful [add] is. *)
Lemma add_accepted r p r' :
  add r p = (r', None) →
  ∃ f, p = PFunc f
       ∧ r' = Runner (closeTimeout r) (count_up (produceCounts r) (supplied f))
                     (mark_slices (provideSlice r) (rev (fn_in f))) (producers r ++ [f])
                     (values r) (closers r) (trace r).
Proof.
  intros Hadd. destruct p as [| | f]; try discriminate. exists f. split; [done |].
  assert (Forall (λ t, kind t = Interface) (supplied f) ∧ Forall valid_in (fn_in f))
    as [Hout Hin].
  { simpl in Hadd. fold (supplied f) in Hadd.
    destruct (add_outs r (supplied f)) as [r1 [err |]] eqn:Ho; [discriminate |].
    destruct (add_ins r1 (rev (fn_in f))) as [r2 [err |]] eqn:Hi; [discriminate |].
    split; [by eapply add_outs_accepted |].
    apply add_ins_accepted, Forall_rev in Hi. by rewrite rev_involutive in Hi. }
  rewrite add_accepts in Hadd by done. congruence.
Qed.

Lemma count_up_lookup outs m t :
  default 0 (count_up m outs !! t)
  = Nat.iter (count_occ rtype_eq_dec outs t) incr64 (default 0 (m !! t)).
Proof.
  revert m. induction outs as [| u outs IH]; intros m; [done |].
  unfold count_up in *. simpl foldl. rewrite IH. simpl count_occ.
  destruct (rtype_eq_dec u t) as [-> | Hne].
  - by rewrite lookup_insert_eq, Nat.iter_succ_r.
  - by rewrite lookup_insert_ne.
Qed.

Lemma mark_slices_lookup ins m e :
  default false (mark_slices m ins !! e)
  = default false (m !! e) || bool_decide (TSlice e ∈ ins).
Proof.
  revert m. induction ins as [| u ins IH]; intros m.
  - rewrite bool_decide_eq_false_2 by (by intros ?%elem_of_nil).
    by rewrite orb_false_r.
  - unfold mark_slices in *. simpl foldl. rewrite IH.
    destruct (decide (kind u = Slice)) as [Hs | Hs].
    + destruct u as [| u |]; try done. simpl.
      destruct (decide (u = e)) as [-> | Hne].
      * rewrite lookup_insert_eq. simpl.
        rewrite (bool_decide_eq_true_2 (TSlice e ∈ TSlice e :: ins));
          [by rewrite orb_true_r | by apply elem_of_cons; left].
      * rewrite lookup_insert_ne by done. f_equal.
        apply bool_decide_ext. rewrite elem_of_cons.
        split; [by right |]. intros [[= ?] | ?]; [congruence | done].
    + f_equal. apply bool_decide_ext. rewrite elem_of_cons.
      split; [by right |]. intros [<- | ?]; [by destruct Hs | done].
Qed.

Lemma count_up_app m l1 l2 : count_up m (l1 ++ l2) = count_up (count_up m l1) l2.
Proof. apply foldl_app. Qed.

Lemma mark_slices_app m l1 l2 : mark_slices m (l1 ++ l2) = mark_slices (mark_slices m l1) l2.
Proof. apply foldl_app. Qed.

Lemma count_occ_concat_supplied T fs :
  count_occ rtype_eq_dec (concat (supplied <$> fs)) T = sum_list_with (supplies T) fs.
Proof.
  induction fs as [| f fs IH]; [done |].
  rewrite fmap_cons. cbn [concat sum_list_with]. rewrite count_occ_app, IH. done.
Qed.

(** [add] counts the results of the signature, a last [error] apart. *)
Lemma supplied_results_but_error f : supplied f = results_but_error (fn_out f).
Proof.
  unfold supplied, outCount, results_but_error. cbv zeta.
  rewrite last_lookup, removelast_firstn_len.
  replace (Nat.pred (length (fn_out f))) with (length (fn_out f) - 1)%nat by lia.
  destruct (decide (fn_out f !! (length (fn_out f) - 1)%nat = Some errorType)) as [He | He].
  - rewrite decide_True; [done |]. split; [| done].
    apply lookup_lt_Some in He. lia.
  - rewrite decide_False by (by intros [_ ?]). apply firstn_all.
Qed.


Lemma iter_incr64 n c :
  0 ≤ c → c + Z.of_nat n < 2 ^ 63 → Nat.iter n incr64 c = c + Z.of_nat n.
Proof.
  intros Hc. induction n as [| n IH]; intros Hn; simpl; [lia |].
  rewrite IH by lia. unfold incr64, wrap64.
  rewrite Z.mod_small by lia. lia.
Qed.

Lemma count_occ_le_length (l : list rtype) t : (count_occ rtype_eq_dec l t ≤ length l)%nat.
Proof. induction l as [| u l IH]; simpl; [lia |]. destruct (rtype_eq_dec u t); lia. Qed.

Lemma supplies_le T p : (supplies T p ≤ length (fn_out p))%nat.
Proof.
  unfold supplies, supplied. etrans; [apply count_occ_le_length |].
  rewrite length_take. lia.
Qed.

(** The runner after two producers were registered: the count of a type is
    the number of results of that type, and nothing is stored. *)
Lemma two_registered P1 P2 r0 T :
  addAll new [PFunc P1; PFunc P2] = (r0, None) →
  Z.of_nat (length (fn_out P1) + length (fn_out P2)) < 2 ^ 63 →
  producers r0 = [P1; P2] ∧ values r0 = ∅
  ∧ count r0 T = Z.of_nat (supplies T P1 + supplies T P2).
Proof.
  intros Hadd Hsmall. cbn [addAll] in Hadd.
  destruct (add new (PFunc P1)) as [r1 [err |]] eqn:H1; [discriminate |].
  destruct (add r1 (PFunc P2)) as [r2 [err |]] eqn:H2; [discriminate |].
  injection Hadd as ->.
  apply add_accepted in H1 as (f1 & [= <-] & ->).
  apply add_accepted in H2 as (f2 & [= <-] & ->).
  repeat split. unfold count. simpl. rewrite !count_up_lookup, lookup_empty. simpl.
  pose proof (supplies_le T P1). pose proof (supplies_le T P2).
  fold (supplies T P1) (supplies T P2).
  rewrite (iter_incr64 (supplies T P1)) by lia.
  rewrite iter_incr64 by lia. lia.
Qed.

(** The two producers of a mutual dependency are registered and both are
    pending on each other. *)
Lemma mutual_registered (x y : string) ida idb ba bb :
  TInterface x ≠ errorType → TInterface y ≠ errorType →
  let A := Func ida [TInterface x] [TInterface y] ba in
  let B := Func idb [TInterface y] [TInterface x] bb in
  ∃ r, addAll new [PFunc A; PFunc B] = (r, None)
       ∧ producers r = [A; B] ∧ closers r = []
       ∧ pending r (TInterface x) ∧ pending r (TInterface y).
Proof.
  intros Hx Hy A B.
  assert (supplied A = [TInterface y]) as HsA.
  { unfold supplied, outCount. simpl.
    by rewrite decide_False by (intros [_ H]; apply Hy; congruence). }
  assert (supplied B = [TInterface x]) as HsB.
  { unfold supplied, outCount. simpl.
    by rewrite decide_False by (intros [_ H]; apply Hx; congruence). }
  cbn [addAll].
  rewrite add_accepts by (rewrite ?HsA; repeat constructor; by right).
  rewrite add_accepts by (rewrite ?HsB; repeat constructor; by right).
  eexists. split; [done |]. rewrite HsA, HsB. simpl.
  repeat split; unfold pending, count; simpl;
    rewrite lookup_empty; change (incr64 (default 0 None)) with 1;
    (destruct (decide (x = y)) as [-> | Hne];
     [ rewrite !lookup_insert_eq
     | rewrite ?lookup_insert_eq; rewrite ?lookup_insert_ne by congruence;
       rewrite ?lookup_insert_eq, ?lookup_empty ]);
    by vm_compute.
Qed.

(** ** What registration and resolution keep of the catalog *)

Lemma add_outs_within M outs r :
  catalog_within M r → Forall M outs → catalog_within M (fst (add_outs r outs)).
Proof.
  intros Hr Hall. revert r Hr.
  induction Hall as [| t outs Ht _ IH]; intros r Hr; simpl; [done |].
  destruct (decide (kind t = Interface)) as [Hk |]; [| done].
  apply IH. destruct Hr as [Hc Hv]. split; [| done].
  intros ty. unfold count. simpl.
  destruct (decide (t = ty)) as [<- |]; [done |].
  rewrite lookup_insert_ne by done. apply Hc.
Qed.

Lemma add_ins_within M ins r :
  catalog_within M r → catalog_within M (fst (add_ins r ins)).
Proof.
  revert r. induction ins as [| t ins IH]; intros r Hr; simpl; [done |].
  repeat case_decide; try done; by apply IH.
Qed.

Lemma add_within M r p :
  catalog_within M r →
  (∀ f, p = PFunc f → Forall M (supplied f)) →
  catalog_within M (fst (add r p)).
Proof.
  intros Hr Hp. destruct p as [| | f]; try done. simpl.
  pose proof (add_outs_within M (supplied f) r Hr (Hp f eq_refl)) as H1.
  fold (supplied f). destruct (add_outs r (supplied f)) as [r1 [err |]]; [done |].
  pose proof (add_ins_within M (rev (fn_in f)) r1 H1) as H2.
  by destruct (add_ins r1 (rev (fn_in f))) as [r2 [err |]].
Qed.

Lemma addAll_within M ps r :
  catalog_within M r →
  (∀ f, PFunc f ∈ ps → Forall M (supplied f)) →
  catalog_within M (fst (addAll r ps)).
Proof.
  revert r. induction ps as [| p ps IH]; intros r Hr Hps; simpl; [done |].
  pose proof (add_within M r p Hr) as H1.
  destruct (add r p) as [r1 [err |]]; simpl in *.
  - apply H1. intros f ->. apply Hps. by apply elem_of_cons; left.
  - apply IH.
    + apply H1. intros f ->. apply Hps. by apply elem_of_cons; left.
    + intros f Hf. apply Hps. by apply elem_of_cons; right.
Qed.

Lemma new_within M : catalog_within M new.
Proof. split; intros ty; [done | by intros [? ?]]. Qed.

Lemma saveIfCloser_within M r v :
  catalog_within M r → catalog_within M (saveIfCloser r v).
Proof. unfold saveIfCloser. by repeat case_match. Qed.

Lemma handleProvidedValue_within M r v :
  catalog_within M r → catalog_within M (fst (handleProvidedValue r v)).
Proof.
  intros [Hc Hv]. unfold handleProvidedValue.
  destruct (decide (count r (TypeOf v) ≤ 0)) as [| Hpos]; [done |].
  destruct (Hc (TypeOf v)) as [HM Hk]; [lia |].
  set (r1 := if decide _ then _ else r).
  assert (catalog_within M r1) as [Hc1 Hv1] by (subst r1; by case_decide).
  assert (count r1 (TypeOf v) = count r (TypeOf v)) as Hcount
    by (subst r1; by case_decide).
  rewrite <- Hcount. clearbody r1.
  set (r2 := set_produceCounts _ r1).
  assert (catalog_within M (saveIfCloser r2 v)) as [Hc2 Hv2].
  { apply saveIfCloser_within. split; [| done].
    intros ty. unfold count. simpl.
    destruct (decide (TypeOf v = ty)) as [<- |]; [done |].
    rewrite lookup_insert_ne by done. apply Hc1. }
  assert (∀ x ty, is_Some (<[TSlice (TypeOf v) := x]> (values (saveIfCloser r2 v))
                           !! TSlice ty) → M ty) as Hslice.
  { intros x ty. destruct (decide (TypeOf v = ty)) as [<- |]; [done |].
    assert (TSlice (TypeOf v) ≠ TSlice ty) as Hne by (intros [=]; done).
    rewrite lookup_insert_ne; [apply Hv2 | exact Hne]. }
  destruct (negb _); [| destruct (values _ !! SliceOf _)];
    unfold catalog_within; simpl; (split; [done |]); try apply Hslice.
  intros ty. rewrite lookup_insert_ne; [apply Hv2 |].
  intros Heq. by rewrite Heq in Hk.
Qed.

Lemma handleResults_within M r l :
  catalog_within M r → catalog_within M (fst (handleResults r l)).
Proof.
  revert r. induction l as [| [t v] l IH]; intros r Hr; simpl; [done |].
  destruct (IsNil v); [done |].
  pose proof (handleProvidedValue_within M r v Hr) as Hv.
  destruct (handleProvidedValue r v) as [r' [err |]]; simpl in *; [done |].
  by apply IH.
Qed.

Lemma resolveProvider_within M r p :
  catalog_within M r → catalog_within M (fst (resolveProvider r p)).
Proof.
  intros Hr. unfold resolveProvider.
  destruct (findParams r (fn_in p)); [done |].
  repeat case_match; simpl; try done; by apply handleResults_within.
Qed.

Lemma resolving_within M r0 r :
  catalog_within M r0 → resolving r0 r → catalog_within M r.
Proof.
  intros H0. induction 1 as [| r p _ IH | r w _ IH]; [done | | done].
  by apply resolveProvider_within.
Qed.

(** A pass attempts every producer in a state of the resolution. *)
Lemma pass_resolving r0 r ps waiting errs :
  resolving r0 r →
  match pass r ps waiting errs with
  | PassFatal r' _ | PassDone r' _ _ => resolving r0 r'
  end.
Proof.
  revert r waiting errs. induction ps as [| p ps IH]; intros r waiting errs Hr; simpl.
  - done.
  - pose proof (resolving_attempt r0 r p Hr) as Hp.
    destruct (resolveProvider r p) as [r1 [err |]]; simpl in Hp.
    + destruct (errors_Is err ErrMissingDependency); [by apply IH | done].
    + by apply IH.
Qed.

(** ** A type kept in list form *)

Section ListForm.
Variable T : rtype.
Variable K : Z.
Hypothesis T_interface : kind T = Interface.
Hypothesis K_two : 2 ≤ K.

Lemma handleProvidedValue_list_form r t d r' o :
  list_form T K r →
  handleProvidedValue r (VIface t (Some d)) = (r', o) →
  list_form T K r'
  ∧ (o = None → count r' T = count r T - (if decide (t = T) then 1 else 0)).
Proof.
  intros (Hkind & Hsingle & Hnn & Hsum & Hmark & Hshape) Hv.
  destruct o as [err |].
  { apply handleProvidedValue_fails in Hv as ->. by repeat split. }
  apply handleProvidedValue_fields in Hv. simpl in Hv.
  destruct Hv as (Hpos & Hpc & Hps & Hvals).
  assert (∀ ty, count r' ty = if decide (t = ty) then count r t - 1 else count r ty)
    as Hcount.
  { intros ty. unfold count at 1. rewrite Hpc.
    destruct (decide (t = ty)) as [<- |];
      [by rewrite lookup_insert_eq | by rewrite lookup_insert_ne]. }
  assert (kind t = Interface) as Ht by (apply Hkind; lia).
  assert (∀ ty, count r' ty ≠ 0 → kind ty = Interface) as Hkind'.
  { intros ty. rewrite Hcount. destruct (decide (t = ty)) as [<- |]; [done | apply Hkind]. }
  destruct (decide (t = T)) as [-> | Hne].
  - (* a delivery of [T]: it goes to the list *)
    assert (wantSlice r' T = true) as Hw.
    { unfold wantSlice. rewrite Hps. case_decide as Hd.
      - by rewrite lookup_insert_eq.
      - destruct Hmark as [Hm | Hnone]; [done |].
        destruct (wantSlice r T) eqn:Hws; [done |]. exfalso. apply Hd. split; [| done].
        unfold stored_at in Hsum. rewrite Hnone in Hsum. simpl in Hsum. lia. }
    rewrite Hw in Hvals.
    assert (∃ l, values r' = <[TSlice T := VSlice (TSlice T) (l ++ [d])]> (values r)
                 ∧ stored_at T r = l) as (l & Hvals' & Hl).
    { unfold stored_at. destruct (values r !! TSlice T) as [x |] eqn:Hx.
      - destruct (Hshape x eq_refl) as [l ->]. exists l. by rewrite Hvals.
      - exists []. by rewrite Hvals. }
    split; [| intros _; rewrite Hcount; by rewrite decide_True].
    repeat split; try done.
    + rewrite Hvals', lookup_insert_ne; [done |]. intros Heq. by rewrite <- Heq in T_interface.
    + rewrite Hcount, decide_True by done. lia.
    + unfold stored_at. rewrite Hvals', lookup_insert_eq, Hcount, decide_True by done.
      rewrite length_app. simpl. rewrite <- Hl in *. lia.
    + by left.
    + intros x. rewrite Hvals', lookup_insert_eq. intros [= <-]. by eexists.
  - (* a delivery of another type leaves [T] alone *)
    assert (values r' !! T = values r !! T ∧ values r' !! TSlice T = values r !! TSlice T)
      as [HvT HvS].
    { rewrite Hvals. destruct (wantSlice r' t).
      - rewrite !lookup_insert_ne; [done | congruence |].
        intros Heq. by rewrite <- Heq in T_interface.
      - rewrite !lookup_insert_ne; [done | | done].
        intros Heq. by rewrite Heq in Ht. }
    split; [| intros _; rewrite Hcount, !decide_False by done; lia].
    repeat split; try done.
    + by rewrite HvT.
    + by rewrite Hcount, decide_False.
    + unfold stored_at. rewrite HvS, Hcount, decide_False by done. apply Hsum.
    + destruct Hmark as [Hm | Hnone]; [left | right; by rewrite HvS].
      unfold wantSlice. rewrite Hps. case_decide; [| done].
      by rewrite lookup_insert_ne.
    + intros x. rewrite HvS. apply Hshape.
Qed.

Lemma handleResults_list_form l r r' o :
  Forall (λ e, ∃ x, snd e = VIface (fst e) x) l →
  list_form T K r →
  handleResults r l = (r', o) →
  list_form T K r'
  ∧ (o = None → count r' T = count r T - Z.of_nat (count_occ rtype_eq_dec (l.*1) T)).
Proof.
  intros Hall. revert r.
  induction Hall as [| [t v] l [x Hx] _ IH]; intros r Hr; simpl in *.
  - intros [= <- <-]. split; [done |]. intros _. lia.
  - subst v. destruct x as [d |]; simpl; [| by intros [= <- <-]].
    destruct (handleProvidedValue r (VIface t (Some d))) as [r1 [err |]] eqn:Hv.
    + intros [= <- <-]. split; [| done].
      by apply (handleProvidedValue_list_form _ _ _ _ _ Hr Hv).
    + destruct (handleProvidedValue_list_form _ _ _ _ _ Hr Hv) as [Hr1 Hc1].
      intros Hrest. destruct (IH _ Hr1 Hrest) as [Hr' Hc']. split; [done |].
      intros Ho. rewrite (Hc' Ho), (Hc1 eq_refl).
      unfold decide, decide_rel, fmap. destruct (rtype_eq_dec t T); lia.
Qed.

Lemma list_form_emit e r : list_form T K r → list_form T K (emit e r).
Proof. done. Qed.

Lemma list_form_set_producers l r : list_form T K r → list_form T K (set_producers l r).
Proof. done. Qed.

Lemma resolveProvider_list_form r p r' o :
  list_form T K r →
  resolveProvider r p = (r', o) →
  list_form T K r'
  ∧ (o = None → count r' T = count r T - Z.of_nat (supplies T p)).
Proof.
  intros Hr. unfold resolveProvider.
  destruct (findParams r (fn_in p)) as [err | ins]; [by intros [= <- <-] |].
  assert (length (Call p ins) = length (fn_out p)) as Hlen
    by (unfold Call; by rewrite length_imap).
  rewrite Hlen.
  assert (∀ r' o,
            handleResults (emit (Called (fn_id p) ins) r)
              (take (outCount p) (zip (fn_out p) (Call p ins))) = (r', o) →
            list_form T K r'
            ∧ (o = None → count r' T = count r T - Z.of_nat (supplies T p))) as Hhandle.
  { intros r1 o1 Hh. destruct (zip_Call_typed p ins (outCount p)) as [Htyped Hfst].
    destruct (handleResults_list_form _ _ _ _ Htyped (list_form_emit _ _ Hr) Hh)
      as [Hr1 Hc1].
    split; [done |]. intros Ho. rewrite (Hc1 Ho), Hfst. done. }
  unfold outCount in Hhandle.
  destruct (decide _) as [Herr | Hnoerr].
  - destruct (Call p ins !! _) as [[| t [d |] | t l] |];
      try apply Hhandle.
    intros [= <- <-]. split; [by apply list_form_emit | done].
  - apply Hhandle.
Qed.

Lemma supplies_all_cons p ps :
  supplies_all T (p :: ps) = Z.of_nat (supplies T p) + supplies_all T ps.
Proof. unfold supplies_all. simpl. lia. Qed.

Lemma supplies_all_snoc p ps :
  supplies_all T (ps ++ [p]) = supplies_all T ps + Z.of_nat (supplies T p).
Proof.
  unfold supplies_all. rewrite sum_list_with_app. simpl. lia.
Qed.

Lemma pass_list_form ps r waiting errs r' waiting' errs' :
  list_form T K r →
  pass r ps waiting errs = PassDone r' waiting' errs' →
  list_form T K r'
  ∧ count r' T + supplies_all T ps + supplies_all T waiting
    = count r T + supplies_all T waiting'.
Proof.
  revert r waiting errs. induction ps as [| p ps IH]; intros r waiting errs Hr; simpl.
  - intros [= <- <- _]. split; [done |]. unfold supplies_all at 1. simpl. lia.
  - destruct (resolveProvider r p) as [r1 [err |]] eqn:Hres.
    + destruct (errors_Is err ErrMissingDependency) eqn:Hm; [| discriminate].
      destruct (resolveProvider_list_form _ _ _ _ Hr Hres) as [Hr1 _].
      destruct (resolveProvider_deferred_same _ _ _ _ Hres Hm) as (Hpc & _).
      intros Hpass. destruct (IH _ _ _ Hr1 Hpass) as [Hr' Hc]. split; [done |].
      rewrite supplies_all_snoc in Hc. rewrite supplies_all_cons.
      unfold count in *. rewrite Hpc in Hc. lia.
    + destruct (resolveProvider_list_form _ _ _ _ Hr Hres) as [Hr1 Hc1].
      intros Hpass. destruct (IH _ _ _ Hr1 Hpass) as [Hr' Hc]. split; [done |].
      rewrite supplies_all_cons. rewrite (Hc1 eq_refl) in Hc. lia.
Qed.

(** When [build] succeeds, every counted delivery of [T] is in the list. *)
Lemma build_list_form r r' :
  list_form T K r →
  count r T = supplies_all T (producers r) →
  build r = (r', None) →
  values r' !! T = None
  ∧ ∃ l, values r' !! TSlice T = Some (VSlice (TSlice T) l) ∧ Z.of_nat (length l) = K.
Proof.
  remember (length (producers r)) as n eqn:Hn.
  revert r Hn. induction n as [n IH] using lt_wf_ind. intros r Hn Hr Hcount.
  rewrite build_step. destruct (producers r) as [| p ps] eqn:Hps.
  - intros [= <-]. simpl.
    destruct Hr as (_ & Hsingle & _ & Hsum & _ & Hshape). split; [done |].
    unfold supplies_all in Hcount. simpl in Hcount. rewrite Hcount in Hsum.
    unfold stored_at in Hsum.
    destruct (values r !! TSlice T) as [x |]; [| simpl in Hsum; lia].
    destruct (Hshape x eq_refl) as [l ->]. exists l. split; [done | lia].
  - destruct (pass r (p :: ps) [] []) as [r1 err | r1 waiting errs] eqn:Hpass;
      [discriminate |].
    destruct (length waiting =? length (p :: ps))%nat eqn:Hlen; [discriminate |].
    destruct (pass_list_form _ _ _ _ _ _ _ Hr Hpass) as [Hr1 Hc].
    apply Nat.eqb_neq in Hlen. apply pass_waiting_length in Hpass. simpl in *.
    apply (IH (length waiting)); try done.
    + lia.
    + simpl. unfold supplies_all at 2 in Hc. simpl in Hc.
      change (count (set_producers waiting r1) T) with (count r1 T). lia.
Qed.

End ListForm.

(** ** The loop of [close] *)

Lemma closeLoop_errs_app r cs errs :
  snd (closeLoop r cs errs) = errs ++ snd (closeLoop r cs []).
Proof.
  revert r errs. induction cs as [| v cs IH]; intros r errs; simpl.
  - by rewrite app_nil_r.
  - destruct v as [[id [| [err |] | [[err |] | |]] run] | e]; simpl;
      first [ done | by apply IH | idtac ];
      match goal with
      | |- snd (closeLoop ?r' cs (errs ++ [?x])) = _ =>
          rewrite (IH r' (errs ++ [x])), (IH r' [x]); by rewrite app_assoc
      end.
Qed.

Lemma close_errs_app r errs : snd (close r errs) = errs ++ snd (close r []).
Proof. apply closeLoop_errs_app. Qed.

(** Without an aborting closer the loop calls every closer it is given, in
    the order given. *)
Lemma closeLoop_all r cs errs :
  Forall (λ d, aborts d = false) cs →
  trace (fst (closeLoop r cs errs)) = trace r ++ close_calls cs.
Proof.
  intros Hall. revert r errs.
  induction Hall as [| v cs Hv _ IH]; intros r errs; simpl.
  - by rewrite app_nil_r.
  - destruct v as [[id [| ret | sel] run] | e]; simpl in *; try by rewrite IH.
    + destruct ret; rewrite IH; simpl; by rewrite <- app_assoc.
    + destruct sel as [[err |] | |]; try done; rewrite IH; simpl;
        by rewrite <- app_assoc.
Qed.

(** At the first aborting closer the loop calls it, appends its error and
    returns: what comes after it has no part in the result. *)
Lemma closeLoop_abort r pre id sel run post errs :
  Forall (λ d, aborts d = false) pre →
  aborts (Object (Obj id (DelayCloser sel) run)) = true →
  closeLoop r (pre ++ Object (Obj id (DelayCloser sel) run) :: post) errs
  = (emit (Closed id) (fst (closeLoop r pre errs)),
     snd (closeLoop r pre errs)
     ++ [match sel with
         | TimerFired => ErrDelayCloserTimeout
         | _ => ErrorsNew "BUG runner DelayCloser doneChan closed"
         end]).
Proof.
  intros Hall Hab. revert r errs.
  induction Hall as [| v cs Hv _ IH]; intros r errs; simpl.
  - by destruct sel as [[err |] | |].
  - destruct v as [[id' [| ret | sel'] run'] | e]; simpl in *; try by rewrite IH.
    + by destruct ret; rewrite IH.
    + by destruct sel' as [[err |] | |]; try done; rewrite IH.
Qed.

Lemma closeLoop_step r v cs errs :
  aborts v = false →
  ∃ r1 errs1, closeLoop r (v :: cs) errs = closeLoop r1 cs errs1
              ∧ trace r1 = trace r ++ close_calls [v].
Proof.
  intros Hv.
  destruct v as [[id [| [err |] | [[err |] | |]] run] | e]; try done; simpl;
    eexists _, _; (split; [reflexivity |]); simpl; by rewrite ?app_nil_r.
Qed.

(** The loop of [close] calls a first part of the closers it is given, in
    the order given, and all of them when none aborts. *)
Lemma closeLoop_visits_prefix cs r errs :
  ∃ visited rest,
    cs = visited ++ rest
    ∧ trace (fst (closeLoop r cs errs)) = trace r ++ close_calls visited
    ∧ (Forall (λ d, aborts d = false) cs → rest = []).
Proof.
  revert r errs. induction cs as [| v cs IH]; intros r errs.
  - exists [], []. simpl. by rewrite app_nil_r.
  - destruct (aborts v) eqn:Hv.
    + exists [v], cs. split; [done |]. split.
      * by destruct v as [[id [| ret | [[err |] | |]] run] | e].
      * intros [Hv' _]%Forall_cons. congruence.
    + destruct (closeLoop_step r v cs errs Hv) as (r1 & errs1 & -> & Htr).
      destruct (IH r1 errs1) as (visited & rest & -> & Hcalls & Hrest).
      exists (v :: visited), rest. split; [done |]. split.
      * rewrite Hcalls, Htr, <- app_assoc. f_equal.
        unfold close_calls. simpl. by destruct (_ : option event).
      * intros [_ Hall]%Forall_cons. by apply Hrest.
Qed.

(** ** Calls of [Close] are made by [close] only *)

Lemma closed_ids_app tr1 tr2 : closed_ids (tr1 ++ tr2) = closed_ids tr1 ++ closed_ids tr2.
Proof. unfold closed_ids. apply omap_app. Qed.

Lemma resolveProvider_closed_ids r p :
  closed_ids (trace (fst (resolveProvider r p))) = closed_ids (trace r).
Proof.
  destruct (findParams r (fn_in p)) as [err | ins] eqn:Hins.
  - by rewrite (resolveProvider_not_called _ _ _ Hins).
  - rewrite (resolveProvider_called _ _ _ Hins), closed_ids_app. simpl.
    by rewrite app_nil_r.
Qed.

Lemma pass_closed_ids ps r waiting errs :
  match pass r ps waiting errs with
  | PassFatal r' _ | PassDone r' _ _ => closed_ids (trace r') = closed_ids (trace r)
  end.
Proof.
  revert r waiting errs. induction ps as [| p ps IH]; intros r waiting errs; simpl.
  - done.
  - pose proof (resolveProvider_closed_ids r p) as Hp.
    destruct (resolveProvider r p) as [r1 [err |]]; simpl in Hp.
    + destruct (errors_Is err ErrMissingDependency); [| done].
      rewrite <- Hp. apply IH.
    + rewrite <- Hp. apply IH.
Qed.

Lemma build_closed_ids r : closed_ids (trace (fst (build r))) = closed_ids (trace r).
Proof.
  remember (length (producers r)) as n eqn:Hn.
  revert r Hn. induction n as [n IH] using lt_wf_ind. intros r Hn.
  rewrite build_step. destruct (producers r) as [| p ps] eqn:Hps; [done |].
  pose proof (pass_closed_ids (p :: ps) r [] []) as Hpass.
  destruct (pass r (p :: ps) [] []) as [r1 err | r1 waiting errs] eqn:Hp; [done |].
  destruct (length waiting =? length (p :: ps))%nat eqn:Hlen; [done |].
  apply Nat.eqb_neq in Hlen. apply pass_waiting_length in Hp. simpl in Hp, Hn.
  rewrite (IH (length waiting) ltac:(simpl in *; lia) (set_producers waiting r1) eq_refl).
  done.
Qed.

(** The calls of [Close] in a run are those of its [close], made on the
    closers that [build] recorded. *)
Lemma run_closes r :
  ∃ r' errs,
    run r = close r' errs
    ∧ closers r' = closers (fst (build r))
    ∧ closed_ids (trace r') = closed_ids (trace r).
Proof.
  unfold run. pose proof (build_closed_ids r) as Hb.
  destruct (build r) as [rb [errs |]]; simpl in *; [by eexists _, _ |].
  destruct (values rb !! mainType) as [mainValue |]; [| by eexists _, _].
  destruct (InterfaceOf mainValue) as [[[id c [[err |] |]] | e] |];
    eexists _, _; (split; [reflexivity |]); simpl;
    by rewrite ?closed_ids_app, ?Hb, ?app_nil_r.
Qed.

(** ** A producer with one result *)

Lemma handleProvidedValue_succeeds r v :
  0 < count r (TypeOf v) → ∃ r', handleProvidedValue r v = (r', None).
Proof.
  intros Hpos. unfold handleProvidedValue.
  rewrite decide_False by lia. repeat case_match; by eexists.
Qed.

(** A producer whose parameters are found and whose only result is the one
    delivery of [T] that is counted: the value is stored as a single value
    and recorded if it can be closed. *)
Lemma resolveProvider_delivers_single r p ins T d :
  findParams r (fn_in p) = inr ins →
  fn_out p = [T] → T ≠ errorType → fn_body p ins = [Some d] →
  count r T = 1 → wantSlice r T = false →
  ∃ r', resolveProvider r p = (r', None)
        ∧ produceCounts r' = <[T := 0]> (produceCounts r)
        ∧ provideSlice r' = provideSlice r
        ∧ values r' = <[T := VIface T (Some d)]> (values r)
        ∧ closers r' = closers r ++ recorded (VIface T (Some d))
        ∧ producers r' = producers r.
Proof.
  intros Hins Hout HT Hbody Hcount Hmark.
  set (r1 := emit (Called (fn_id p) ins) r).
  destruct (handleProvidedValue_succeeds r1 (VIface T (Some d))) as [r' Hv];
    [simpl; change (count r1 T) with (count r T); lia |].
  exists r'.
  assert (resolveProvider r p = (r', None)) as Hres.
  { unfold resolveProvider. rewrite Hins. unfold Call. rewrite Hout, Hbody. simpl.
    rewrite decide_False by (intros [_ [= ?]]; by apply HT).
    simpl. fold r1. by rewrite Hv. }
  split; [done |].
  pose proof (handleProvidedValue_closers _ _ _ Hv) as Hcl.
  pose proof (handleProvidedValue_producers r1 (VIface T (Some d))) as Hpr.
  rewrite Hv in Hpr.
  apply handleProvidedValue_fields in Hv as (_ & Hpc & Hps & Hvals). simpl in *.
  change (count r1 T) with (count r T) in *. change (wantSlice r1 T) with (wantSlice r T) in *.
  rewrite Hcount in *. rewrite decide_False in Hps by lia.
  assert (wantSlice r' T = false) as Hw by (unfold wantSlice; by rewrite Hps).
  rewrite Hw in Hvals. by repeat split.
Qed.

(** ** A producer and a consumer of its result *)

Section Chain.
Variables (x1 x2 : string) (o1 o2 : obj) (ida idb : nat).
Hypothesis distinct : x1 ≠ x2.
Hypothesis x1_not_error : TInterface x1 ≠ errorType.
Hypothesis x2_not_error : TInterface x2 ≠ errorType.

Local Abbreviation T1 := (TInterface x1).
Local Abbreviation T2 := (TInterface x2).
Local Abbreviation P1 := (Func ida [] [T1] (λ _, [Some (Object o1)])).
Local Abbreviation P2 := (Func idb [T1] [T2] (λ _, [Some (Object o2)])).

Lemma chain_registered (first second : func) :
  (first = P1 ∧ second = P2) ∨ (first = P2 ∧ second = P1) →
  ∃ r0, addAll new [PFunc first; PFunc second] = (r0, None)
        ∧ producers r0 = [first; second]
        ∧ values r0 = ∅ ∧ closers r0 = [] ∧ trace r0 = [] ∧ provideSlice r0 = ∅
        ∧ count r0 T1 = 1 ∧ count r0 T2 = 1.
Proof.
  assert (supplied P1 = [T1]) as Hs1.
  { unfold supplied, outCount. simpl.
    by rewrite decide_False by (intros [_ H]; apply x1_not_error; congruence). }
  assert (supplied P2 = [T2]) as Hs2.
  { unfold supplied, outCount. simpl.
    by rewrite decide_False by (intros [_ H]; apply x2_not_error; congruence). }
  assert (T1 ≠ T2) as Hne by congruence.
  assert (T2 ≠ T1) as Hne' by congruence.
  intros [[-> ->] | [-> ->]]; cbn [addAll];
    rewrite add_accepts by (rewrite ?Hs1, ?Hs2; repeat constructor; by right);
    rewrite add_accepts by (rewrite ?Hs1, ?Hs2; repeat constructor; by right);
    (eexists; split; [done |]); rewrite Hs1, Hs2; simpl;
    repeat split; unfold count; simpl;
    rewrite ?lookup_insert_eq; rewrite ?lookup_insert_ne by done;
    rewrite ?lookup_insert_eq, ?lookup_empty; simpl;
    rewrite ?lookup_insert_eq; rewrite ?lookup_insert_ne by done;
    rewrite ?lookup_insert_eq, ?lookup_empty; reflexivity.
Qed.

Hypothesis o1_capable : capable (Object o1) = true.
Hypothesis o2_capable : capable (Object o2) = true.

(** Whichever of the two is registered first, [build] succeeds and has
    recorded [o1] before [o2]. *)
Lemma chain_built (first second : func) :
  (first = P1 ∧ second = P2) ∨ (first = P2 ∧ second = P1) →
  ∃ r0 rb, addAll new [PFunc first; PFunc second] = (r0, None)
           ∧ trace r0 = []
           ∧ build r0 = (rb, None)
           ∧ closers rb = [Object o1; Object o2].
Proof.
  intros Horder.
  destruct (chain_registered first second Horder)
    as (r0 & Hadd & Hps & Hvals & Hcl & Htr & Hmarks & Hc1 & Hc2).
  exists r0.
  assert (T1 ≠ T2) as Hne by congruence.
  assert (T2 ≠ T1) as Hne' by congruence.
  (* the attempt of [P1] in the registered state *)
  destruct (resolveProvider_delivers_single r0 P1 [] T1 (Object o1))
    as (r1 & Hres1 & Hpc1 & Hm1 & Hv1 & Hcl1 & Hps1); try done.
  { unfold wantSlice. by rewrite Hmarks. }
  (* the attempt of [P2] after it *)
  assert (findParams r1 (fn_in P2) = inr [VIface T1 (Some (Object o1))]) as Hins2.
  { simpl. rewrite findParam_not_pending.
    - by rewrite Hv1, lookup_insert_eq.
    - unfold pending, count. simpl. rewrite Hpc1, lookup_insert_eq. simpl. lia. }
  assert (∀ l, ∃ r2, resolveProvider (set_producers l r1) P2 = (r2, None)
                     ∧ closers r2 = [Object o1; Object o2]
                     ∧ producers r2 = l) as Hres2.
  { intros l.
    destruct (resolveProvider_delivers_single (set_producers l r1) P2
                [VIface T1 (Some (Object o1))] T2 (Object o2))
      as (r2 & Hres2 & _ & _ & _ & Hcl2 & Hps2); try done.
    - unfold count. simpl. rewrite Hpc1, lookup_insert_ne by done. apply Hc2.
    - unfold wantSlice. simpl. by rewrite Hm1, Hmarks.
    - exists r2. split; [done |]. split; [| done].
      rewrite Hcl2. simpl. rewrite Hcl1, Hcl. unfold recorded. cbn [InterfaceOf].
      by rewrite o1_capable, o2_capable. }
  destruct Horder as [[-> ->] | [-> ->]].
  - (* [P1] first: both are called in the first pass *)
    destruct (Hres2 (producers r1)) as (r2 & Hres2' & Hcl2 & Hps2).
    replace (set_producers (producers r1) r1) with r1 in Hres2' by (by destruct r1).
    exists (set_provideSlice ∅ (set_produceCounts ∅ (set_producers [] r2))).
    repeat split; try done.
    rewrite build_step, Hps. rewrite <- Hps at 1. rewrite Hps. cbn [pass].
    rewrite Hres1, Hres2'. cbn [length Nat.eqb].
    by rewrite build_step.
  - (* [P2] first: it waits for [P1] and is called in the second pass *)
    assert (resolveProvider r0 P2 = (r0, Some (Errorf ErrMissingDependency T1))) as Hwait.
    { apply (resolveProvider_first_pending r0 P2 T1 []); [done |].
      unfold pending. simpl. lia. }
    destruct (Hres2 [P2]) as (r2 & Hres2' & Hcl2 & Hps2).
    exists (set_provideSlice ∅ (set_produceCounts ∅ (set_producers [] r2))).
    repeat split; try done.
    rewrite build_step, Hps. rewrite <- Hps at 1. rewrite Hps. cbn [pass].
    rewrite Hwait. cbn [errors_Is]. rewrite bool_decide_eq_false_2 by done.
    cbn [orb]. rewrite bool_decide_eq_true_2 by done.
    rewrite Hres1. cbn [orb app length Nat.eqb].
    rewrite build_step. cbn [producers set_producers pass].
    rewrite Hres2'. cbn [length Nat.eqb].
    by rewrite build_step.
Qed.

(** In both orders of registration [o2] is closed first and [o1] after it,
    unless the loop of [close] returns at [o2]. *)
Lemma chain_closed (first second : func) :
  (first = P1 ∧ second = P2) ∨ (first = P2 ∧ second = P1) →
  closed_ids (trace (fst (Run [PFunc first; PFunc second])))
  = obj_id o2 :: (if aborts (Object o2) then [] else [obj_id o1]).
Proof.
  intros Horder.
  destruct (chain_built first second Horder) as (r0 & rb & Hadd & Htr & Hbuild & Hcl).
  unfold Run. rewrite Hadd.
  destruct (run_closes r0) as (r' & errs & -> & Hcl' & Hids).
  rewrite Hbuild in Hcl'. simpl in Hcl'. rewrite Hcl in Hcl'.
  rewrite Htr in Hids. simpl in Hids.
  unfold close. rewrite Hcl'. simpl rev.
  destruct o1 as [id1 c1 run1], o2 as [id2 c2 run2].
  destruct c1 as [| [e1 |] | [[e1 |] | |]]; try discriminate o1_capable;
    destruct c2 as [| [e2 |] | [[e2 |] | |]]; try discriminate o2_capable;
    simpl; rewrite ?closed_ids_app, Hids; reflexivity.
Qed.

End Chain.

(** ** Two suppliers of a type and a consumer of a single value *)

Section TwoSuppliers.
Variables (x : string) (d1 d2 : dyn) (id1 id2 idc : nat).
Variables (outs : list rtype) (body : list Value → list (option dyn)).
Hypothesis x_not_error : TInterface x ≠ errorType.

Local Abbreviation Tx := (TInterface x).
Local Abbreviation Sup1 := (Func id1 [] [Tx] (λ _, [Some d1])).
Local Abbreviation Sup2 := (Func id2 [] [Tx] (λ _, [Some d2])).
Local Abbreviation Con := (Func idc [Tx] outs body).

Hypothesis outs_accepted : Forall (λ t, kind t = Interface) (supplied Con).
Hypothesis outs_other : Tx ∉ supplied Con.








End TwoSuppliers.

(** * The claims *)

(** ** C1: a pass in which every producer waits *)

(** C1: when every producer of a pass waits, [build] stops and returns the
    errors of that pass: one for each producer of the pass, in order, each
    the error of that producer's attempt and each wrapping
    [ErrMissingDependency].  Two producers that need each other's result
    give exactly two such errors. *)
Theorem C1_stall_returns_one_error_per_pending :
  (∀ r r' waiting errs,
     producers r ≠ [] →
     pass r (producers r) [] [] = PassDone r' waiting errs →
     length waiting = length (producers r) →
     build r = (r', Some errs)
     ∧ waiting = producers r
     ∧ length errs = length (producers r)
     ∧ Forall2 (λ p e, errors_Is e ErrMissingDependency = true
                       ∧ ∃ ri, snd (resolveProvider ri p) = Some e)
               (producers r) errs)
  ∧ (∀ x y ida idb ba bb,
       TInterface x ≠ errorType → TInterface y ≠ errorType →
       snd (Run [PFunc (Func ida [TInterface x] [TInterface y] ba);
                 PFunc (Func idb [TInterface y] [TInterface x] bb)])
       = [Errorf ErrMissingDependency (TInterface x);
          Errorf ErrMissingDependency (TInterface y)]).
Proof.
  split.
  - intros r r' waiting errs Hne Hpass Hlen.
    destruct (pass_done_collects _ _ _ _ _ _ _ Hpass)
      as (kept & kepterrs & -> & -> & Hall & _ & Hfull).
    simpl in *. rewrite (Hfull Hlen) in *.
    repeat split; try done.
    + rewrite build_step. destruct (producers r) eqn:Hps; [done |].
      rewrite Hpass. by rewrite Nat.eqb_refl.
    + symmetry. by eapply Forall2_length.
  - intros x y ida idb ba bb Hx Hy.
    destruct (mutual_registered x y ida idb ba bb Hx Hy)
      as (r & Hadd & Hps & Hcl & Hpx & Hpy).
    unfold Run. rewrite Hadd. unfold run.
    rewrite build_step, Hps. rewrite <- Hps at 1.
    assert (pass r (producers r) [] []
            = PassDone r (producers r)
                [Errorf ErrMissingDependency (TInterface x);
                 Errorf ErrMissingDependency (TInterface y)]) as ->.
    { rewrite Hps. cbn [pass].
      rewrite (resolveProvider_first_pending r _ (TInterface x) []) by done.
      cbn [errors_Is]. rewrite bool_decide_eq_false_2 by done. cbn [orb pass].
      rewrite bool_decide_eq_true_2 by done. cbn [pass].
      rewrite (resolveProvider_first_pending r _ (TInterface y) []) by done.
      cbn [errors_Is]. rewrite bool_decide_eq_false_2 by done. cbn [orb pass].
      by rewrite bool_decide_eq_true_2 by done. }
    rewrite Hps. simpl. unfold close. by rewrite Hcl.
Qed.

Lemma C1_stall_returns_one_error_per_pending_witness :
  (build Examples.oneWaiting
   = (Examples.oneWaiting, Some [Errorf ErrMissingDependency Tests.testInterface2])
   ∧ [Tests.new1Consume2] = producers Examples.oneWaiting
   ∧ length [Errorf ErrMissingDependency Tests.testInterface2]
     = length (producers Examples.oneWaiting)
   ∧ Forall2 (λ p e, errors_Is e ErrMissingDependency = true
                     ∧ ∃ ri, snd (resolveProvider ri p) = Some e)
             (producers Examples.oneWaiting)
             [Errorf ErrMissingDependency Tests.testInterface2])
  ∧ snd (Run [PFunc Tests.new1Consume2; PFunc Tests.new2Consume1])
    = [Errorf ErrMissingDependency Tests.testInterface2;
       Errorf ErrMissingDependency Tests.testInterface1].
Proof.
  split.
  - apply (proj1 C1_stall_returns_one_error_per_pending Examples.oneWaiting
             Examples.oneWaiting [Tests.new1Consume2]
             [Errorf ErrMissingDependency Tests.testInterface2]).
    + discriminate.
    + reflexivity.
    + reflexivity.
  - apply (proj2 C1_stall_returns_one_error_per_pending
             "testInterface2" "testInterface1" 12%nat 13%nat
             (λ _, [Some Tests.testStruct1]) (λ _, [Some Tests.testStruct2]));
      discriminate.
Defined.

(** ** C2: when an attempt is deferred *)

(** C2, as amended: the attempt of a producer ends with an error wrapping
    [ErrMissingDependency] without a call exactly when the first parameter
    for which [findParam] has no value is a pending one (every parameter
    before it has a zero count and is in the store, or is a slice); the pass
    then keeps the producer for the next pass; and a producer whose
    parameters all have a zero count and a value in the store is called with
    these values. *)
Theorem C2_deferred_iff_first_unbound_pending (r : runner) (p : func) :
  (deferred_uncalled r p
   ↔ ∃ pre t post, fn_in p = pre ++ t :: post ∧ Forall (bound r) pre ∧ pending r t)
  ∧ (∀ e ps waiting errs,
       resolveProvider r p = (r, Some e) →
       errors_Is e ErrMissingDependency = true →
       pass r (p :: ps) waiting errs = pass r ps (waiting ++ [p]) (errs ++ [e]))
  ∧ (Forall (λ t, ¬ pending r t ∧ is_Some (values r !! t)) (fn_in p) →
     ∃ ins, Forall2 (λ t v, values r !! t = Some v) (fn_in p) ins
            ∧ trace (fst (resolveProvider r p)) = trace r ++ [Called (fn_id p) ins]).
Proof.
  split; [| split].
  - rewrite <- findParams_missing_iff. unfold deferred_uncalled.
    split; intros (e & He & Hm); exists e; split; try done;
      by apply resolveProvider_unchanged.
  - intros e ps waiting errs Hres Hm. simpl. by rewrite Hres, Hm.
  - intros Hall. destruct (findParams_all_present _ _ Hall) as (ins & Hins & Hvals).
    exists ins. split; [done |]. by apply resolveProvider_called.
Qed.

Lemma C2_deferred_iff_first_unbound_pending_witness :
  ∃ ins,
    Forall2 (λ t v, values Examples.twoSuppliersDone !! t = Some v)
            (fn_in Tests.new1ConsumeSice2) ins
    ∧ trace (fst (resolveProvider Examples.twoSuppliersDone Tests.new1ConsumeSice2))
      = trace Examples.twoSuppliersDone ++ [Called (fn_id Tests.new1ConsumeSice2) ins].
Proof.
  apply (C2_deferred_iff_first_unbound_pending Examples.twoSuppliersDone Tests.new1ConsumeSice2).
  repeat constructor.
  - vm_compute. discriminate.
  - vm_compute. by eexists.
Defined.

Lemma twoSuppliersDone_attempt :
  snd (resolveProvider Examples.twoSuppliersDone Examples.new1Consume2And3)
  = Some (Errorf ErrNoProducerMakes Tests.testInterface2).
Proof. vm_compute. reflexivity. Qed.

(** The spec's reading of C2 fails: [new1Consume2And3] has the pending
    parameter [testInterface3], but its attempt ends with
    [ErrNoProducerMakes] for [testInterface2], which comes first. *)
Lemma C2_some_pending_not_deferred :
  ¬ deferred_iff_some_pending Examples.twoSuppliersDone Examples.new1Consume2And3.
Proof.
  intros [_ H].
  destruct H as (e & He & Hm).
  - exists Examples.testInterface3. split; [| vm_compute; reflexivity].
    apply list_elem_of_In. simpl. auto.
  - pose proof twoSuppliersDone_attempt as Hres.
    rewrite He in Hres. cbn [snd] in Hres. injection Hres as ->. discriminate Hm.
Qed.

(** ** C3: closers are closed in reverse order of production *)

(** C3: a produced value that can be closed is recorded behind the values
    produced before it; [close] calls the recorded closers from the last one
    backwards, stopping early only at an aborting one, and calls all of them
    when none aborts; so the calls of [Close] in a run are, in order, the
    closers that [build] recorded, taken from the last one backwards.  For a
    producer of a closer [o1] and a producer that takes it and makes a closer
    [o2] of another type, in either order of registration, [o2] is closed
    first and [o1] after it. *)
Theorem C3_close_in_reverse_production_order :
  (∀ r value r', handleProvidedValue r value = (r', None) →
                 closers r' = closers r ++ recorded value)
  ∧ (∀ r errs, ∃ visited rest,
        rev (closers r) = visited ++ rest
        ∧ trace (fst (close r errs)) = trace r ++ close_calls visited
        ∧ (Forall (λ d, aborts d = false) (closers r) → rest = []))
  ∧ (∀ r, ∃ visited rest,
        rev (closers (fst (build r))) = visited ++ rest
        ∧ closed_ids (trace (fst (run r)))
          = closed_ids (trace r) ++ closed_ids (close_calls visited)
        ∧ (Forall (λ d, aborts d = false) (closers (fst (build r))) → rest = []))
  ∧ (∀ x1 x2 o1 o2 ida idb,
       x1 ≠ x2 → TInterface x1 ≠ errorType → TInterface x2 ≠ errorType →
       capable (Object o1) = true → capable (Object o2) = true →
       let P1 := Func ida [] [TInterface x1] (λ _, [Some (Object o1)]) in
       let P2 := Func idb [TInterface x1] [TInterface x2] (λ _, [Some (Object o2)]) in
       let closedAfter := if aborts (Object o2) then [] else [obj_id o1] in
       closed_ids (trace (fst (Run [PFunc P1; PFunc P2]))) = obj_id o2 :: closedAfter
       ∧ closed_ids (trace (fst (Run [PFunc P2; PFunc P1]))) = obj_id o2 :: closedAfter).
Proof.
  assert (∀ r errs, ∃ visited rest,
            rev (closers r) = visited ++ rest
            ∧ trace (fst (close r errs)) = trace r ++ close_calls visited
            ∧ (Forall (λ d, aborts d = false) (closers r) → rest = [])) as Hclose.
  { intros r errs. unfold close.
    destruct (closeLoop_visits_prefix (rev (closers r)) r errs)
      as (visited & rest & Heq & Hcalls & Hrest).
    exists visited, rest. repeat split; try done.
    intros Hall. by apply Hrest, Forall_rev. }
  split; [apply handleProvidedValue_closers |]. split; [done |]. split.
  - intros r. destruct (run_closes r) as (r' & errs & -> & Hcl & Hids).
    destruct (Hclose r' errs) as (visited & rest & Heq & Hcalls & Hrest).
    exists visited, rest. rewrite <- Hcl. repeat split; try done.
    by rewrite Hcalls, closed_ids_app, Hids.
  - intros x1 x2 o1 o2 ida idb Hne H1 H2 Ho1 Ho2. cbv zeta.
    split.
    + apply (chain_closed x1 x2 o1 o2 ida idb Hne H1 H2 Ho1 Ho2). by left.
    + apply (chain_closed x1 x2 o1 o2 ida idb Hne H1 H2 Ho1 Ho2). by right.
Qed.

Lemma C3_close_in_reverse_production_order_witness :
  let o1 := Obj 3 (IoCloser (Some Tests.errCloser)) None in
  let o2 := Obj 4 (DelayCloser (Received None)) None in
  let P1 := Func 40 [] [TInterface "testInterface1"] (λ _, [Some (Object o1)]) in
  let P2 := Func 41 [TInterface "testInterface1"] [TInterface "testInterface2"]
                 (λ _, [Some (Object o2)]) in
  closed_ids (trace (fst (Run [PFunc P1; PFunc P2]))) = [4%nat; 3%nat]
  ∧ closed_ids (trace (fst (Run [PFunc P2; PFunc P1]))) = [4%nat; 3%nat].
Proof.
  apply (proj2 (proj2 (proj2 C3_close_in_reverse_production_order))
           "testInterface1" "testInterface2"
           (Obj 3 (IoCloser (Some Tests.errCloser)) None)
           (Obj 4 (DelayCloser (Received None)) None) 40%nat 41%nat);
    first [discriminate | reflexivity].
Defined.

(** ** C4: a timeout ends the teardown *)

(** C4: when the first aborting closer met by [close] is a [DelayCloser]
    whose [select] takes the timer, [close] calls the closers before it and
    this one, appends [ErrDelayCloserTimeout] once behind the errors
    collected so far and returns: the closers after it are not called and
    have no part in the result. *)
Theorem C4_timeout_aborts_teardown (r : runner) (errs : list error)
    (before : list dyn) (id : nat) (run : option (option error)) (after : list dyn) :
  rev (closers r) = before ++ Object (Obj id (DelayCloser TimerFired) run) :: after →
  Forall (λ d, aborts d = false) before →
  snd (close r errs) = errs ++ snd (closeLoop r before []) ++ [ErrDelayCloserTimeout]
  ∧ trace (fst (close r errs)) = trace r ++ close_calls before ++ [Closed id].
Proof.
  intros Hcs Hbefore. unfold close. rewrite Hcs.
  rewrite closeLoop_abort by done. simpl.
  rewrite closeLoop_errs_app, closeLoop_all by done.
  by rewrite <- !app_assoc.
Qed.

Lemma C4_timeout_aborts_teardown_witness :
  snd (close Examples.threeClosersBuilt [ErrNoMain])
  = [ErrNoMain] ++ snd (closeLoop Examples.threeClosersBuilt [Examples.closerAfter] [])
    ++ [ErrDelayCloserTimeout]
  ∧ trace (fst (close Examples.threeClosersBuilt [ErrNoMain]))
    = trace Examples.threeClosersBuilt ++ close_calls [Examples.closerAfter]
      ++ [Closed 9].
Proof.
  apply (C4_timeout_aborts_teardown Examples.threeClosersBuilt [ErrNoMain]
           [Examples.closerAfter] 9%nat None [Examples.closerBefore]).
  - vm_compute. reflexivity.
  - repeat constructor.
Defined.

(** The whole run of this example: the closer made last is closed, the
    [DelayCloser] is called and times out, the closer made first is never
    called. *)
Example never_done_run :
  snd (Run [PFunc Examples.newCloserBefore; PFunc Examples.newNeverDone;
            PFunc Examples.newCloserAfter])
  = [ErrNoMain; Foreign 110; ErrDelayCloserTimeout]
  ∧ closed_ids (trace (fst (Run [PFunc Examples.newCloserBefore;
                                 PFunc Examples.newNeverDone;
                                 PFunc Examples.newCloserAfter])))
    = [10%nat; 9%nat].
Proof. vm_compute. split; reflexivity. Qed.

(** ** C5: a slice of a type that no producer makes *)

(** C5: after the producers [ps] were registered, in every state of the
    resolution, a parameter that is a slice of a type that none of them
    supplies is bound to the empty slice of that type without an error, the
    lookup goes on with the parameters behind it, and no error of a lookup is
    about this parameter. *)
Theorem C5_unsupplied_slice_binds_empty (ps : list producer) (r0 r : runner)
    (t : rtype) (rest : list rtype) :
  addAll new ps = (r0, None) →
  resolving r0 r →
  (∀ f, PFunc f ∈ ps → t ∉ supplied f) →
  findParam r (TSlice t) = (VSlice (TSlice t) [], None)
  ∧ findParams r (TSlice t :: rest)
    = match findParams r rest with
      | inl err => inl err
      | inr ins => inr (VSlice (TSlice t) [] :: ins)
      end
  ∧ (∀ paramTypes err wrapped,
       findParams r paramTypes = inl err → err ≠ Errorf wrapped (TSlice t)).
Proof.
  intros Hadd Hr Ht.
  assert (catalog_within (λ ty, ∃ f, PFunc f ∈ ps ∧ ty ∈ supplied f) r) as [Hc Hv].
  { eapply resolving_within; [| done].
    replace r0 with (fst (addAll new ps)) by (by rewrite Hadd).
    apply addAll_within; [apply new_within |].
    intros f Hf. apply Forall_forall. intros ty Hty. by exists f. }
  assert (findParam r (TSlice t) = (VSlice (TSlice t) [], None)) as Hfind.
  { rewrite findParam_not_pending.
    - destruct (values r !! TSlice t) eqn:Hl; [| done].
      destruct (Hv t) as (f & Hf & Hin); [by eexists |]. by destruct (Ht f Hf).
    - unfold pending. simpl. intros Hpos.
      destruct (Hc t) as [(f & Hf & Hin) _]; [lia |]. by destruct (Ht f Hf). }
  split; [done |]. split; [simpl; by rewrite Hfind |].
  intros paramTypes. induction paramTypes as [| u us IH]; intros err wrapped; simpl.
  - discriminate.
  - destruct (findParam r u) as [v [e |]] eqn:Hu.
    + intros [= <-] ->.
      assert (u = TSlice t) as ->.
      { unfold findParam in Hu. repeat case_match; congruence. }
      rewrite Hfind in Hu. discriminate.
    + destruct (findParams r us) as [e | ins]; [| discriminate].
      intros [= <-]. by apply IH.
Qed.

Lemma C5_unsupplied_slice_binds_empty_witness :
  let r0 := fst (addAll new [PFunc Tests.new1ConsumeSice2; PFunc Tests.newMain]) in
  findParam r0 (TSlice Tests.testInterface2) = (VSlice (TSlice Tests.testInterface2) [], None)
  ∧ findParams r0 (TSlice Tests.testInterface2 :: [])
    = match findParams r0 [] with
      | inl err => inl err
      | inr ins => inr (VSlice (TSlice Tests.testInterface2) [] :: ins)
      end
  ∧ (∀ paramTypes err wrapped,
       findParams r0 paramTypes = inl err →
       err ≠ Errorf wrapped (TSlice Tests.testInterface2)).
Proof.
  intros r0.
  apply (C5_unsupplied_slice_binds_empty
           [PFunc Tests.new1ConsumeSice2; PFunc Tests.newMain] r0 r0).
  - reflexivity.
  - constructor.
  - intros f Hf Hin.
    apply elem_of_cons in Hf as [[= ->] | Hf];
      [| apply elem_of_cons in Hf as [[= ->] | Hf]; [| by apply elem_of_nil in Hf]];
      vm_compute in Hin; apply list_elem_of_In in Hin; simpl in Hin;
      destruct Hin as [[=] | []].
Defined.

(** The whole run of this example: the consumer is called with the empty
    slice and [Main] runs. *)
Example unsupplied_slice_run :
  snd (Run [PFunc Tests.new1ConsumeSice2; PFunc Tests.newMain]) = []
  ∧ trace (fst (Run [PFunc Tests.new1ConsumeSice2; PFunc Tests.newMain]))
    = [Called 17 [VSlice (TSlice Tests.testInterface2) []];
       Called 20 [VIface Tests.testInterface1 (Some Tests.testStruct1)];
       Ran 5].
Proof. vm_compute. split; reflexivity. Qed.

(** The lookup of the earlier revision differs from [findParam] only for a
    slice that is not pending and not in the store. *)
Lemma earlier_lookup_differs_on_missing_slices_only r t :
  Earlier.lookupParam r t = findParam r t
  ∨ (kind t = Slice ∧ ¬ pending r t ∧ values r !! t = None).
Proof.
  destruct (decide (pending r t)) as [Hp | Hp].
  - left. rewrite findParam_pending by done.
    unfold pending in Hp. unfold Earlier.lookupParam.
    destruct (decide (kind t = Slice)); by rewrite bool_decide_eq_true_2.
  - destruct (values r !! t) as [v |] eqn:Hv.
    + left. rewrite findParam_not_pending, Hv by done.
      unfold pending in Hp. unfold Earlier.lookupParam. rewrite Hv.
      destruct (decide (kind t = Slice)); by rewrite bool_decide_eq_false_2.
    + destruct (decide (kind t = Slice)) as [Hk | Hk]; [by right |].
      left. rewrite findParam_not_pending, Hv by done. rewrite decide_True by done.
      unfold pending in Hp. unfold Earlier.lookupParam. rewrite Hv.
      destruct (decide (kind t = Slice)); [done |]. by rewrite bool_decide_eq_false_2.
Qed.

(** In the earlier revision the same parameter is an error: a slice that is
    not in the store ends the attempt with [ErrNoProducerMakes]. *)
Lemma earlier_unsupplied_slice_fails r t :
  ¬ pending r (TSlice t) → values r !! TSlice t = None →
  Earlier.lookupParam r (TSlice t) = (nilValue, Some (Errorf ErrNoProducerMakes (TSlice t))).
Proof.
  unfold pending, Earlier.lookupParam. simpl. intros Hp ->.
  by rewrite bool_decide_eq_false_2.
Qed.

Example earlier_unsupplied_slice_attempt :
  snd (Earlier.resolveProvider
         (fst (addAll new [PFunc Tests.new1ConsumeSice2; PFunc Tests.newMain]))
         Tests.new1ConsumeSice2)
  = Some (Errorf ErrNoProducerMakes (TSlice Tests.testInterface2)).
Proof. vm_compute. reflexivity. Qed.

(** ** C6: a parameter that no producer makes *)




(** ** C7: the order of the errors of a run *)

(** C7: the errors [run] returns are the errors of [build], then the error
    of the entry point ([ErrNoMain], or what [Main.Run] returned if it
    returned an error; nothing when [build] failed, as [Main] is not run
    then), then the errors of [close], which are those [close] returns for
    the closers recorded by [build] when it starts from no errors.  [Run]
    returns these errors, unless a producer was rejected at registration:
    then nothing runs and that one error is returned. *)
Theorem C7_errors_ordered_by_phase :
  (∀ r, ∃ mainErrs r',
      snd (run r) = default [] (snd (build r)) ++ mainErrs ++ snd (close r' [])
      ∧ closers r' = closers (fst (build r))
      ∧ match snd (build r) with
        | Some _ => mainErrs = []
        | None =>
            match values (fst (build r)) !! mainType with
            | None => mainErrs = [ErrNoMain]
            | Some mainValue =>
                match InterfaceOf mainValue with
                | Some (Object (Obj _ _ (Some ret))) => mainErrs = option_list ret
                | _ => mainErrs =
                         [ErrorsNew "BUG Main interface found but can not type assert to Main"]
                end
            end
        end)
  ∧ (∀ ps, match snd (addAll new ps) with
           | Some err => snd (Run ps) = [err]
           | None => snd (Run ps) = snd (run (fst (addAll new ps)))
           end).
Proof.
  split.
  - intros r. unfold run. destruct (build r) as [rb [errs |]]; simpl.
    + exists [], rb. by rewrite close_errs_app.
    + destruct (values rb !! mainType) as [mainValue |].
      * destruct (InterfaceOf mainValue) as [[[id c [[err |] |]] | e] |];
          eexists _, _; (split; [apply close_errs_app |]); by simpl.
      * eexists _, _. split; [apply close_errs_app |]. by simpl.
  - intros ps. unfold Run. by destruct (addAll new ps) as [r [err |]].
Qed.

(** ** C8: how often a producer is called *)

(** C8 fails on the code: a producer that returns an error wrapping
    [ErrMissingDependency] was called, is kept for the next pass like a
    producer that was not called, and is called again there.  Registered
    with [new2], [newAsksAgain] is called in the first pass and in the
    second. *)
Theorem C8_producer_called_twice :
  trace (fst (Run [PFunc Examples.newAsksAgain; PFunc Tests.new2]))
  = [Called 37 []; Called 16 []; Called 37 []]
  ∧ snd (Run [PFunc Examples.newAsksAgain; PFunc Tests.new2]) = [ErrMissingDependency].
Proof. vm_compute. split; reflexivity. Qed.

(** For producers that never ask again C8 holds: the calls [build] makes
    are calls of different registered producers, so none is called twice. *)
Lemma no_producer_called_twice r :
  Forall never_asks_again (producers r) →
  ∃ called evs,
    trace (fst (build r)) = trace r ++ evs
    ∧ Forall2 call_of called evs
    ∧ called ⊆+ producers r.
Proof.
  remember (length (producers r)) as n eqn:Hn.
  revert r Hn. induction n as [n IH] using lt_wf_ind. intros r Hn Hall.
  rewrite build_step. destruct (producers r) as [| p ps] eqn:Hps.
  - exists [], []. simpl. by rewrite app_nil_r.
  - destruct (pass_calls (p :: ps) r [] [] Hall)
      as (called & kept & evs & Hcalls & Hsub & Hpass).
    destruct (pass r (p :: ps) [] []) as [r1 err | r1 waiting errs] eqn:Hp.
    + exists called, evs. split; [done |]. split; [done |].
      etrans; [| done]. by apply submseteq_inserts_r.
    + destruct Hpass as [-> Htrace]. simpl app.
      destruct (length kept =? length (p :: ps))%nat eqn:Hlen.
      * exists called, evs. split; [done |]. split; [done |].
        etrans; [| done]. by apply submseteq_inserts_r.
      * apply Nat.eqb_neq in Hlen. apply pass_waiting_length in Hp. simpl in Hp, Hn.
        destruct (IH (length kept) ltac:(simpl in *; lia) (set_producers kept r1) eq_refl)
          as (called2 & evs2 & Htrace2 & Hcalls2 & Hsub2).
        { simpl. apply Forall_forall. intros q Hq.
          apply (proj1 (Forall_forall _ _) Hall).
          eapply elem_of_submseteq; [done |].
          etrans; [| done]. by apply submseteq_inserts_l. }
        exists (called ++ called2), (evs ++ evs2). split; [| split].
        -- rewrite Htrace2. simpl. by rewrite Htrace, <- app_assoc.
        -- by apply Forall2_app.
        -- etrans; [| done]. by apply submseteq_app.
Qed.

(** ** C9: two producers of [Main] *)

(** C9, as amended: when two producers that both supply [Main] are
    registered and [build] succeeds, no single [Main] value is in the store,
    the list form of [Main] holds as many values as the two producers supply
    (at least two), and [run] returns [ErrNoMain] followed by the errors of
    [close].  [build] does succeed for two producers without parameters that
    each return one non-nil [Main] value; the list then holds the two values
    in the order of registration. *)
Theorem C9_two_main_producers_give_ErrNoMain :
  (∀ P1 P2 r0 r',
     addAll new [PFunc P1; PFunc P2] = (r0, None) →
     mainType ∈ supplied P1 → mainType ∈ supplied P2 →
     Z.of_nat (length (fn_out P1) + length (fn_out P2)) < 2 ^ 63 →
     build r0 = (r', None) →
     values r' !! mainType = None
     ∧ (∃ l, values r' !! TSlice mainType = Some (VSlice (TSlice mainType) l)
             ∧ length l = (supplies mainType P1 + supplies mainType P2)%nat
             ∧ (2 ≤ length l)%nat)
     ∧ snd (run r0) = ErrNoMain :: snd (close r' []))
  ∧ (∀ ida idb d1 d2,
       let P1 := Func ida [] [mainType] (λ _, [Some d1]) in
       let P2 := Func idb [] [mainType] (λ _, [Some d2]) in
       let built := build (fst (addAll new [PFunc P1; PFunc P2])) in
       snd built = None
       ∧ values (fst built) !! mainType = None
       ∧ values (fst built) !! TSlice mainType = Some (VSlice (TSlice mainType) [d1; d2])
       ∧ snd (Run [PFunc P1; PFunc P2]) = ErrNoMain :: snd (close (fst built) [])).
Proof.
  split.
  - intros P1 P2 r0 r' Hadd H1 H2 Hsmall Hbuild.
    destruct (two_registered P1 P2 r0 mainType Hadd Hsmall) as (Hps & Hvals & Hcount).
    assert (0 < supplies mainType P1 ∧ 0 < supplies mainType P2)%nat as [Hs1 Hs2].
    { unfold supplies. split; apply count_occ_In; by apply list_elem_of_In. }
    set (K := Z.of_nat (supplies mainType P1 + supplies mainType P2)).
    assert (list_form mainType K r0) as Hform.
    { repeat split.
      - assert (catalog_within (λ _, True) r0) as [Hc _]; [| intros ty; apply Hc].
        replace r0 with (fst (addAll new [PFunc P1; PFunc P2])) by (by rewrite Hadd).
        apply addAll_within; [apply new_within |].
        intros f _. by apply Forall_forall.
      - by rewrite Hvals.
      - lia.
      - unfold stored_at. rewrite Hvals, lookup_empty. simpl. lia.
      - right. by rewrite Hvals.
      - intros x. by rewrite Hvals, lookup_empty. }
    destruct (build_list_form mainType K eq_refl ltac:(lia) r0 r' Hform)
      as (Hsingle & l & Hl & Hlen); try done.
    { rewrite Hcount, Hps. unfold supplies_all. simpl. lia. }
    split; [done |]. split; [exists l; split; [done | lia] |].
    unfold run. rewrite Hbuild, Hsingle. apply close_errs_app.
  - intros ida idb d1 d2.
    destruct d1 as [[id1 [| [e1 |] | [[e1 |] | |]] run1] | e1];
      destruct d2 as [[id2 [| [e2 |] | [[e2 |] | |]] run2] | e2];
      vm_compute; repeat split; reflexivity.
Qed.

Lemma C9_two_main_producers_give_ErrNoMain_witness :
  let r0 := fst (addAll new [PFunc Tests.newMainError; PFunc Examples.newMainAlone]) in
  let r' := fst (build r0) in
  values r' !! mainType = None
  ∧ (∃ l, values r' !! TSlice mainType = Some (VSlice (TSlice mainType) l)
          ∧ length l = (supplies mainType Tests.newMainError
                        + supplies mainType Examples.newMainAlone)%nat
          ∧ (2 ≤ length l)%nat)
  ∧ snd (run r0) = ErrNoMain :: snd (close r' []).
Proof.
  intros r0 r'.
  apply (proj1 C9_two_main_producers_give_ErrNoMain
           Tests.newMainError Examples.newMainAlone r0 r').
  - subst r0. apply (pair_with_snd (addAll new _) None). vm_compute. reflexivity.
  - apply list_elem_of_In. vm_compute. by left.
  - apply list_elem_of_In. vm_compute. by left.
  - simpl. lia.
  - subst r'. apply (pair_with_snd (build r0) None). vm_compute. reflexivity.
Defined.

(** The spec's reading of C9 fails: [newMainConsume2] supplies [Main] and
    asks for [testInterface2], which nobody makes; [build] returns
    [ErrNoProducerMakes], and [ErrNoMain] is not reported. *)
Lemma C9_two_mains_unresolved :
  ¬ two_mains_resolve Examples.newMainConsume2 Examples.newMainAlone.
Proof.
  intros H. destruct H as [Hbuild _].
  - vm_compute. reflexivity.
  - apply list_elem_of_In. vm_compute. by left.
  - apply list_elem_of_In. vm_compute. by left.
  - repeat constructor; discriminate.
  - vm_compute in Hbuild. discriminate.
Qed.

(** ** C10: a rejected producer leaves its marks *)

(** C10: when the result types of a producer, a last [error] apart, are all
    accepted and a parameter is not, [add] returns [ErrProducerInvalidInputs]
    and keeps what it did before: every one of these result types has its
    count raised, once per occurrence, every slice parameter after the
    rejected one (the loop runs from the last parameter down) is marked in
    [provideSlice], and the producer is not in [producers]. *)
Theorem C10_add_rejected_input_keeps_catalog (r : runner) (f : func)
    (pre : list rtype) (bad : rtype) (post : list rtype) :
  Forall (λ t, kind t = Interface) (results_but_error (fn_out f)) →
  fn_in f = pre ++ bad :: post →
  ¬ valid_in bad →
  Forall valid_in post →
  ∃ r', add r (PFunc f) = (r', Some ErrProducerInvalidInputs)
        ∧ (∀ t, count r' t
                = Nat.iter (count_occ rtype_eq_dec (results_but_error (fn_out f)) t)
                           incr64 (count r t))
        ∧ (∀ e, wantSlice r' e = wantSlice r e || bool_decide (TSlice e ∈ post))
        ∧ producers r' = producers r
        ∧ values r' = values r.
Proof.
  rewrite <- supplied_results_but_error.
  intros Hout Hin Hbad Hpost.
  unfold add. fold (supplied f). rewrite add_outs_accepts by done.
  rewrite Hin, rev_app_distr. simpl rev. rewrite <- app_assoc. simpl app.
  rewrite add_ins_rejects by (by try apply Forall_rev).
  eexists. split; [done |]. simpl. repeat split.
  - intros t. unfold count. simpl. apply count_up_lookup.
  - intros e. unfold wantSlice. simpl. rewrite mark_slices_lookup. f_equal.
    apply bool_decide_ext. by rewrite !list_elem_of_In, <- in_rev.
Qed.

Lemma C10_add_rejected_input_keeps_catalog_witness :
  ∃ r', add new (PFunc Examples.new1OrErrorConsumeIntAndSlice2)
        = (r', Some ErrProducerInvalidInputs)
        ∧ count r' Tests.testInterface1 = 1
        ∧ count r' errorType = 0
        ∧ wantSlice r' Tests.testInterface2 = true
        ∧ wantSlice r' Tests.testInterface1 = false
        ∧ producers r' = []
        ∧ values r' = ∅.
Proof.
  destruct (C10_add_rejected_input_keeps_catalog new Examples.new1OrErrorConsumeIntAndSlice2
              [] (TOther "int") [TSlice Tests.testInterface2])
    as (r' & Hadd & Hcount & Hmark & Hps & Hvals).
  - repeat constructor.
  - reflexivity.
  - intros [[H _] | H]; discriminate.
  - repeat constructor.
  - exists r'. rewrite !Hcount, !Hmark, Hps, Hvals. by repeat split.
Defined.

(** * Further properties *)

(** ** Registration of a list of producers *)

Lemma add_outs_rejects pre bad post r :
  Forall (λ t, kind t = Interface) pre → kind bad ≠ Interface →
  add_outs r (pre ++ bad :: post)
  = (set_produceCounts (count_up (produceCounts r) pre) r, Some ErrProducerInvalidReturns).
Proof.
  intros Hpre Hbad. revert r.
  induction Hpre as [| t pre Ht _ IH]; intros r; simpl.
  - rewrite decide_False by done. by destruct r.
  - rewrite decide_True by done. rewrite IH. done.
Qed.

Lemma add_shape r f r' :
  add r (PFunc f) = (r', None) →
  Forall (λ t, kind t = Interface) (supplied f) ∧ Forall valid_in (fn_in f).
Proof.
  unfold add, supplied.
  destruct (add_outs r _) as [r1 [e |]] eqn:Houts; [discriminate |].
  destruct (add_ins r1 _) as [r2 [e |]] eqn:Hins; [discriminate |].
  intros _. split.
  - by eapply add_outs_accepted.
  - apply add_ins_accepted in Hins. apply Forall_rev in Hins.
    by rewrite rev_involutive in Hins.
Qed.

Lemma add_outs_trace outs r : trace (fst (add_outs r outs)) = trace r.
Proof.
  revert r. induction outs as [| t outs IH]; intros r; simpl; [done |].
  case_decide; [| done]. by rewrite IH.
Qed.

Lemma add_ins_trace ins r : trace (fst (add_ins r ins)) = trace r.
Proof.
  revert r. induction ins as [| t ins IH]; intros r; simpl; [done |].
  repeat case_decide; try done; by rewrite IH.
Qed.

Lemma add_trace r p : trace (fst (add r p)) = trace r.
Proof.
  destruct p as [| | f]; simpl; try done.
  pose proof (add_outs_trace (take (outCount f) (fn_out f)) r) as Ho.
  destruct (add_outs r _) as [r1 [e1 |]]; simpl in *; [done |].
  pose proof (add_ins_trace (rev (fn_in f)) r1) as Hi.
  destruct (add_ins r1 _) as [r2 [e2 |]]; simpl in *; congruence.
Qed.

Lemma add_error r p r' err :
  add r p = (r', Some err) →
  err ∈ [ErrProducerNil; ErrProducerNotFunc; ErrProducerInvalidReturns;
         ErrProducerInvalidInputs].
Proof.
  destruct p as [| | f]; simpl.
  - intros [= _ <-]. set_solver.
  - intros [= _ <-]. set_solver.
  - destruct (add_outs r _) as [r1 [e1 |]] eqn:Houts.
    + intros [= _ <-].
      assert (e1 = ErrProducerInvalidReturns) as ->; [| set_solver].
      clear -Houts. revert r Houts.
      induction (take (outCount f) (fn_out f)) as [| t l IH]; intros r; simpl.
      * discriminate.
      * case_decide; [apply IH |]. by intros [= _ <-].
    + destruct (add_ins r1 _) as [r2 [e2 |]] eqn:Hins; [| discriminate].
      intros [= _ <-].
      assert (e2 = ErrProducerInvalidInputs) as ->; [| set_solver].
      clear -Hins. revert r1 Hins.
      induction (rev (fn_in f)) as [| t l IH]; intros r; simpl.
      * discriminate.
      * repeat case_decide; try apply IH. by intros [= _ <-].
Qed.

(** The runner after a list of producers was accepted. *)
Lemma addAll_accepted ps r0 r :
  addAll r0 ps = (r, None) →
  ∃ fs, ps = PFunc <$> fs
        ∧ Forall (λ f, Forall (λ t, kind t = Interface) (supplied f)
                       ∧ Forall valid_in (fn_in f)) fs
        ∧ r = Runner (closeTimeout r0)
                     (count_up (produceCounts r0) (concat (supplied <$> fs)))
                     (mark_slices (provideSlice r0) (concat ((λ f, rev (fn_in f)) <$> fs)))
                     (producers r0 ++ fs) (values r0) (closers r0) (trace r0).
Proof.
  revert r0. induction ps as [| p ps IH]; intros r0; simpl.
  - intros [= <-]. exists []. simpl. rewrite app_nil_r. by destruct r0.
  - destruct (add r0 p) as [r1 [e |]] eqn:Hadd; [discriminate |].
    intros H. apply IH in H as (fs & -> & Hfs & ->).
    pose proof Hadd as Hform. apply add_accepted in Hform as (f & -> & ->).
    apply add_shape in Hadd.
    exists (f :: fs). split; [done |]. split; [by constructor |].
    simpl. rewrite count_up_app, mark_slices_app, <- app_assoc. done.
Qed.

Lemma addAll_rejected pre p post r0 r1 r2 err :
  addAll r0 pre = (r1, None) → add r1 p = (r2, Some err) →
  addAll r0 (pre ++ p :: post) = (r2, Some err).
Proof.
  revert r0. induction pre as [| q pre IH]; intros r0; simpl.
  - intros [= ->] ->. done.
  - destruct (add r0 q) as [r [e |]]; [discriminate |]. apply IH.
Qed.

Lemma addAll_trace ps r : trace (fst (addAll r ps)) = trace r.
Proof.
  revert r. induction ps as [| p ps IH]; intros r; simpl; [done |].
  pose proof (add_trace r p) as H.
  destruct (add r p) as [r1 [e |]]; simpl in *; [done |]. by rewrite IH.
Qed.

Lemma sum_supplies_le T fs :
  (sum_list_with (supplies T) fs ≤ sum_list_with (λ f, length (fn_out f)) fs)%nat.
Proof.
  induction fs as [| f fs IH]; simpl; [done |].
  pose proof (supplies_le T f). lia.
Qed.

Lemma elem_of_concat {A} (x : A) (ls : list (list A)) :
  x ∈ concat ls ↔ ∃ l, x ∈ l ∧ l ∈ ls.
Proof.
  rewrite list_elem_of_In, in_concat. split.
  - intros (l & Hl & Hx). exists l. by rewrite !list_elem_of_In.
  - intros (l & Hx & Hl). exists l. by rewrite <- !list_elem_of_In.
Qed.


(** X2: a result that is no interface makes [add] return
    [ErrProducerInvalidReturns] before any parameter is looked at: the
    counts raised for the results before it stay, the slice marks and the
    producers are as before. *)
Theorem X2_add_invalid_return_keeps_counts (r : runner) (f : func)
    (pre : list rtype) (bad : rtype) (post : list rtype) :
  supplied f = pre ++ bad :: post →
  Forall (λ t, kind t = Interface) pre →
  kind bad ≠ Interface →
  add r (PFunc f)
  = (set_produceCounts (count_up (produceCounts r) pre) r, Some ErrProducerInvalidReturns).
Proof.
  intros Hf Hpre Hbad. unfold add. fold (supplied f). rewrite Hf.
  by rewrite add_outs_rejects.
Qed.

Lemma X2_add_invalid_return_keeps_counts_witness :
  add new (PFunc (Func 1 [TOther "int"] [Tests.testInterface1; TOther "int"] (λ _, [])))
  = (set_produceCounts (count_up ∅ [Tests.testInterface1]) new, Some ErrProducerInvalidReturns).
Proof.
  apply (X2_add_invalid_return_keeps_counts new
           (Func 1 [TOther "int"] [Tests.testInterface1; TOther "int"] (λ _, []))
           [Tests.testInterface1] (TOther "int") []).
  - reflexivity.
  - repeat constructor.
  - discriminate.
Defined.

Lemma PFunc_fmap_inj (fs fs' : list func) : PFunc <$> fs = PFunc <$> fs' → fs = fs'.
Proof.
  revert fs'. induction fs as [| f fs IH]; intros [| f' fs']; simpl; try done.
  intros [= -> H]. f_equal. by apply IH.
Qed.

(** The runner when [Run] has registered the producers [fs]. *)
Lemma registered (fs : list func) (r : runner) :
  addAll new (PFunc <$> fs) = (r, None) →
  producers r = fs ∧ values r = ∅ ∧ closers r = [] ∧ trace r = []
  ∧ (∀ T, wantSlice r T = true ↔ ∃ f, f ∈ fs ∧ TSlice T ∈ fn_in f)
  ∧ (Z.of_nat (sum_list_with (λ f, length (fn_out f)) fs) < 2 ^ 63 →
     ∀ T, count r T = supplies_all T fs).
Proof.
  intros H. apply addAll_accepted in H as (fs' & Heq & Hfs & ->).
  apply PFunc_fmap_inj in Heq. subst fs'.
  simpl. repeat split; try done.
  - unfold wantSlice. simpl. rewrite mark_slices_lookup, lookup_empty. simpl.
    rewrite bool_decide_eq_true. intros Hin.
    apply elem_of_concat in Hin as (l & Hin & Hl).
    apply list_elem_of_fmap in Hl as (f & -> & Hf).
    exists f. split; [done |]. by rewrite list_elem_of_In, in_rev, <- list_elem_of_In.
  - intros (f & Hf & Hin). unfold wantSlice. simpl.
    rewrite mark_slices_lookup, lookup_empty. simpl.
    rewrite bool_decide_eq_true. apply elem_of_concat.
    exists (rev (fn_in f)). split.
    + by rewrite list_elem_of_In, <- in_rev, <- list_elem_of_In.
    + apply list_elem_of_fmap. by exists f.
  - intros Hbound T. unfold count, supplies_all. simpl.
    rewrite count_up_lookup, lookup_empty, count_occ_concat_supplied. simpl.
    rewrite iter_incr64; [lia | lia |].
    pose proof (sum_supplies_le T fs). lia.
Qed.

(** X3: the runner after [Run] registered its producers: they are kept in
    the order given, nothing was called or stored, a type is marked for the
    list form exactly when some producer takes a slice of it, and the count
    of a type is the number of results of that type over all producers,
    where an [error] that is the last result of a producer is not counted. *)
Theorem X3_registered_catalog (ps : list producer) (r : runner) :
  addAll new ps = (r, None) →
  ∃ fs, ps = PFunc <$> fs
        ∧ producers r = fs ∧ values r = ∅ ∧ closers r = [] ∧ trace r = []
        ∧ (∀ T, wantSlice r T = true ↔ ∃ f, f ∈ fs ∧ TSlice T ∈ fn_in f)
        ∧ (Z.of_nat (sum_list_with (λ f, length (fn_out f)) fs) < 2 ^ 63 →
           ∀ T, count r T
                = Z.of_nat (sum_list_with
                              (λ f, count_occ rtype_eq_dec (results_but_error (fn_out f)) T)
                              fs)).
Proof.
  intros H. destruct (addAll_accepted _ _ _ H) as (fs & -> & _ & _).
  exists fs. split; [done |].
  destruct (registered fs r H) as (Hps & Hvals & Hcl & Htr & Hmark & Hcount).
  repeat split; try done; try apply Hmark.
  intros Hbound T. rewrite (Hcount Hbound T). unfold supplies_all. f_equal.
  clear. induction fs as [| f fs IH]; [done |].
  cbn [sum_list_with]. rewrite IH. unfold supplies.
  by rewrite supplied_results_but_error.
Qed.

Lemma X3_registered_catalog_witness :
  addAll new [PFunc Examples.newAsksAgain; PFunc Tests.new1ConsumeSice2]
  = (Examples.twoAdded, None)
  ∧ producers Examples.twoAdded = [Examples.newAsksAgain; Tests.new1ConsumeSice2]
  ∧ values Examples.twoAdded = ∅
  ∧ closers Examples.twoAdded = []
  ∧ trace Examples.twoAdded = []
  ∧ wantSlice Examples.twoAdded Tests.testInterface2 = true
  ∧ wantSlice Examples.twoAdded Tests.testInterface1 = false
  ∧ count Examples.twoAdded Tests.testInterface1 = 2
  ∧ count Examples.twoAdded Tests.testInterface2 = 0
  ∧ count Examples.twoAdded errorType = 0.
Proof.
  assert (addAll new [PFunc Examples.newAsksAgain; PFunc Tests.new1ConsumeSice2]
          = (Examples.twoAdded, None)) as Hadd by (apply pair_with_snd; reflexivity).
  split; [exact Hadd |].
  destruct (X3_registered_catalog
              [PFunc Examples.newAsksAgain; PFunc Tests.new1ConsumeSice2]
              Examples.twoAdded)
    as (fs & Heq & Hps & Hvals & Hcl & Htr & Hmark & Hcount).
  - exact Hadd.
  - apply (PFunc_fmap_inj [Examples.newAsksAgain; Tests.new1ConsumeSice2]) in Heq.
    subst fs.
    assert (Z.of_nat (sum_list_with (λ f, length (fn_out f))
                        [Examples.newAsksAgain; Tests.new1ConsumeSice2]) < 2 ^ 63) as Hbound
      by (by vm_compute).
    assert (wantSlice Examples.twoAdded Tests.testInterface2 = true) as Hyes.
    { apply Hmark. exists Tests.new1ConsumeSice2.
      split; [apply elem_of_cons; right | simpl]; apply elem_of_cons; by left. }
    assert (wantSlice Examples.twoAdded Tests.testInterface1 = false) as Hno.
    { apply not_true_is_false. intros (f & Hf & Hin)%Hmark.
      apply list_elem_of_In in Hf. simpl in Hf.
      destruct Hf as [<- | [<- | []]]; apply list_elem_of_In in Hin; simpl in Hin;
        [done | by destruct Hin]. }
    rewrite !(Hcount Hbound), Hps, Hvals, Hcl, Htr, Hyes, Hno.
    repeat split; reflexivity.
Defined.

(** X4: [Run] stops at the first producer that [add] rejects: it returns
    that one registration error, has called nothing, and never looks at the
    producers after it. *)
Theorem X4_Run_rejected_producer (pre post : list producer) (p : producer)
    (r1 r2 : runner) (err : error) :
  addAll new pre = (r1, None) →
  add r1 p = (r2, Some err) →
  Run (pre ++ p :: post) = (r2, [err])
  ∧ trace r2 = []
  ∧ err ∈ [ErrProducerNil; ErrProducerNotFunc; ErrProducerInvalidReturns;
           ErrProducerInvalidInputs].
Proof.
  intros Hpre Hadd. unfold Run.
  rewrite (addAll_rejected _ _ _ _ _ _ _ Hpre Hadd).
  split; [done |]. split; [| by eapply add_error].
  pose proof (add_trace r1 p) as H1. pose proof (addAll_trace pre new) as H2.
  rewrite Hadd in H1. rewrite Hpre in H2. simpl in *. congruence.
Qed.

Lemma X4_Run_rejected_producer_witness :
  Run ([PFunc Tests.new2] ++ PNil :: [PFunc Tests.newMain])
  = (fst (addAll new [PFunc Tests.new2]), [ErrProducerNil])
  ∧ trace (fst (addAll new [PFunc Tests.new2])) = []
  ∧ ErrProducerNil ∈ [ErrProducerNil; ErrProducerNotFunc; ErrProducerInvalidReturns;
                      ErrProducerInvalidInputs].
Proof.
  apply (X4_Run_rejected_producer [PFunc Tests.new2] [PFunc Tests.newMain] PNil
           (fst (addAll new [PFunc Tests.new2])) (fst (addAll new [PFunc Tests.new2]))
           ErrProducerNil).
  - apply pair_with_snd. reflexivity.
  - reflexivity.
Defined.

(** ** The result of [build] *)

Lemma pass_producers ps r waiting errs :
  match pass r ps waiting errs with
  | PassFatal r' _ | PassDone r' _ _ => producers r' = producers r
  end.
Proof.
  revert r waiting errs. induction ps as [| p ps IH]; intros r waiting errs; simpl; [done |].
  pose proof (resolveProvider_producers r p) as Hp.
  destruct (resolveProvider r p) as [r1 [err |]]; simpl in Hp.
  - destruct (errors_Is err ErrMissingDependency); [| done].
    rewrite <- Hp. apply IH.
  - rewrite <- Hp. apply IH.
Qed.

Lemma pass_fatal_error ps r waiting errs r' err :
  pass r ps waiting errs = PassFatal r' err → errors_Is err ErrMissingDependency = false.
Proof.
  revert r waiting errs. induction ps as [| p ps IH]; intros r waiting errs; simpl; [done |].
  destruct (resolveProvider r p) as [r1 [e |]].
  - destruct (errors_Is e ErrMissingDependency) eqn:He; [apply IH |].
    by intros [= _ <-].
  - apply IH.
Qed.

(** The producers a pass keeps are among those it was given, in their
    order. *)
Lemma pass_keeps_sublist ps r waiting errs r' waiting' errs' :
  pass r ps waiting errs = PassDone r' waiting' errs' →
  ∃ kept, waiting' = waiting ++ kept ∧ kept `sublist_of` ps.
Proof.
  revert r waiting errs. induction ps as [| p ps IH]; intros r waiting errs; simpl.
  - intros [= _ <- _]. exists []. by rewrite app_nil_r.
  - destruct (resolveProvider r p) as [r1 [e |]].
    + destruct (errors_Is e ErrMissingDependency); [| done].
      intros (kept & -> & Hsub)%IH. exists (p :: kept). rewrite <- app_assoc.
      split; [done |]. by apply sublist_skip.
    + intros (kept & -> & Hsub)%IH. exists kept. split; [done |]. by apply sublist_cons.
Qed.

(** X5: what [build] returns.  On success no producer is left and the
    counts and slice marks are dropped.  A failure is never an empty list:
    it is one error that does not wrap [ErrMissingDependency], or one error
    wrapping [ErrMissingDependency] for each producer left, the error of an
    attempt of it.  The producers left are some of those registered, in the
    order of their registration. *)
Theorem X5_build_result_shape (r : runner) :
  match build r with
  | (r', None) => producers r' = [] ∧ produceCounts r' = ∅ ∧ provideSlice r' = ∅
  | (r', Some errs) =>
      errs ≠ [] ∧ producers r' ≠ [] ∧ producers r' `sublist_of` producers r
      ∧ ((∃ e, errs = [e] ∧ errors_Is e ErrMissingDependency = false)
         ∨ Forall2 (λ p e, errors_Is e ErrMissingDependency = true
                           ∧ ∃ ri, snd (resolveProvider ri p) = Some e)
                   (producers r') errs)
  end.
Proof.
  remember (length (producers r)) as n eqn:Hn.
  revert r Hn. induction n as [n IH] using lt_wf_ind. intros r Hn.
  rewrite build_step. destruct (producers r) as [| p ps] eqn:Hps; [done |].
  pose proof (pass_producers (p :: ps) r [] []) as Hprod.
  destruct (pass r (p :: ps) [] []) as [r1 err | r1 waiting errs] eqn:Hp.
  - rewrite Hprod, Hps. repeat split; try done.
    left. exists err. split; [done |]. by eapply pass_fatal_error.
  - destruct (pass_keeps_sublist _ _ _ _ _ _ _ Hp) as (kept & Hw & Hsub).
    destruct (pass_done_collects _ _ _ _ _ _ _ Hp)
      as (kept' & kepterrs & Hw' & He & Hall & Hlen & Hfull).
    simpl in Hw, Hw', He. subst waiting errs. subst kept'.
    destruct (length kept =? length (p :: ps))%nat eqn:Hlen'.
    + apply Nat.eqb_eq in Hlen'. rewrite (Hfull Hlen') in *.
      rewrite Hprod, Hps. repeat split; try done.
      * apply Forall2_length in Hall. intros ->. done.
      * by right.
    + apply Nat.eqb_neq in Hlen'.
      specialize (IH (length kept) ltac:(simpl in *; lia) (set_producers kept r1) eq_refl).
      destruct (build (set_producers kept r1)) as [r2 [errs2 |]]; [| done].
      destruct IH as (Hne & Hprods & Hsub2 & Hor). repeat split; try done.
      etrans; [apply Hsub2 | done].
Qed.

(** A producer whose last result is not of type [error] never asks again. *)
Lemma no_error_result_never_asks_again p :
  fn_out p !! (length (fn_out p) - 1)%nat ≠ Some errorType → never_asks_again p.
Proof.
  intros Hlast r ins r' err Hins. unfold resolveProvider. rewrite Hins.
  cbv zeta.
  assert (length (Call p ins) = length (fn_out p)) as ->.
  { unfold Call. by rewrite length_imap. }
  rewrite decide_False by (intros [_ H]; done).
  apply handleResults_error.
Qed.

(** In a finished pass over producers that never ask again, every producer
    is either called or kept. *)
Lemma pass_done_calls ps r waiting errs r' waiting' errs' :
  Forall never_asks_again ps →
  pass r ps waiting errs = PassDone r' waiting' errs' →
  ∃ called kept evs,
    Forall2 call_of called evs
    ∧ called ++ kept ≡ₚ ps
    ∧ waiting' = waiting ++ kept ∧ trace r' = trace r ++ evs.
Proof.
  intros Hall. revert r waiting errs.
  induction Hall as [| p ps Hp _ IH]; intros r waiting errs; simpl.
  - intros [= <- <- _]. exists [], [], []. by rewrite !app_nil_r.
  - destruct (findParams r (fn_in p)) as [err | ins] eqn:Hins.
    + rewrite (resolveProvider_not_called _ _ _ Hins).
      destruct (errors_Is err ErrMissingDependency); [| done].
      intros (called & kept & evs & Hcalls & Hperm & -> & Htrace)%IH.
      exists called, (p :: kept), evs. split; [done |]. split.
      * by rewrite <- Permutation_middle, Hperm.
      * by rewrite <- app_assoc.
    + pose proof (resolveProvider_called _ _ _ Hins) as Htrace.
      destruct (resolveProvider r p) as [r1 [err |]] eqn:Hres; simpl in Htrace.
      * by rewrite (Hp _ _ _ _ Hins Hres).
      * intros (called & kept & evs & Hcalls & Hperm & -> & Htrace')%IH.
        exists (p :: called), kept, (Called (fn_id p) ins :: evs). split; [| split].
        -- constructor; [by eexists | done].
        -- simpl. by rewrite Hperm.
        -- split; [done |]. by rewrite Htrace', Htrace, <- app_assoc.
Qed.

(** X6: when [build] succeeds for producers that never ask again, the calls
    it made are calls of the registered producers, each of them called
    exactly once. *)
Theorem X6_success_calls_each_once (r r' : runner) :
  Forall never_asks_again (producers r) →
  build r = (r', None) →
  ∃ called evs,
    trace r' = trace r ++ evs
    ∧ Forall2 call_of called evs
    ∧ called ≡ₚ producers r.
Proof.
  remember (length (producers r)) as n eqn:Hn.
  revert r Hn. induction n as [n IH] using lt_wf_ind. intros r Hn Hall.
  rewrite build_step. destruct (producers r) as [| p ps] eqn:Hps.
  - intros [= <-]. exists [], []. simpl. by rewrite app_nil_r.
  - destruct (pass r (p :: ps) [] []) as [r1 err | r1 waiting errs] eqn:Hp; [done |].
    destruct (pass_done_calls _ _ _ _ _ _ _ Hall Hp)
      as (called & kept & evs & Hcalls & Hperm & Hw & Htrace).
    simpl in Hw. subst waiting.
    destruct (length kept =? length (p :: ps))%nat eqn:Hlen; [done |].
    apply Nat.eqb_neq in Hlen. apply pass_waiting_length in Hp. simpl in Hp, Hn.
    intros Hb.
    destruct (IH (length kept) ltac:(simpl in *; lia) (set_producers kept r1) eq_refl)
      as (called2 & evs2 & Htrace2 & Hcalls2 & Hperm2); [| done |].
    { simpl. rewrite <- Hperm in Hall. by apply Forall_app in Hall as [_ ?]. }
    exists (called ++ called2), (evs ++ evs2). split; [| split].
    + rewrite Htrace2. simpl. by rewrite Htrace, <- app_assoc.
    + by apply Forall2_app.
    + simpl in Hperm2. by rewrite Hperm2.
Qed.

Lemma X6_success_calls_each_once_witness :
  ∃ called evs,
    trace (fst (build (fst (addAll new [PFunc Tests.new1Consume2; PFunc Tests.new2]))))
    = trace (fst (addAll new [PFunc Tests.new1Consume2; PFunc Tests.new2])) ++ evs
    ∧ Forall2 call_of called evs
    ∧ called ≡ₚ producers (fst (addAll new [PFunc Tests.new1Consume2; PFunc Tests.new2])).
Proof.
  apply (X6_success_calls_each_once
           (fst (addAll new [PFunc Tests.new1Consume2; PFunc Tests.new2]))
           (fst (build (fst (addAll new [PFunc Tests.new1Consume2; PFunc Tests.new2]))))).
  - repeat constructor; apply no_error_result_never_asks_again; discriminate.
  - apply (pair_with_snd
             (build (fst (addAll new [PFunc Tests.new1Consume2; PFunc Tests.new2]))) None).
    vm_compute. reflexivity.
Defined.

(** ** What an attempt and [build] add to the trace and to the closers *)

Lemma resolveProvider_trace r p :
  ∃ evs, trace (fst (resolveProvider r p)) = trace r ++ evs
         ∧ Forall (λ ev, ∃ id args, ev = Called id args) evs.
Proof.
  destruct (findParams r (fn_in p)) as [err | ins] eqn:Hins.
  - rewrite (resolveProvider_not_called _ _ _ Hins). exists []. by rewrite app_nil_r.
  - rewrite (resolveProvider_called _ _ _ Hins). eexists. split; [done |].
    constructor; [by eexists _, _ | done].
Qed.

Lemma pass_trace ps r waiting errs :
  ∃ evs, Forall (λ ev, ∃ id args, ev = Called id args) evs
         ∧ match pass r ps waiting errs with
           | PassFatal r' _ | PassDone r' _ _ => trace r' = trace r ++ evs
           end.
Proof.
  revert r waiting errs. induction ps as [| p ps IH]; intros r waiting errs; simpl.
  - exists []. by rewrite app_nil_r.
  - destruct (resolveProvider_trace r p) as (evs1 & Ht1 & Hall1).
    destruct (resolveProvider r p) as [r1 [err |]]; simpl in Ht1.
    + destruct (errors_Is err ErrMissingDependency); [| by exists evs1].
      destruct (IH r1 (waiting ++ [p]) (errs ++ [err])) as (evs2 & Hall2 & Ht2).
      exists (evs1 ++ evs2). split; [by apply Forall_app |].
      rewrite Ht1, <- app_assoc in Ht2. by destruct (pass r1 ps _ _).
    + destruct (IH r1 waiting errs) as (evs2 & Hall2 & Ht2).
      exists (evs1 ++ evs2). split; [by apply Forall_app |].
      rewrite Ht1, <- app_assoc in Ht2. by destruct (pass r1 ps _ _).
Qed.

Lemma build_trace r :
  ∃ evs, trace (fst (build r)) = trace r ++ evs
         ∧ Forall (λ ev, ∃ id args, ev = Called id args) evs.
Proof.
  remember (length (producers r)) as n eqn:Hn.
  revert r Hn. induction n as [n IH] using lt_wf_ind. intros r Hn.
  rewrite build_step. destruct (producers r) as [| p ps] eqn:Hps.
  - exists []. simpl. by rewrite app_nil_r.
  - destruct (pass_trace (p :: ps) r [] []) as (evs & Hall & Ht).
    destruct (pass r (p :: ps) [] []) as [r1 err | r1 waiting errs] eqn:Hp; [by exists evs |].
    destruct (length waiting =? length (p :: ps))%nat eqn:Hlen; [by exists evs |].
    apply Nat.eqb_neq in Hlen. apply pass_waiting_length in Hp. simpl in Hp, Hn.
    destruct (IH (length waiting) ltac:(simpl in *; lia) (set_producers waiting r1) eq_refl)
      as (evs2 & Ht2 & Hall2).
    exists (evs ++ evs2). split; [| by apply Forall_app].
    rewrite Ht2. simpl. by rewrite Ht, <- app_assoc.
Qed.

(** The trace of [run]: what [build] left, then [Main.Run], then [close]. *)
Lemma run_after_build (r : runner) :
  ∃ ran visited rest,
    trace (fst (run r)) = trace (fst (build r)) ++ ran ++ close_calls visited
    ∧ (ran = [] ∨ (snd (build r) = None ∧ ∃ id, ran = [Ran id]))
    ∧ rev (closers (fst (build r))) = visited ++ rest.
Proof.
  assert (∀ r' errs, ∃ visited rest,
            rev (closers r') = visited ++ rest
            ∧ trace (fst (close r' errs)) = trace r' ++ close_calls visited) as Hclose.
  { intros r' errs. unfold close.
    destruct (closeLoop_visits_prefix (rev (closers r')) r' errs)
      as (visited & rest & Heq & Htr & _).
    by exists visited, rest. }
  assert (∀ rb errs, ∃ ran visited rest,
            trace (fst (close rb errs)) = trace rb ++ ran ++ close_calls visited
            ∧ ran = [] ∧ rev (closers rb) = visited ++ rest) as Hnone.
  { intros rb errs. destruct (Hclose rb errs) as (visited & rest & Heq & Htr).
    by exists [], visited, rest. }
  unfold run. destruct (build r) as [rb [errs |]] eqn:Hb; simpl.
  - destruct (Hnone rb errs) as (ran & visited & rest & Htr & -> & Heq).
    exists [], visited, rest. split; [done |]. split; [by left | done].
  - destruct (values rb !! mainType) as [mainValue |].
    + destruct (InterfaceOf mainValue) as [[[id c [ret |]] | e] |].
      * set (rm := emit (Ran id) (set_values ∅ rb)).
        assert (∃ errs, (match ret with
                         | Some err => close rm [err]
                         | None => close rm []
                         end) = close rm errs) as [errs ->].
        { destruct ret; by eexists. }
        destruct (Hclose rm errs) as (visited & rest & Heq & Htr).
        exists [Ran id], visited, rest. split; [| split; [| done]].
        -- rewrite Htr. simpl. by rewrite <- app_assoc.
        -- right. split; [done |]. by exists id.
      * destruct (Hnone rb [ErrorsNew
          "BUG Main interface found but can not type assert to Main"])
          as (ran & visited & rest & Htr & -> & Heq).
        exists [], visited, rest. split; [done |]. split; [by left | done].
      * destruct (Hnone rb [ErrorsNew
          "BUG Main interface found but can not type assert to Main"])
          as (ran & visited & rest & Htr & -> & Heq).
        exists [], visited, rest. split; [done |]. split; [by left | done].
      * destruct (Hnone rb [ErrorsNew
          "BUG Main interface found but can not type assert to Main"])
          as (ran & visited & rest & Htr & -> & Heq).
        exists [], visited, rest. split; [done |]. split; [by left | done].
    + destruct (Hnone rb [ErrNoMain]) as (ran & visited & rest & Htr & -> & Heq).
      exists [], visited, rest. split; [done |]. split; [by left | done].
Qed.

(** X7: the calls of a run come in three phases: first the calls of
    producers, then at most one call of [Main.Run], made only when [build]
    succeeded, then the calls of [Close], on the closers that [build]
    recorded, from the last one backwards. *)
Theorem X7_run_trace_phases (r : runner) :
  ∃ calls ran visited rest,
    trace (fst (run r)) = trace r ++ calls ++ ran ++ close_calls visited
    ∧ Forall (λ ev, ∃ id args, ev = Called id args) calls
    ∧ trace (fst (build r)) = trace r ++ calls
    ∧ (ran = [] ∨ (snd (build r) = None ∧ ∃ id, ran = [Ran id]))
    ∧ rev (closers (fst (build r))) = visited ++ rest.
Proof.
  destruct (build_trace r) as (calls & Hcalls & Hall).
  destruct (run_after_build r) as (ran & visited & rest & Hrun & Hran & Heq).
  exists calls, ran, visited, rest.
  split; [| done]. by rewrite Hrun, Hcalls, <- app_assoc.
Qed.

(** X8: a producer that returns a non-nil [error] as its last result ends
    its attempt with that error right after the call: none of its other
    results is stored, counted or recorded for closing. *)
Theorem X8_producer_error_discards_results (r : runner) (p : func)
    (ins : list Value) (d : dyn) :
  findParams r (fn_in p) = inr ins →
  fn_out p !! (length (fn_out p) - 1)%nat = Some errorType →
  fn_body p ins !! (length (fn_out p) - 1)%nat = Some (Some d) →
  resolveProvider r p = (emit (Called (fn_id p) ins) r, Some (as_error d)).
Proof.
  intros Hins Hlast Hbody. unfold resolveProvider. rewrite Hins. cbv zeta.
  assert (length (Call p ins) = length (fn_out p)) as ->.
  { unfold Call. by rewrite length_imap. }
  assert (0 < length (fn_out p))%nat as Hpos.
  { apply lookup_lt_Some in Hlast. lia. }
  rewrite decide_True by done.
  unfold Call. rewrite list_lookup_imap, Hlast. simpl. by rewrite Hbody.
Qed.

Lemma X8_producer_error_discards_results_witness :
  resolveProvider new
    (Func 1 [] [Tests.testInterface1; errorType]
       (λ _, [Some Tests.testStruct2Closer; Some (ErrorValue Tests.errMainError)]))
  = (emit (Called 1 []) new, Some (as_error (ErrorValue Tests.errMainError))).
Proof.
  apply (X8_producer_error_discards_results new
           (Func 1 [] [Tests.testInterface1; errorType]
              (λ _, [Some Tests.testStruct2Closer; Some (ErrorValue Tests.errMainError)]))
           [] (ErrorValue Tests.errMainError)); reflexivity.
Defined.

Lemma recorded_capable v : Forall (λ d, capable d = true) (recorded v).
Proof.
  unfold recorded. destruct (InterfaceOf v) as [d |]; [| done].
  destruct (capable d) eqn:Hd; [| done]. by constructor.
Qed.

Lemma handleResults_closers l r :
  ∃ added, closers (fst (handleResults r l)) = closers r ++ added
           ∧ Forall (λ d, capable d = true) added.
Proof.
  revert r. induction l as [| [t v] l IH]; intros r; simpl.
  - exists []. by rewrite app_nil_r.
  - destruct (IsNil v); [exists []; by rewrite app_nil_r |].
    destruct (handleProvidedValue r v) as [r1 [err |]] eqn:Hv.
    + apply handleProvidedValue_fails in Hv as ->. exists []. by rewrite app_nil_r.
    + apply handleProvidedValue_closers in Hv.
      destruct (IH r1) as (added & Hc & Hall). exists (recorded v ++ added).
      rewrite Hc, Hv, <- app_assoc. split; [done |].
      apply Forall_app. split; [apply recorded_capable | done].
Qed.

Lemma resolveProvider_closers r p :
  ∃ added, closers (fst (resolveProvider r p)) = closers r ++ added
           ∧ Forall (λ d, capable d = true) added.
Proof.
  unfold resolveProvider. destruct (findParams r (fn_in p)) as [err | ins].
  - exists []. by rewrite app_nil_r.
  - cbv zeta.
    set (r1 := emit _ r). change (closers r) with (closers r1).
    case_decide.
    + destruct (Call p ins !! _) as [[| t [d |] | t l] |];
        first [apply handleResults_closers | (exists []; by rewrite app_nil_r)].
    + apply handleResults_closers.
Qed.

Lemma pass_closers ps r waiting errs :
  ∃ added, Forall (λ d, capable d = true) added
           ∧ match pass r ps waiting errs with
             | PassFatal r' _ | PassDone r' _ _ => closers r' = closers r ++ added
             end.
Proof.
  revert r waiting errs. induction ps as [| p ps IH]; intros r waiting errs; simpl.
  - exists []. by rewrite app_nil_r.
  - destruct (resolveProvider_closers r p) as (a1 & Hc1 & Hall1).
    destruct (resolveProvider r p) as [r1 [err |]]; simpl in Hc1.
    + destruct (errors_Is err ErrMissingDependency); [| by exists a1].
      destruct (IH r1 (waiting ++ [p]) (errs ++ [err])) as (a2 & Hall2 & Hc2).
      exists (a1 ++ a2). split; [by apply Forall_app |].
      rewrite Hc1, <- app_assoc in Hc2. by destruct (pass r1 ps _ _).
    + destruct (IH r1 waiting errs) as (a2 & Hall2 & Hc2).
      exists (a1 ++ a2). split; [by apply Forall_app |].
      rewrite Hc1, <- app_assoc in Hc2. by destruct (pass r1 ps _ _).
Qed.

(** X9: [build] only appends to the closers, and what it appends are
    values that implement [io.Closer] or [general.DelayCloser]: the closers
    recorded earlier keep their places, and [close] meets no value it cannot
    close among those that [build] recorded. *)
Theorem X9_build_appends_closers (r : runner) :
  ∃ added, closers (fst (build r)) = closers r ++ added
           ∧ Forall (λ d, capable d = true) added.
Proof.
  remember (length (producers r)) as n eqn:Hn.
  revert r Hn. induction n as [n IH] using lt_wf_ind. intros r Hn.
  rewrite build_step. destruct (producers r) as [| p ps] eqn:Hps.
  - exists []. simpl. by rewrite app_nil_r.
  - destruct (pass_closers (p :: ps) r [] []) as (a1 & Hall & Hc).
    destruct (pass r (p :: ps) [] []) as [r1 err | r1 waiting errs] eqn:Hp; [by exists a1 |].
    destruct (length waiting =? length (p :: ps))%nat eqn:Hlen; [by exists a1 |].
    apply Nat.eqb_neq in Hlen. apply pass_waiting_length in Hp. simpl in Hp, Hn.
    destruct (IH (length waiting) ltac:(simpl in *; lia) (set_producers waiting r1) eq_refl)
      as (a2 & Hc2 & Hall2).
    exists (a1 ++ a2). split; [| by apply Forall_app].
    rewrite Hc2. simpl. by rewrite Hc, <- app_assoc.
Qed.

(** ** The forms of the store *)

Lemma kind_TSlice t : kind (TSlice t) = Slice.
Proof. done. Qed.

(** What a successful [handleProvidedValue] changes, read per key. *)
Lemma handleProvidedValue_reads r v r' :
  handleProvidedValue r v = (r', None) →
  0 < count r (TypeOf v)
  ∧ (∀ ty, count r' ty
           = if decide (ty = TypeOf v) then count r (TypeOf v) - 1 else count r ty)
  ∧ (∀ ty, wantSlice r' ty
           = if decide (ty = TypeOf v)
             then wantSlice r (TypeOf v) || bool_decide (1 < count r (TypeOf v))
             else wantSlice r ty)
  ∧ values r'
    = (if wantSlice r' (TypeOf v)
       then <[TSlice (TypeOf v) :=
                Append (default (MakeSlice (TSlice (TypeOf v)))
                                (values r !! TSlice (TypeOf v))) v]> (values r)
       else <[TypeOf v := v]> (values r)).
Proof.
  intros H. apply handleProvidedValue_fields in H. cbv zeta in H.
  destruct H as (Hpos & Hc & Hw & Hv). split; [done |]. split; [| split; [| done]].
  - intros ty. unfold count at 1. rewrite Hc.
    destruct (decide (ty = TypeOf v)) as [-> | Hty].
    + by rewrite lookup_insert_eq.
    + by rewrite lookup_insert_ne.
  - intros ty. unfold wantSlice at 1. rewrite Hw.
    destruct (decide (ty = TypeOf v)) as [-> | Hty].
    + destruct (decide (1 < count r (TypeOf v) ∧ wantSlice r (TypeOf v) = false))
        as [[Hm Hf] | Hm].
      * rewrite lookup_insert_eq, Hf. simpl. by rewrite bool_decide_eq_true_2.
      * fold (wantSlice r (TypeOf v)).
        destruct (wantSlice r (TypeOf v)); [done |]. simpl.
        rewrite bool_decide_eq_false_2; [done |]. intros ?. by apply Hm.
    + destruct (decide (1 < count r (TypeOf v) ∧ wantSlice r (TypeOf v) = false)); [| done].
      by rewrite lookup_insert_ne.
Qed.

Lemma handleProvidedValue_consistent r v :
  store_consistent r → store_consistent (fst (handleProvidedValue r v)).
Proof.
  intros Hr.
  destruct (handleProvidedValue r v) as [r' [err |]] eqn:H; simpl.
  { by apply handleProvidedValue_fails in H as ->. }
  apply handleProvidedValue_reads in H as (Hpos & Hc & Hw & Hv).
  destruct Hr as (I0 & I5 & I1 & I2 & I3).
  set (t := TypeOf v) in *.
  assert (kind t = Interface) as Ht by (apply I0; lia).
  assert (∀ T, TSlice T ≠ t) as Hslice.
  { intros T HT. rewrite <- HT in Ht. done. }
  split; [| split; [| split; [| split]]].
  - intros ty. rewrite Hc. destruct (decide (ty = t)) as [-> | ?]; [done | apply I0].
  - intros k Hsome. rewrite Hv in Hsome. destruct (wantSlice r' t).
    + destruct (decide (k = TSlice t)) as [-> | Hk].
      * right. by exists t.
      * rewrite lookup_insert_ne in Hsome by done. by apply I5.
    + destruct (decide (k = t)) as [-> | Hk].
      * by left.
      * rewrite lookup_insert_ne in Hsome by done. by apply I5.
  - intros T HT Hsome. rewrite Hv in Hsome. destruct (wantSlice r' t) eqn:Hwt.
    + rewrite lookup_insert_ne in Hsome by (intros HT'; rewrite <- HT' in HT; done).
      destruct (I1 T HT Hsome) as [H0 Hf].
      rewrite Hc, Hw. destruct (decide (T = t)) as [-> | ?]; [lia | done].
    + rewrite Hw, decide_True in Hwt by done.
      apply orb_false_iff in Hwt as [Hwf Hle]. apply bool_decide_eq_false in Hle.
      destruct (decide (T = t)) as [-> | HTt].
      * rewrite Hc, Hw, !decide_True by done. rewrite Hwf. simpl.
        split; [lia |]. by apply bool_decide_eq_false.
      * rewrite lookup_insert_ne in Hsome by done.
        rewrite Hc, Hw, !decide_False by done. by apply I1.
  - intros T Hsome. rewrite Hv in Hsome. destruct (wantSlice r' t) eqn:Hwt.
    + destruct (decide (T = t)) as [-> | HTt]; [done |].
      rewrite lookup_insert_ne in Hsome by congruence.
      rewrite Hw, decide_False by done. by apply I2.
    + rewrite lookup_insert_ne in Hsome by (intros HT'; by apply (Hslice T)).
      rewrite Hw. destruct (decide (T = t)) as [-> | ?]; by rewrite (I2 _ Hsome).
  - intros T x Hx. rewrite Hv in Hx. destruct (wantSlice r' t) eqn:Hwt.
    + destruct (decide (T = t)) as [-> | HTt].
      * rewrite lookup_insert_eq in Hx. injection Hx as <-.
        destruct (values r !! TSlice t) as [y |] eqn:Hy; simpl.
        -- destruct (I3 _ _ Hy) as [l ->]. destruct v as [| t' [d |] | t' l']; by eexists.
        -- destruct v as [| t' [d |] | t' l']; by eexists.
      * rewrite lookup_insert_ne in Hx by congruence. by eapply I3.
    + rewrite lookup_insert_ne in Hx by (intros HT'; by apply (Hslice T)). by eapply I3.
Qed.

Lemma handleResults_consistent l r :
  store_consistent r → store_consistent (fst (handleResults r l)).
Proof.
  revert r. induction l as [| [t v] l IH]; intros r Hr; simpl; [done |].
  destruct (IsNil v); [done |].
  pose proof (handleProvidedValue_consistent r v Hr) as H.
  destruct (handleProvidedValue r v) as [r1 [err |]]; simpl in *; [done |].
  by apply IH.
Qed.

Lemma store_consistent_emit e r : store_consistent r → store_consistent (emit e r).
Proof. done. Qed.

Lemma store_consistent_set_producers l r :
  store_consistent r → store_consistent (set_producers l r).
Proof. done. Qed.

Lemma resolveProvider_consistent r p :
  store_consistent r → store_consistent (fst (resolveProvider r p)).
Proof.
  intros Hr. unfold resolveProvider. destruct (findParams r (fn_in p)) as [err | ins].
  - done.
  - cbv zeta. apply (store_consistent_emit (Called (fn_id p) ins)) in Hr.
    case_decide.
    + destruct (Call p ins !! _) as [[| t [d |] | t l] |];
        first [by apply handleResults_consistent | done].
    + by apply handleResults_consistent.
Qed.

Lemma resolving_consistent r0 r :
  store_consistent r0 → resolving r0 r → store_consistent r.
Proof.
  intros H0 Hr. induction Hr as [| r p _ IH | r w _ IH].
  - done.
  - by apply resolveProvider_consistent.
  - by apply store_consistent_set_producers.
Qed.

Lemma add_outs_values outs r : values (fst (add_outs r outs)) = values r.
Proof.
  revert r. induction outs as [| t outs IH]; intros r; simpl; [done |].
  case_decide; [| done]. by rewrite IH.
Qed.

Lemma add_ins_values ins r : values (fst (add_ins r ins)) = values r.
Proof.
  revert r. induction ins as [| t ins IH]; intros r; simpl; [done |].
  repeat case_decide; try done; by rewrite IH.
Qed.

Lemma add_values r p : values (fst (add r p)) = values r.
Proof.
  destruct p as [| | f]; simpl; try done.
  pose proof (add_outs_values (take (outCount f) (fn_out f)) r) as Ho.
  destruct (add_outs r _) as [r1 [e1 |]]; simpl in *; [done |].
  pose proof (add_ins_values (rev (fn_in f)) r1) as Hi.
  destruct (add_ins r1 _) as [r2 [e2 |]]; simpl in *; congruence.
Qed.

Lemma addAll_values ps r : values (fst (addAll r ps)) = values r.
Proof.
  revert r. induction ps as [| p ps IH]; intros r; simpl; [done |].
  pose proof (add_values r p) as H.
  destruct (add r p) as [r1 [e |]]; simpl in *; [done |]. by rewrite IH.
Qed.

(** The store is consistent when [Run] has registered its producers. *)
Lemma registered_consistent ps : store_consistent (fst (addAll new ps)).
Proof.
  pose proof (addAll_within (λ _, True) ps new (new_within _) ltac:(intros; by apply Forall_true))
    as [Hc _].
  pose proof (addAll_values ps new) as Hv. simpl in Hv.
  split; [intros ty Hty; by apply Hc |].
  split; [| split; [| split]].
  - intros k [x Hx]. by rewrite Hv, lookup_empty in Hx.
  - intros T _ [x Hx]. by rewrite Hv, lookup_empty in Hx.
  - intros T [x Hx]. by rewrite Hv, lookup_empty in Hx.
  - intros T x Hx. by rewrite Hv, lookup_empty in Hx.
Qed.

(** X10: while the producers registered by [Run] are resolved, a type is
    never in the store in both forms, as a single value and as a list. *)
Theorem X10_store_one_form (ps : list producer) (r : runner) (T : rtype) :
  resolving (fst (addAll new ps)) r →
  ¬ (is_Some (values r !! T) ∧ is_Some (values r !! TSlice T)).
Proof.
  intros Hr [Hsingle Hlist].
  destruct (resolving_consistent _ _ (registered_consistent ps) Hr)
    as (I0 & I5 & I1 & I2 & I3).
  destruct (I5 _ Hlist) as [Hk | (T' & [= <-] & HT)]; [done |].
  destruct (I1 _ HT Hsingle) as [_ Hf]. rewrite (I2 _ Hlist) in Hf. done.
Qed.

Lemma X10_store_one_form_witness :
  ¬ (is_Some (values (fst (resolveProvider (fst (addAll new [PFunc Tests.new2])) Tests.new2))
                !! Tests.testInterface2)
     ∧ is_Some (values (fst (resolveProvider (fst (addAll new [PFunc Tests.new2])) Tests.new2))
                  !! TSlice Tests.testInterface2)).
Proof.
  apply (X10_store_one_form [PFunc Tests.new2]).
  apply resolving_attempt, resolving_start.
Defined.

(** ** The store only grows *)

Lemma store_extends_refl r : store_extends r r.
Proof. repeat split; try done. Qed.

Lemma store_extends_trans r1 r2 r3 :
  store_extends r1 r2 → store_extends r2 r3 → store_extends r1 r3.
Proof.
  intros (A1 & B1 & C1) (A2 & B2 & C2). split; [| split].
  - intros T x HT Hx. by apply A2, A1.
  - intros T. etrans; [apply B1 | apply B2].
  - intros T. destruct (C1 T), (C2 T). split; lia.
Qed.

Lemma store_extends_emit_l e r r' : store_extends (emit e r) r' → store_extends r r'.
Proof. done. Qed.

Lemma handleProvidedValue_extends r v :
  store_consistent r → store_extends r (fst (handleProvidedValue r v)).
Proof.
  intros (I0 & I5 & I1 & I2 & I3).
  destruct (handleProvidedValue r v) as [r' [err |]] eqn:H; simpl.
  { apply handleProvidedValue_fails in H as ->. apply store_extends_refl. }
  apply handleProvidedValue_reads in H as (Hpos & Hc & Hw & Hv).
  set (t := TypeOf v) in *.
  assert (kind t = Interface) as Ht by (apply I0; lia).
  assert (∀ T, TSlice T ≠ t) as Hslice.
  { intros T HT. rewrite <- HT in Ht. done. }
  split; [| split].
  - intros T x HT Hx.
    assert (T ≠ t) as HTt.
    { intros ->. destruct (I1 t Ht (mk_is_Some _ _ Hx)) as [H0 _]. lia. }
    rewrite Hv. destruct (wantSlice r' t).
    + rewrite lookup_insert_ne; [done |]. intros HT'. rewrite <- HT' in HT. done.
    + by rewrite lookup_insert_ne.
  - intros T. unfold stored_at. rewrite Hv. destruct (wantSlice r' t).
    + destruct (decide (T = t)) as [-> | HTt].
      * rewrite lookup_insert_eq.
        destruct (values r !! TSlice t) as [y |] eqn:Hy; simpl.
        -- destruct (I3 _ _ Hy) as [l ->].
           destruct v as [| t' [d |] | t' l']; simpl; try done.
           by apply prefix_app_r.
        -- apply prefix_nil.
      * rewrite lookup_insert_ne by congruence. done.
    + rewrite lookup_insert_ne; [done |]. intros HT'. by apply (Hslice T).
  - intros T. rewrite Hc. destruct (decide (T = t)) as [-> | ?]; lia.
Qed.

Lemma handleResults_extends l r :
  store_consistent r → store_extends r (fst (handleResults r l)).
Proof.
  revert r. induction l as [| [t v] l IH]; intros r Hr; simpl.
  - apply store_extends_refl.
  - destruct (IsNil v); [apply store_extends_refl |].
    pose proof (handleProvidedValue_extends r v Hr) as H.
    pose proof (handleProvidedValue_consistent r v Hr) as Hr1.
    destruct (handleProvidedValue r v) as [r1 [err |]]; simpl in *; [done |].
    eapply store_extends_trans; [done |]. by apply IH.
Qed.

Lemma resolveProvider_extends r p :
  store_consistent r → store_extends r (fst (resolveProvider r p)).
Proof.
  intros Hr. unfold resolveProvider. destruct (findParams r (fn_in p)) as [err | ins].
  - apply store_extends_refl.
  - cbv zeta. apply (store_extends_emit_l (Called (fn_id p) ins)).
    pose proof (handleResults_extends) as Hl.
    specialize (λ l, Hl l (emit (Called (fn_id p) ins) r) Hr).
    case_decide.
    + destruct (Call p ins !! _) as [[| t [d |] | t l] |];
        first [apply Hl | apply store_extends_refl].
    + apply Hl.
Qed.

Lemma resolving_extends r r' :
  store_consistent r → resolving r r' → store_extends r r'.
Proof.
  intros Hr Hres. induction Hres as [| r1 p Hres IH | r1 w Hres IH].
  - apply store_extends_refl.
  - eapply store_extends_trans; [done |].
    apply resolveProvider_extends. by eapply resolving_consistent.
  - done.
Qed.

(** X11: while the producers registered by [Run] are resolved the store only
    grows: a single value, once stored, is never replaced or removed, a
    list only gets values appended, and a count never rises and never gets
    below zero. *)
Theorem X11_store_only_grows (ps : list producer) (r r' : runner) :
  resolving (fst (addAll new ps)) r →
  resolving r r' →
  (∀ T x, kind T = Interface → values r !! T = Some x → values r' !! T = Some x)
  ∧ (∀ T, stored_at T r `prefix_of` stored_at T r')
  ∧ (∀ T, count r' T ≤ count r T ∧ (0 ≤ count r T → 0 ≤ count r' T)).
Proof.
  intros Hr Hr'. apply resolving_extends; [| done].
  eapply resolving_consistent; [apply registered_consistent | done].
Qed.

Lemma X11_store_only_grows_witness :
  let r := fst (resolveProvider (fst (addAll new [PFunc Tests.new2; PFunc Tests.new2]))
                  Tests.new2) in
  let r' := fst (resolveProvider r Tests.new2) in
  (∀ T x, kind T = Interface → values r !! T = Some x → values r' !! T = Some x)
  ∧ (∀ T, stored_at T r `prefix_of` stored_at T r')
  ∧ (∀ T, count r' T ≤ count r T ∧ (0 ≤ count r T → 0 ≤ count r' T)).
Proof.
  intros r r'.
  apply (X11_store_only_grows [PFunc Tests.new2; PFunc Tests.new2] r r').
  - apply resolving_attempt, resolving_start.
  - apply resolving_attempt, resolving_start.
Defined.

(** ** Where the results of a type are delivered *)

Section Delivery.
Variable T : rtype.
Variable K : Z.
Variable marked : bool.
Hypothesis T_interface : kind T = Interface.

Lemma delivery_form_same r r' :
  count r' T = count r T → wantSlice r' T = wantSlice r T →
  values r' !! T = values r !! T → values r' !! TSlice T = values r !! TSlice T →
  delivery_form T K marked r → delivery_form T K marked r'.
Proof.
  unfold delivery_form, stored_at. intros -> -> -> ->. done.
Qed.

Lemma list_write_stored r r' d :
  (∀ x, values r !! TSlice T = Some x → ∃ l, x = VSlice (TSlice T) l) →
  values r'
  = <[TSlice T := Append (default (MakeSlice (TSlice T)) (values r !! TSlice T))
                         (VIface T (Some d))]> (values r) →
  stored_at T r' = stored_at T r ++ [d] ∧ values r' !! T = values r !! T.
Proof.
  intros I3 Hv. unfold stored_at. rewrite Hv. split.
  - rewrite lookup_insert_eq.
    destruct (values r !! TSlice T) as [y |] eqn:Hy; simpl; [| done].
    by destruct (I3 _ eq_refl) as [l ->].
  - rewrite lookup_insert_ne; [done |]. intros H. rewrite <- H in T_interface. done.
Qed.

Lemma handleProvidedValue_delivery r t d r' o :
  store_consistent r → delivery_form T K marked r →
  handleProvidedValue r (VIface t (Some d)) = (r', o) →
  delivery_form T K marked r'.
Proof.
  intros (I0 & I5 & I1 & I2 & I3) Hform H. destruct o as [err |].
  { by apply handleProvidedValue_fails in H as ->. }
  apply handleProvidedValue_reads in H. simpl TypeOf in H.
  destruct H as (Hpos & Hc & Hw & Hv).
  assert (kind t = Interface) as Ht by (apply I0; lia).
  destruct (decide (T = t)) as [<- | HTt].
  - specialize (Hc T). specialize (Hw T). rewrite decide_True in Hc by done.
    rewrite decide_True in Hw by done.
    rewrite Hw in Hv.
    destruct Hform as [Hnn Hform]. split; [lia |].
    destruct marked.
    + destruct Hform as (Hm & Hsingle & Hlen). rewrite Hm in Hw, Hv. simpl in Hw, Hv.
      destruct (list_write_stored r r' d (I3 T) Hv) as [Hst Hs].
      split; [done |]. split; [congruence |].
      rewrite Hst, length_app. simpl. lia.
    + destruct Hform as [(Hm & Hl & Hsingle & Hk) | [(Hm & Hl & Hsingle & Hk & H0)
                         | (Hm & Hsingle & Hk & Hlen)]].
      * rewrite Hm in Hw, Hv. simpl in Hw, Hv.
        destruct (bool_decide (1 < count r T)) eqn:Hone.
        -- apply bool_decide_eq_true in Hone. right. right.
           destruct (list_write_stored r r' d (I3 T) Hv) as [Hst Hs].
           split; [done |]. split; [congruence |]. split; [lia |].
           rewrite Hst, length_app. unfold stored_at. rewrite Hl. simpl. lia.
        -- apply bool_decide_eq_false in Hone. right. left.
           split; [done |]. rewrite Hv. split; [| split; [| lia]].
           ++ rewrite lookup_insert_ne; [done |]. intros H. rewrite H in T_interface. done.
           ++ by rewrite lookup_insert_eq.
      * lia.
      * rewrite Hm in Hw, Hv. simpl in Hw, Hv. right. right.
        destruct (list_write_stored r r' d (I3 T) Hv) as [Hst Hs].
        split; [done |]. split; [congruence |]. split; [done |].
        rewrite Hst, length_app. simpl. lia.
  - apply (delivery_form_same r r'); [| | | | done].
    + by rewrite Hc, decide_False.
    + by rewrite Hw, decide_False.
    + rewrite Hv. destruct (wantSlice r' t).
      * rewrite lookup_insert_ne; [done |]. intros H. rewrite <- H in T_interface. done.
      * by rewrite lookup_insert_ne.
    + rewrite Hv. destruct (wantSlice r' t).
      * rewrite lookup_insert_ne; [done |]. congruence.
      * rewrite lookup_insert_ne; [done |]. intros H. rewrite H in Ht. done.
Qed.

Lemma handleResults_delivery l r :
  Forall (λ e, ∃ x, snd e = VIface (fst e) x) l →
  store_consistent r → delivery_form T K marked r →
  delivery_form T K marked (fst (handleResults r l)).
Proof.
  intros Hl. revert r. induction Hl as [| [t v] l [x Hx] _ IH]; intros r Hr Hform; simpl.
  - done.
  - simpl in Hx. subst v. destruct x as [d |]; simpl; [| done].
    pose proof (handleProvidedValue_consistent r (VIface t (Some d)) Hr) as Hr1.
    destruct (handleProvidedValue r (VIface t (Some d))) as [r1 [err |]] eqn:H; simpl in *.
    + apply (handleProvidedValue_delivery r t d r1 _ Hr Hform H).
    + apply IH; [done |]. apply (handleProvidedValue_delivery r t d r1 _ Hr Hform H).
Qed.

Lemma resolveProvider_delivery r p :
  store_consistent r → delivery_form T K marked r →
  delivery_form T K marked (fst (resolveProvider r p)).
Proof.
  intros Hr Hform. unfold resolveProvider.
  destruct (findParams r (fn_in p)) as [err | ins]; [done |].
  cbv zeta.
  assert (∀ n, delivery_form T K marked
                 (fst (handleResults (emit (Called (fn_id p) ins) r)
                         (take n (zip (fn_out p) (Call p ins)))))) as Hl.
  { intros n. apply handleResults_delivery; [apply zip_Call_typed | done | done]. }
  case_decide.
  - destruct (Call p ins !! _) as [[| t [d |] | t l] |]; first [apply Hl | done].
  - apply Hl.
Qed.

Lemma resolving_delivery r0 r :
  store_consistent r0 → delivery_form T K marked r0 → resolving r0 r →
  delivery_form T K marked r.
Proof.
  intros H0 Hform Hres. induction Hres as [| r1 p Hres IH | r1 w Hres IH].
  - done.
  - apply resolveProvider_delivery; [| done]. by eapply resolving_consistent.
  - done.
Qed.

End Delivery.

(** The form in which the results of [T] will be delivered is fixed when
    [Run] has registered the producers. *)
Lemma registered_delivery fs r0 T :
  addAll new (PFunc <$> fs) = (r0, None) →
  Z.of_nat (sum_list_with (λ f, length (fn_out f)) fs) < 2 ^ 63 →
  delivery_form T (supplies_all T fs) (wantSlice r0 T) r0.
Proof.
  intros Hadd Hbound.
  destruct (registered _ _ Hadd) as (Hp & Hv & _ & _ & _ & Hc).
  specialize (Hc Hbound T).
  unfold delivery_form. rewrite Hc. unfold stored_at. rewrite Hv, !lookup_empty. simpl.
  split; [unfold supplies_all; lia |].
  destruct (wantSlice r0 T); [done |]. by left.
Qed.

(** ** The arguments of a call *)

Lemma findParams_lookup r ts ins i t :
  findParams r ts = inr ins → ts !! i = Some t →
  ∃ v, ins !! i = Some v ∧ findParam r t = (v, None).
Proof.
  revert ins i. induction ts as [| u ts IH]; intros ins i; simpl; [done |].
  destruct (findParam r u) as [v [err |]] eqn:Hu; [done |].
  destruct (findParams r ts) as [err | vs]; [done |].
  intros [= <-]. destruct i as [| i]; simpl.
  - intros [= <-]. by exists v.
  - by apply IH.
Qed.

Lemma findParam_value r t v :
  findParam r t = (v, None) →
  ¬ pending r t
  ∧ (values r !! t = Some v ∨ (values r !! t = None ∧ kind t = Slice ∧ v = MakeSlice t)).
Proof.
  intros H. pose proof (findParam_None_bound _ _ _ H) as [Hnp _]. split; [done |].
  rewrite (findParam_not_pending _ _ Hnp) in H.
  destruct (values r !! t) as [x |].
  - left. congruence.
  - right. case_decide as Hk; [done |]. injection H as <-.
    split; [done |]. split; [| done]. by destruct (decide (kind t = Slice)).
Qed.

(** X12: a registered producer that takes a slice of [T] is called with all
    the values of type [T] there will be: the slice has as many elements as
    the registered producers have results of type [T] (none, if no producer
    makes [T]). *)
Theorem X12_slice_argument_holds_all (fs : list func) (r0 r : runner) (p : func)
    (i : nat) (T : rtype) (ins : list Value) :
  addAll new (PFunc <$> fs) = (r0, None) →
  Z.of_nat (sum_list_with (λ f, length (fn_out f)) fs) < 2 ^ 63 →
  resolving r0 r →
  p ∈ fs → fn_in p !! i = Some (TSlice T) →
  findParams r (fn_in p) = inr ins →
  ∃ l, ins !! i = Some (VSlice (TSlice T) l)
       ∧ Z.of_nat (length l) = supplies_all T fs.
Proof.
  intros Hadd Hbound Hres Hp Hi Hins.
  assert (store_consistent r0) as Hr0.
  { pose proof (registered_consistent (PFunc <$> fs)) as H. by rewrite Hadd in H. }
  pose proof (resolving_consistent _ _ Hr0 Hres) as (I0 & I5 & I1 & I2 & I3).
  pose proof (registered_delivery _ _ T Hadd Hbound) as Hform.
  destruct (addAll_accepted _ _ _ Hadd) as (fs' & Heq & Hshape & _).
  apply PFunc_fmap_inj in Heq. subst fs'.
  assert (TSlice T ∈ fn_in p) as Hin by (by eapply list_elem_of_lookup_2).
  assert (kind T = Interface) as HT.
  { pose proof (proj1 (Forall_forall _ _) Hshape _ Hp) as [_ Hvalid].
    by destruct (proj1 (Forall_forall _ _) Hvalid _ Hin) as [[_ HT] | HT]. }
  assert (wantSlice r0 T = true) as Hmark.
  { destruct (registered _ _ Hadd) as (_ & _ & _ & _ & Hm & _). apply Hm. by exists p. }
  rewrite Hmark in Hform.
  apply (resolving_delivery T _ true HT _ _ Hr0 Hform) in Hres.
  destruct Hres as (Hnn & Hw & Hsingle & Hlen).
  destruct (findParams_lookup _ _ _ _ _ Hins Hi) as (v & Hv & Hfind).
  apply findParam_value in Hfind as [Hnp Hval].
  unfold pending in Hnp. rewrite decide_True in Hnp by done. simpl in Hnp.
  assert (count r T = 0) as H0 by lia.
  unfold stored_at in Hlen.
  destruct Hval as [Hsome | (Hnone & _ & ->)].
  - destruct (I3 _ _ Hsome) as [l ->]. exists l. split; [done |].
    rewrite Hsome in Hlen. lia.
  - exists []. split; [done |]. rewrite Hnone in Hlen. simpl in *. lia.
Qed.

Lemma X12_slice_argument_holds_all_witness :
  let fs := [Tests.new2; Tests.new2; Tests.new1ConsumeSice2] in
  let r0 := fst (addAll new (PFunc <$> fs)) in
  let r := fst (resolveProvider (fst (resolveProvider r0 Tests.new2)) Tests.new2) in
  ∃ l, [VSlice (TSlice Tests.testInterface2) [Tests.testStruct2; Tests.testStruct2]]
         !! 0%nat = Some (VSlice (TSlice Tests.testInterface2) l)
       ∧ Z.of_nat (length l) = supplies_all Tests.testInterface2 fs.
Proof.
  intros fs r0 r.
  apply (X12_slice_argument_holds_all fs r0 r Tests.new1ConsumeSice2 0%nat
           Tests.testInterface2
           [VSlice (TSlice Tests.testInterface2) [Tests.testStruct2; Tests.testStruct2]]).
  - apply pair_with_snd. reflexivity.
  - reflexivity.
  - apply resolving_attempt, resolving_attempt, resolving_start.
  - repeat constructor.
  - reflexivity.
  - vm_compute. reflexivity.
Defined.

(** X13: a parameter of interface type gets a value only when the registered
    producers have exactly one result of that type and none of them takes a
    slice of it; the argument is then the single value in the store. *)
Theorem X13_bare_argument_sole_result (fs : list func) (r0 r : runner) (p : func)
    (i : nat) (T : rtype) (ins : list Value) :
  addAll new (PFunc <$> fs) = (r0, None) →
  Z.of_nat (sum_list_with (λ f, length (fn_out f)) fs) < 2 ^ 63 →
  resolving r0 r →
  fn_in p !! i = Some T → kind T = Interface →
  findParams r (fn_in p) = inr ins →
  supplies_all T fs = 1
  ∧ (∀ f, f ∈ fs → TSlice T ∉ fn_in f)
  ∧ is_Some (ins !! i) ∧ ins !! i = values r !! T.
Proof.
  intros Hadd Hbound Hres Hi HT Hins.
  assert (store_consistent r0) as Hr0.
  { pose proof (registered_consistent (PFunc <$> fs)) as H. by rewrite Hadd in H. }
  pose proof (registered_delivery _ _ T Hadd Hbound) as Hform.
  apply (resolving_delivery T _ _ HT _ _ Hr0 Hform) in Hres.
  destruct (findParams_lookup _ _ _ _ _ Hins Hi) as (v & Hv & Hfind).
  apply findParam_value in Hfind as [Hnp [Hsome | (_ & Hk & _)]]; [| congruence].
  destruct Hres as [_ Hres].
  destruct (wantSlice r0 T) eqn:Hmark.
  { destruct Hres as (_ & Hnone & _). congruence. }
  destruct Hres as [(_ & _ & Hnone & _) | [(_ & _ & _ & HK & _) | (_ & Hnone & _)]];
    [congruence | | congruence].
  split; [done |]. split; [| split; [by rewrite Hv | congruence]].
  intros f Hf Hin.
  destruct (registered _ _ Hadd) as (_ & _ & _ & _ & Hm & _).
  assert (wantSlice r0 T = true) as Htrue by (apply Hm; by exists f). congruence.
Qed.

Lemma X13_bare_argument_sole_result_witness :
  let fs := [Tests.new2; Tests.new1Consume2] in
  let r0 := fst (addAll new (PFunc <$> fs)) in
  let r := fst (resolveProvider r0 Tests.new2) in
  supplies_all Tests.testInterface2 fs = 1
  ∧ (∀ f, f ∈ fs → TSlice Tests.testInterface2 ∉ fn_in f)
  ∧ is_Some ([VIface Tests.testInterface2 (Some Tests.testStruct2)] !! 0%nat)
  ∧ [VIface Tests.testInterface2 (Some Tests.testStruct2)] !! 0%nat
    = values r !! Tests.testInterface2.
Proof.
  intros fs r0 r.
  apply (X13_bare_argument_sole_result fs r0 r Tests.new1Consume2 0%nat
           Tests.testInterface2 [VIface Tests.testInterface2 (Some Tests.testStruct2)]).
  - apply pair_with_snd. reflexivity.
  - reflexivity.
  - apply resolving_attempt, resolving_start.
  - reflexivity.
  - reflexivity.
  - vm_compute. reflexivity.
Defined.

(** ** The counts while producers are resolved *)

Lemma handleResults_counts l r r' :
  Forall (λ e, ∃ x, snd e = VIface (fst e) x) l →
  handleResults r l = (r', None) →
  ∀ T, count r' T = count r T - Z.of_nat (count_occ rtype_eq_dec (l.*1) T).
Proof.
  intros Hall. revert r.
  induction Hall as [| [t v] l [x Hx] _ IH]; intros r; simpl in *.
  - intros [= <-] T. lia.
  - subst v. destruct (IsNil (VIface t x)); [done |].
    destruct (handleProvidedValue r (VIface t x)) as [r1 [err |]] eqn:Hv; [done |].
    intros Hrest T. rewrite (IH _ Hrest).
    apply handleProvidedValue_reads in Hv as (_ & Hc & _). rewrite Hc. simpl.
    unfold decide, decide_rel, fmap. destruct (rtype_eq_dec t T), (rtype_eq_dec T t);
      try congruence; subst; lia.
Qed.

(** A producer that is resolved takes its results off the counts. *)
Lemma resolveProvider_counts r p r' :
  resolveProvider r p = (r', None) →
  ∀ T, count r' T = count r T - Z.of_nat (supplies T p).
Proof.
  unfold resolveProvider.
  destruct (findParams r (fn_in p)) as [err | ins]; [done |].
  assert (length (Call p ins) = length (fn_out p)) as Hlen
    by (unfold Call; by rewrite length_imap).
  rewrite Hlen.
  assert (∀ r', handleResults (emit (Called (fn_id p) ins) r)
                  (take (outCount p) (zip (fn_out p) (Call p ins))) = (r', None) →
                ∀ T, count r' T = count r T - Z.of_nat (supplies T p)) as Hhandle.
  { intros r1 Hh T. destruct (zip_Call_typed p ins (outCount p)) as [Htyped Hfst].
    rewrite (handleResults_counts _ _ _ Htyped Hh), Hfst. done. }
  unfold outCount in Hhandle.
  destruct (decide _) as [Herr | Hnoerr].
  - destruct (Call p ins !! _) as [[| t [d |] | t l] |]; try apply Hhandle. done.
  - apply Hhandle.
Qed.

(** ** Invariants of the passes of [build] *)

Section Passes.
(** [Inv r pending] is to hold of the runner and the producers that are
    still to be resolved, [Post] of the runner however the resolution
    ends. *)
Variable Inv : runner → list func → Prop.
Variable Post : runner → Prop.
Hypothesis Inv_Post : ∀ r pending, Inv r pending → Post r.
Hypothesis Inv_resolved : ∀ r waiting p rest r',
  Inv r (waiting ++ p :: rest) → resolveProvider r p = (r', None) →
  Inv r' (waiting ++ rest).
Hypothesis Inv_deferred : ∀ r waiting p rest r' err,
  Inv r (waiting ++ p :: rest) → resolveProvider r p = (r', Some err) →
  errors_Is err ErrMissingDependency = true → Inv r' (waiting ++ p :: rest).
Hypothesis Post_fatal : ∀ r waiting p rest r' err,
  Inv r (waiting ++ p :: rest) → resolveProvider r p = (r', Some err) →
  errors_Is err ErrMissingDependency = false → Post r'.
Hypothesis Inv_set_producers : ∀ r pending l,
  Inv r pending → Inv (set_producers l r) pending.

Lemma pass_invariant ps r waiting errs :
  Inv r (waiting ++ ps) →
  match pass r ps waiting errs with
  | PassFatal r' _ => Post r'
  | PassDone r' waiting' _ => Inv r' waiting'
  end.
Proof.
  revert r waiting errs. induction ps as [| p ps IH]; intros r waiting errs HI; simpl.
  - by rewrite app_nil_r in HI.
  - destruct (resolveProvider r p) as [r1 [err |]] eqn:Hres.
    + destruct (errors_Is err ErrMissingDependency) eqn:Hm.
      * apply IH. rewrite <- app_assoc. by eapply Inv_deferred.
      * by eapply Post_fatal.
    + apply IH. by eapply Inv_resolved.
Qed.

(** The runner in which the last pass of a [build] that succeeds ends. *)
Lemma build_invariant r r' :
  Inv r (producers r) →
  build r = (r', None) →
  ∃ rb, Inv rb []
        ∧ r' = set_provideSlice ∅ (set_produceCounts ∅ (set_producers [] rb)).
Proof.
  remember (length (producers r)) as n eqn:Hn.
  revert r Hn. induction n as [n IH] using lt_wf_ind. intros r Hn HI.
  rewrite build_step. destruct (producers r) as [| p ps] eqn:Hps.
  - intros [= <-]. by exists r.
  - pose proof (pass_invariant (p :: ps) r [] [] HI) as Hpass.
    destruct (pass r (p :: ps) [] []) as [r1 err | r1 waiting errs] eqn:Hp; [done |].
    destruct (length waiting =? length (p :: ps))%nat eqn:Hlen; [done |].
    apply Nat.eqb_neq in Hlen. apply pass_waiting_length in Hp. simpl in Hp, Hn.
    apply (IH (length waiting) ltac:(simpl in *; lia) (set_producers waiting r1) eq_refl).
    simpl. by apply Inv_set_producers.
Qed.

Hypothesis Post_cleared : ∀ r,
  Post r → Post (set_provideSlice ∅ (set_produceCounts ∅ (set_producers [] r))).

Lemma build_post r : Inv r (producers r) → Post (fst (build r)).
Proof.
  remember (length (producers r)) as n eqn:Hn.
  revert r Hn. induction n as [n IH] using lt_wf_ind. intros r Hn HI.
  rewrite build_step. destruct (producers r) as [| p ps] eqn:Hps.
  - simpl. eapply Post_cleared, Inv_Post. done.
  - pose proof (pass_invariant (p :: ps) r [] [] HI) as Hpass.
    destruct (pass r (p :: ps) [] []) as [r1 err | r1 waiting errs] eqn:Hp; [done |].
    destruct (length waiting =? length (p :: ps))%nat eqn:Hlen; [by eapply Inv_Post |].
    apply Nat.eqb_neq in Hlen. apply pass_waiting_length in Hp. simpl in Hp, Hn.
    apply (IH (length waiting) ltac:(simpl in *; lia) (set_producers waiting r1) eq_refl).
    simpl. by apply Inv_set_producers.
Qed.

(** [Fatal] is to hold of an error that ends the resolution in the middle
    of a pass. *)
Variable Fatal : error → Prop.
Hypothesis Fatal_attempt : ∀ r waiting p rest r' err,
  Inv r (waiting ++ p :: rest) → resolveProvider r p = (r', Some err) →
  errors_Is err ErrMissingDependency = false → Fatal err.

Lemma pass_fatal ps r waiting errs r' err :
  Inv r (waiting ++ ps) → pass r ps waiting errs = PassFatal r' err → Fatal err.
Proof.
  revert r waiting errs. induction ps as [| p ps IH]; intros r waiting errs HI; simpl.
  - done.
  - destruct (resolveProvider r p) as [r1 [e |]] eqn:Hres.
    + destruct (errors_Is e ErrMissingDependency) eqn:Hm.
      * apply IH. rewrite <- app_assoc. by eapply Inv_deferred.
      * intros [= _ <-]. by eapply Fatal_attempt.
    + apply IH. by eapply Inv_resolved.
Qed.

Lemma build_fatal r r' errs :
  Inv r (producers r) →
  build r = (r', Some errs) →
  Forall (λ e, errors_Is e ErrMissingDependency = true) errs
  ∨ ∃ e, errs = [e] ∧ Fatal e.
Proof.
  remember (length (producers r)) as n eqn:Hn.
  revert r Hn. induction n as [n IH] using lt_wf_ind. intros r Hn HI.
  rewrite build_step. destruct (producers r) as [| p ps] eqn:Hps; [done |].
  pose proof (pass_invariant (p :: ps) r [] [] HI) as Hpass.
  destruct (pass r (p :: ps) [] []) as [r1 err | r1 waiting errs1] eqn:Hp.
  - intros [= _ <-]. right. exists err. split; [done |]. apply (pass_fatal (p :: ps) r [] [] r1 err HI Hp).
  - destruct (length waiting =? length (p :: ps))%nat eqn:Hlen.
    + intros [= _ <-]. left.
      destruct (pass_done_collects _ _ _ _ _ _ _ Hp) as (kept & kepterrs & _ & -> & Hall & _).
      simpl. clear -Hall. induction Hall as [| q e kept kepterrs [He _] _ IH']; by constructor.
    + apply Nat.eqb_neq in Hlen. apply pass_waiting_length in Hp. simpl in Hp, Hn.
      apply (IH (length waiting) ltac:(simpl in *; lia) (set_producers waiting r1) eq_refl).
      simpl. by apply Inv_set_producers.
Qed.

End Passes.

Lemma supplies_all_app T ps qs :
  supplies_all T (ps ++ qs) = supplies_all T ps + supplies_all T qs.
Proof. unfold supplies_all. rewrite sum_list_with_app. lia. Qed.

(** ** The store when [build] has succeeded *)

(** X14: the store when [build] has resolved all the producers [Run]
    registered.  A type of which there is exactly one result, and of which
    no producer takes a slice, is there as a single value; any other type
    is there as a list only, which holds as many values as there are
    results of the type. *)
Theorem X14_built_store_form (fs : list func) (r0 r' : runner) (T : rtype) :
  addAll new (PFunc <$> fs) = (r0, None) →
  Z.of_nat (sum_list_with (λ f, length (fn_out f)) fs) < 2 ^ 63 →
  kind T = Interface →
  build r0 = (r', None) →
  (supplies_all T fs = 1 → (∀ f, f ∈ fs → TSlice T ∉ fn_in f) →
   is_Some (values r' !! T) ∧ values r' !! TSlice T = None)
  ∧ (supplies_all T fs ≠ 1 ∨ (∃ f, f ∈ fs ∧ TSlice T ∈ fn_in f) →
     values r' !! T = None
     ∧ Z.of_nat (length (stored_at T r')) = supplies_all T fs).
Proof.
  intros Hadd Hbound HT Hbuild.
  assert (store_consistent r0) as Hr0.
  { pose proof (registered_consistent (PFunc <$> fs)) as H. by rewrite Hadd in H. }
  pose proof (registered_delivery _ _ T Hadd Hbound) as Hform.
  destruct (registered _ _ Hadd) as (Hp & _ & _ & _ & Hm & Hc). specialize (Hc Hbound).
  set (K := supplies_all T fs) in *. set (m := wantSlice r0 T) in *.
  destruct (build_invariant
              (λ r pending, store_consistent r ∧ delivery_form T K m r
                            ∧ count r T = supplies_all T pending) (λ _, True))
    with (r := r0) (r' := r') as (rb & (Hrb & Hfb & Hcb) & ->); try done.
  - intros r waiting p rest r1 (Hr & Hf & Hcount) Hres. split; [| split].
    + pose proof (resolveProvider_consistent r p Hr) as H. by rewrite Hres in H.
    + pose proof (resolveProvider_delivery T K m HT r p Hr Hf) as H. by rewrite Hres in H.
    + rewrite (resolveProvider_counts _ _ _ Hres), Hcount.
      rewrite !supplies_all_app, supplies_all_cons. lia.
  - intros r waiting p rest r1 err (Hr & Hf & Hcount) Hres Hmiss. split; [| split].
    + pose proof (resolveProvider_consistent r p Hr) as H. by rewrite Hres in H.
    + pose proof (resolveProvider_delivery T K m HT r p Hr Hf) as H. by rewrite Hres in H.
    + destruct (resolveProvider_deferred_same _ _ _ _ Hres Hmiss) as (Hpc & _).
      unfold count in *. by rewrite Hpc.
  - split; [done |]. split; [done |]. rewrite Hp. apply Hc.
  - simpl. unfold stored_at. simpl.
    fold (stored_at T rb). unfold supplies_all in Hcb. simpl in Hcb.
    destruct Hfb as [_ Hfb]. split.
    + intros HK Hnone. destruct m eqn:Hmark.
      { apply Hm in Hmark as (f & Hf & Hin). by destruct (Hnone f Hf). }
      destruct Hfb as [(_ & _ & _ & HA) | [(_ & Hl & Hs & _) | (_ & _ & HC & _)]];
        [lia | done | lia].
    + intros Hcase. destruct m eqn:Hmark.
      { destruct Hfb as (_ & Hs & Hlen). split; [done | lia]. }
      destruct Hcase as [HK | (f & Hf & Hin)].
      * destruct Hfb as [(_ & Hl & Hs & HA) | [(_ & _ & _ & HB & _) | (_ & Hs & _ & Hlen)]];
          [| done | split; [done | lia]].
        split; [done |]. unfold stored_at. rewrite Hl. simpl. lia.
      * assert (m = true) as Htrue by (apply Hm; by exists f). congruence.
Qed.

Lemma X14_built_store_form_witness :
  let fs := [Tests.new2; Tests.new1Consume2] in
  let r0 := fst (addAll new (PFunc <$> fs)) in
  let r' := fst (build r0) in
  (supplies_all Tests.testInterface2 fs = 1 →
   (∀ f, f ∈ fs → TSlice Tests.testInterface2 ∉ fn_in f) →
   is_Some (values r' !! Tests.testInterface2)
   ∧ values r' !! TSlice Tests.testInterface2 = None)
  ∧ (supplies_all Tests.testInterface2 fs ≠ 1
     ∨ (∃ f, f ∈ fs ∧ TSlice Tests.testInterface2 ∈ fn_in f) →
     values r' !! Tests.testInterface2 = None
     ∧ Z.of_nat (length (stored_at Tests.testInterface2 r'))
       = supplies_all Tests.testInterface2 fs).
Proof.
  intros fs r0 r'.
  apply (X14_built_store_form fs r0 r' Tests.testInterface2).
  - apply pair_with_snd. reflexivity.
  - reflexivity.
  - reflexivity.
  - apply (pair_with_snd (build r0) None). vm_compute. reflexivity.
Defined.

(** ** Calls follow the calls of their suppliers *)

Lemma supplies_le_all T q ps : q ∈ ps → Z.of_nat (supplies T q) ≤ supplies_all T ps.
Proof.
  intros Hq. apply list_elem_of_split in Hq as (l1 & l2 & ->).
  rewrite supplies_all_app, supplies_all_cons. unfold supplies_all. lia.
Qed.

Lemma calls_follow_suppliers_app fs tr extra :
  Forall (λ ev, ∀ id ins, ev ≠ Called id ins) extra →
  calls_follow_suppliers fs tr → calls_follow_suppliers fs (tr ++ extra).
Proof.
  intros Hextra Htr k id ins Hk.
  destruct (decide (k < length tr)%nat) as [Hlt | Hge].
  - rewrite lookup_app_l in Hk by done.
    destruct (Htr _ _ _ Hk) as (p & Hp & Hid & Hq). exists p. split; [done |].
    split; [done |]. intros q Hqfs Htakes.
    destruct (Hq q Hqfs Htakes) as (j & ins' & Hj & Hlook).
    exists j, ins'. split; [done |]. rewrite lookup_app_l; [done |]. lia.
  - rewrite lookup_app_r in Hk by lia.
    apply list_elem_of_lookup_2 in Hk.
    by destruct (proj1 (Forall_forall _ _) Hextra _ Hk id ins).
Qed.

Lemma close_calls_no_call cs : Forall (λ ev, ∀ id ins, ev ≠ Called id ins) (close_calls cs).
Proof.
  apply Forall_forall. intros ev Hev id ins ->.
  unfold close_calls in Hev. apply list_elem_of_omap in Hev as (d & _ & Hd).
  destruct d as [o | e]; [| done]. by destruct (capable (Object o)).
Qed.

Section Suppliers.
Variable fs : list func.

(** What holds of the runner and the producers still to be resolved. *)
Local Abbreviation resolving_after_suppliers :=
  (λ (r : runner) (pending : list func),
     calls_follow_suppliers fs (trace r)
     ∧ (∀ T, count r T = supplies_all T pending)
     ∧ (∀ q, q ∈ fs → q ∈ pending ∨ ∃ j ins, trace r !! j = Some (Called (fn_id q) ins))
     ∧ (∀ q, q ∈ pending → q ∈ fs)).

Lemma attempt_follows_suppliers r waiting p rest :
  resolving_after_suppliers r (waiting ++ p :: rest) →
  calls_follow_suppliers fs (trace (fst (resolveProvider r p)))
  ∧ (∀ q, q ∈ fs →
          q ∈ waiting ++ p :: rest
          ∨ ∃ j ins, trace (fst (resolveProvider r p)) !! j = Some (Called (fn_id q) ins))
  ∧ (snd (resolveProvider r p) = None →
     ∃ j ins, trace (fst (resolveProvider r p)) !! j = Some (Called (fn_id p) ins)).
Proof.
  intros (Ha & Hb & Hc & Hd).
  destruct (findParams r (fn_in p)) as [err | ins] eqn:Hins.
  { rewrite (resolveProvider_not_called _ _ _ Hins). simpl. done. }
  rewrite (resolveProvider_called _ _ _ Hins).
  assert (p ∈ fs) as Hp.
  { apply Hd. rewrite elem_of_app, elem_of_cons. tauto. }
  split; [| split].
  - intros k id ins0 Hk.
    destruct (decide (k < length (trace r))%nat) as [Hlt | Hge].
    + rewrite lookup_app_l in Hk by done.
      destruct (Ha _ _ _ Hk) as (p0 & Hp0 & Hid & Hq). exists p0. split; [done |].
      split; [done |]. intros q Hqfs Htakes.
      destruct (Hq q Hqfs Htakes) as (j & ins' & Hj & Hlook).
      exists j, ins'. split; [done |]. rewrite lookup_app_l; [done |]. lia.
    + rewrite lookup_app_r in Hk by lia.
      destruct (k - length (trace r))%nat as [| n] eqn:Hn; [| done].
      injection Hk as <- <-. exists p. split; [done |]. split; [done |].
      intros q Hqfs (t & Ht & Hsup).
      apply list_elem_of_lookup_1 in Ht as [i Hi].
      destruct (findParams_lookup _ _ _ _ _ Hins Hi) as (v & _ & Hfind).
      apply findParam_None_bound in Hfind as [Hnp _].
      unfold pending in Hnp. fold (counted_for t) in Hnp. rewrite Hb in Hnp.
      destruct (Hc q Hqfs) as [Hpend | (j & ins' & Hj)].
      * pose proof (supplies_le_all (counted_for t) q _ Hpend). lia.
      * exists j, ins'. split.
        -- apply lookup_lt_Some in Hj. lia.
        -- by rewrite lookup_app_l by (by eapply lookup_lt_Some).
  - intros q Hqfs. destruct (Hc q Hqfs) as [Hpend | (j & ins' & Hj)]; [by left |].
    right. exists j, ins'. by rewrite lookup_app_l by (by eapply lookup_lt_Some).
  - intros _. exists (length (trace r)), ins.
    rewrite lookup_app_r by lia. by rewrite Nat.sub_diag.
Qed.

Lemma build_follows_suppliers r :
  resolving_after_suppliers r (producers r) →
  calls_follow_suppliers fs (trace (fst (build r))).
Proof.
  apply (build_post resolving_after_suppliers
           (λ r, calls_follow_suppliers fs (trace r))).
  - by intros r0 pending (Ha & _).
  - intros r0 waiting p rest r' HI Hres.
    destruct (attempt_follows_suppliers _ _ _ _ HI) as (Ha' & Hc' & Hp').
    destruct HI as (Ha & Hb & Hc & Hd). rewrite Hres in Ha', Hc', Hp'. simpl in *.
    split; [done |]. split; [| split].
    + intros T. rewrite (resolveProvider_counts _ _ _ Hres), Hb.
      rewrite !supplies_all_app, supplies_all_cons. lia.
    + intros q Hqfs. destruct (Hc' q Hqfs) as [Hpend | Hcalled]; [| by right].
      apply elem_of_app in Hpend as [Hw | Hpr]; [left; apply elem_of_app; by left |].
      apply elem_of_cons in Hpr as [-> | Hr];
        [right; by apply Hp' | left; apply elem_of_app; by right].
    + intros q Hq. apply Hd. rewrite elem_of_app in Hq. rewrite elem_of_app, elem_of_cons. tauto.
  - intros r0 waiting p rest r' err HI Hres Hmiss.
    destruct (attempt_follows_suppliers _ _ _ _ HI) as (Ha' & Hc' & _).
    destruct HI as (Ha & Hb & Hc & Hd). rewrite Hres in Ha', Hc'. simpl in *.
    split; [done |]. split; [| split; [done | done]].
    intros T. destruct (resolveProvider_deferred_same _ _ _ _ Hres Hmiss) as (Hpc & _).
    unfold count in *. rewrite Hpc. apply Hb.
  - intros r0 waiting p rest r' err HI Hres _.
    destruct (attempt_follows_suppliers _ _ _ _ HI) as (Ha' & _).
    by rewrite Hres in Ha'.
  - done.
  - done.
Qed.

End Suppliers.

(** X15: [Run] calls a producer only after the producers it takes results
    of: every call of a producer in the trace of a run is the call of a
    registered producer, and each registered producer that is counted for
    one of its parameter types, or for the element type of one of its slice
    parameters, has been called before. *)
Theorem X15_calls_follow_suppliers (fs : list func) :
  snd (addAll new (PFunc <$> fs)) = None →
  Z.of_nat (sum_list_with (λ f, length (fn_out f)) fs) < 2 ^ 63 →
  calls_follow_suppliers fs (trace (fst (Run (PFunc <$> fs)))).
Proof.
  intros Hadd Hbound. unfold Run.
  destruct (addAll new (PFunc <$> fs)) as [r0 o] eqn:Hr0. simpl in Hadd. subst o.
  destruct (registered _ _ Hr0) as (Hp & _ & _ & Htr & _ & Hc). specialize (Hc Hbound).
  destruct (run_after_build r0) as (ran & visited & rest & Hrun & Hran & _).
  rewrite Hrun. apply calls_follow_suppliers_app.
  - apply Forall_app. split; [| apply close_calls_no_call].
    destruct Hran as [-> | (_ & id & ->)]; [done |]. by constructor.
  - apply build_follows_suppliers.
    rewrite Hp, Htr. split; [| split; [done | split; [by left | done]]].
    intros k id ins Hk. done.
Qed.

Lemma X15_calls_follow_suppliers_witness :
  calls_follow_suppliers [Tests.newMain; Tests.new1ConsumeSice2; Tests.new2; Tests.new2]
    (trace (fst (Run (PFunc <$> [Tests.newMain; Tests.new1ConsumeSice2; Tests.new2;
                                 Tests.new2])))).
Proof.
  apply (X15_calls_follow_suppliers
           [Tests.newMain; Tests.new1ConsumeSice2; Tests.new2; Tests.new2]);
    reflexivity.
Defined.

(** ** The errors that end a resolution *)

Lemma findParams_error r ts e :
  findParams r ts = inl e →
  ∃ t, t ∈ ts ∧ (e = Errorf ErrMissingDependency t ∨ e = Errorf ErrNoProducerMakes t).
Proof.
  induction ts as [| t ts IH]; simpl; [done |].
  destruct (findParam r t) as [v [err |]] eqn:Ht.
  - intros [= ->]. exists t. split; [by left |].
    unfold findParam in Ht. cbv zeta in Ht.
    destruct (if decide (kind t = Slice) then _ else _).
    + injection Ht as _ <-. by left.
    + destruct (values r !! t); [done |]. case_decide; [| done].
      injection Ht as _ <-. by right.
  - destruct (findParams r ts) as [err | vs]; [| done].
    intros [= ->]. destruct (IH eq_refl) as (u & Hu & He). exists u. split; [by right | done].
Qed.

(** Results that are all still counted are stored unless one is nil. *)
Lemma handleResults_counted l r r' err :
  Forall (λ e, ∃ x, snd e = VIface (fst e) x) l →
  (∀ T, Z.of_nat (count_occ rtype_eq_dec (l.*1) T) ≤ count r T) →
  handleResults r l = (r', Some err) →
  ∃ t, err = Errorf ErrProducerReturnedNil t.
Proof.
  intros Hall. revert r.
  induction Hall as [| [t v] l [x Hx] _ IH]; intros r Hcount; simpl in *; [done |].
  subst v. destruct x as [d |]; simpl; [| intros [= _ <-]; by exists t].
  assert (0 < count r t) as Hpos.
  { specialize (Hcount t). unfold fmap in Hcount. simpl in Hcount.
    destruct (rtype_eq_dec t t); [lia | done]. }
  destruct (handleProvidedValue_succeeds r (VIface t (Some d)) Hpos) as [r1 Hv].
  rewrite Hv. apply IH. intros T.
  apply handleProvidedValue_reads in Hv as (_ & Hc & _). rewrite Hc. simpl.
  specialize (Hcount T). unfold fmap in *. simpl in Hcount.
  destruct (rtype_eq_dec t T), (decide (T = t)); try congruence; subst; lia.
Qed.

(** The errors with which the attempt of a producer can end when the
    counts are those of the producers still to be resolved. *)
Lemma resolveProvider_error r p pending r' err :
  (∀ T, count r T = supplies_all T pending) → p ∈ pending →
  resolveProvider r p = (r', Some err) →
  (∃ t, t ∈ fn_in p
        ∧ (err = Errorf ErrMissingDependency t ∨ err = Errorf ErrNoProducerMakes t))
  ∨ (∃ t, err = Errorf ErrProducerReturnedNil t)
  ∨ (∃ ins d, fn_out p !! (length (fn_out p) - 1)%nat = Some errorType
              ∧ fn_body p ins !! (length (fn_out p) - 1)%nat = Some (Some d)
              ∧ err = as_error d).
Proof.
  intros Hcount Hp. unfold resolveProvider.
  destruct (findParams r (fn_in p)) as [e | ins] eqn:Hins.
  { intros [= _ <-]. left. by apply (findParams_error r). }
  assert (length (Call p ins) = length (fn_out p)) as Hlen
    by (unfold Call; by rewrite length_imap).
  rewrite Hlen.
  assert (handleResults (emit (Called (fn_id p) ins) r)
            (take (outCount p) (zip (fn_out p) (Call p ins))) = (r', Some err) →
          ∃ t, err = Errorf ErrProducerReturnedNil t) as Hhandle.
  { destruct (zip_Call_typed p ins (outCount p)) as [Htyped Hfst].
    apply handleResults_counted; [done |]. intros T. rewrite Hfst.
    change (count (emit (Called (fn_id p) ins) r) T) with (count r T). rewrite Hcount.
    apply (supplies_le_all T p pending Hp). }
  unfold outCount in Hhandle.
  destruct (decide _) as [[Hpos Herr] | Hnoerr].
  - destruct (Call p ins !! _) as [[| t [d |] | t l] |] eqn:Hlast;
      try (intros H; right; left; by apply Hhandle).
    intros [= _ <-]. right. right. exists ins, d. split; [done |]. split; [| done].
    unfold Call in Hlast. rewrite list_lookup_imap in Hlast.
    destruct (fn_out p !! (length (fn_out p) - 1)%nat); [| done]. simpl in Hlast.
    destruct (fn_body p ins !! (length (fn_out p) - 1)%nat) as [x |]; simpl in Hlast;
      congruence.
  - intros H. right. left. by apply Hhandle.
Qed.

(** X16: the errors [Run] can get from [build] for registered producers.
    Either every error wraps [ErrMissingDependency], or there is one error:
    [ErrNoProducerMakes] wrapped with a type, or [ErrProducerReturnedNil]
    wrapped with a type, or what a registered producer returned as its last
    result. *)
Theorem X16_build_errors (fs : list func) (r0 r' : runner) (errs : list error) :
  addAll new (PFunc <$> fs) = (r0, None) →
  Z.of_nat (sum_list_with (λ f, length (fn_out f)) fs) < 2 ^ 63 →
  build r0 = (r', Some errs) →
  Forall (λ e, errors_Is e ErrMissingDependency = true) errs
  ∨ ∃ e, errs = [e]
         ∧ ((∃ t, e = Errorf ErrNoProducerMakes t)
            ∨ (∃ t, e = Errorf ErrProducerReturnedNil t)
            ∨ (∃ p ins d, p ∈ fs
                          ∧ fn_out p !! (length (fn_out p) - 1)%nat = Some errorType
                          ∧ fn_body p ins !! (length (fn_out p) - 1)%nat = Some (Some d)
                          ∧ e = as_error d)).
Proof.
  intros Hadd Hbound Hbuild.
  destruct (registered _ _ Hadd) as (Hp & _ & _ & _ & _ & Hc). specialize (Hc Hbound).
  apply (build_fatal
           (λ r pending, (∀ T, count r T = supplies_all T pending)
                         ∧ ∀ q, q ∈ pending → q ∈ fs)
           (λ _, True)) with (r := r0) (r' := r'); try done.
  - intros r waiting p rest r1 [Hcount Hsub] Hres. split.
    + intros T. rewrite (resolveProvider_counts _ _ _ Hres), Hcount.
      rewrite !supplies_all_app, supplies_all_cons. lia.
    + intros q Hq. apply Hsub. rewrite elem_of_app in Hq.
      rewrite elem_of_app, elem_of_cons. tauto.
  - intros r waiting p rest r1 err [Hcount Hsub] Hres Hmiss. split; [| done].
    intros T. destruct (resolveProvider_deferred_same _ _ _ _ Hres Hmiss) as (Hpc & _).
    unfold count in *. rewrite Hpc. apply Hcount.
  - intros r waiting p rest r1 err [Hcount Hsub] Hres Hmiss.
    assert (p ∈ waiting ++ p :: rest) as Hin.
    { rewrite elem_of_app, elem_of_cons. tauto. }
    destruct (resolveProvider_error _ _ _ _ _ Hcount Hin Hres)
      as [(t & Ht & [-> | ->]) | [Hnil | (ins & d & Ho & Hb & ->)]].
    + by vm_compute in Hmiss.
    + left. by exists t.
    + right. by left.
    + right. right. exists p, ins, d. split; [by apply Hsub | done].
  - rewrite Hp. split; [apply Hc | done].
Qed.

Lemma X16_build_errors_witness :
  let fs := [Tests.newNilProvider] in
  let r0 := fst (addAll new (PFunc <$> fs)) in
  let errs := [Errorf ErrProducerReturnedNil Tests.testInterface1] in
  Forall (λ e, errors_Is e ErrMissingDependency = true) errs
  ∨ ∃ e, errs = [e]
         ∧ ((∃ t, e = Errorf ErrNoProducerMakes t)
            ∨ (∃ t, e = Errorf ErrProducerReturnedNil t)
            ∨ (∃ p ins d, p ∈ fs
                          ∧ fn_out p !! (length (fn_out p) - 1)%nat = Some errorType
                          ∧ fn_body p ins !! (length (fn_out p) - 1)%nat = Some (Some d)
                          ∧ e = as_error d)).
Proof.
  intros fs r0 errs.
  apply (X16_build_errors fs r0 (fst (build r0)) errs).
  - apply pair_with_snd. reflexivity.
  - reflexivity.
  - apply (pair_with_snd (build r0) (Some errs)). vm_compute. reflexivity.
Defined.

(** ** The errors of [close] *)

Lemma closeLoop_errors cs r errs :
  Forall (λ d, capable d = true ∧ aborts d = false) cs →
  snd (closeLoop r cs errs) = errs ++ omap reported cs.
Proof.
  intros Hcs. revert r errs.
  induction Hcs as [| d cs [Hcap Hab] _ IH]; intros r errs; simpl.
  - by rewrite app_nil_r.
  - destruct d as [[id [| [err |] | [[err |] | |]] run] | e]; try done; simpl;
      rewrite IH; by rewrite <- ?app_assoc.
Qed.

Lemma closeLoop_errors_bound cs r errs :
  (length (snd (closeLoop r cs errs)) ≤ length errs + length cs)%nat.
Proof.
  revert r errs. induction cs as [| d cs IH]; intros r errs; simpl; [lia |].
  destruct d as [[id [| [err |] | [[err |] | |]] run] | e]; simpl;
    try (etrans; [apply IH |]); rewrite ?length_app; simpl; lia.
Qed.

Lemma closeLoop_fields cs r errs :
  closers (fst (closeLoop r cs errs)) = closers r
  ∧ values (fst (closeLoop r cs errs)) = values r
  ∧ producers (fst (closeLoop r cs errs)) = producers r.
Proof.
  revert r errs. induction cs as [| d cs IH]; intros r errs; simpl; [done |].
  destruct d as [[id [| [err |] | [[err |] | |]] run] | e]; simpl; try done;
    by rewrite ?(proj1 (IH _ _)), ?(proj1 (proj2 (IH _ _))), ?(proj2 (proj2 (IH _ _))).
Qed.

(** X17: [close] keeps the errors it is given in front, adds at most one
    error for each recorded closer, and changes nothing of the runner but
    what it has called. *)
Theorem X17_close_adds_at_most_one_error_each (r : runner) (errs : list error) :
  ∃ closeErrs,
    snd (close r errs) = errs ++ closeErrs
    ∧ (length closeErrs ≤ length (closers r))%nat
    ∧ closers (fst (close r errs)) = closers r
    ∧ values (fst (close r errs)) = values r.
Proof.
  exists (snd (close r [])). split; [apply close_errs_app |].
  unfold close. split.
  - pose proof (closeLoop_errors_bound (rev (closers r)) r []) as H.
    rewrite length_rev in H. done.
  - destruct (closeLoop_fields (rev (closers r)) r errs) as (? & ? & ?). done.
Qed.

(** X18: when no recorded closer aborts the loop, an error from one [Close]
    does not keep [close] from the other closers: the errors it adds are
    those the closers report, from the closer recorded last to the one
    recorded first. *)
Theorem X18_close_reports_in_reverse (r : runner) (errs : list error) :
  Forall (λ d, capable d = true ∧ aborts d = false) (closers r) →
  snd (close r errs) = errs ++ omap reported (rev (closers r))
  ∧ trace (fst (close r errs)) = trace r ++ close_calls (rev (closers r)).
Proof.
  intros Hall. unfold close. split.
  - apply closeLoop_errors. by apply Forall_rev.
  - apply closeLoop_all. apply Forall_rev.
    eapply Forall_impl; [done |]. by intros d [_ ?].
Qed.

Lemma X18_close_reports_in_reverse_witness :
  snd (close (set_closers [Tests.testStruct2Closer; Tests.testStruct2DelayCloser] new)
         [ErrNoMain])
  = [ErrNoMain]
    ++ omap reported
         (rev (closers (set_closers [Tests.testStruct2Closer; Tests.testStruct2DelayCloser]
                          new)))
  ∧ trace (fst (close (set_closers [Tests.testStruct2Closer; Tests.testStruct2DelayCloser] new)
                  [ErrNoMain]))
    = trace (set_closers [Tests.testStruct2Closer; Tests.testStruct2DelayCloser] new)
      ++ close_calls
           (rev (closers (set_closers [Tests.testStruct2Closer; Tests.testStruct2DelayCloser]
                            new))).
Proof.
  apply (X18_close_reports_in_reverse
           (set_closers [Tests.testStruct2Closer; Tests.testStruct2DelayCloser] new)
           [ErrNoMain]).
  repeat constructor.
Defined.

(** ** The earlier revision of [resolveProvider] beside the current one *)

Lemma earlier_lookupParams_same r ts :
  Forall (λ t, ¬ (kind t = Slice ∧ ¬ pending r t ∧ values r !! t = None)) ts →
  Earlier.lookupParams r ts = findParams r ts.
Proof.
  induction 1 as [| t ts Ht _ IH]; simpl; [done |].
  destruct (earlier_lookup_differs_on_missing_slices_only r t) as [-> | ?]; [| done].
  by rewrite IH.
Qed.

Lemma earlier_storeResult_same ra r v :
  set_closers [] ra = set_closers [] r →
  snd (Earlier.storeResult ra v) = snd (handleProvidedValue r v)
  ∧ set_closers [] (fst (Earlier.storeResult ra v))
    = set_closers [] (fst (handleProvidedValue r v))
  ∧ closers (fst (Earlier.storeResult ra v)) = closers ra.
Proof.
  intros Heq.
  destruct ra as [ct pc ps prods vals cl tr], r as [ct' pc' ps' prods' vals' cl' tr'].
  injection Heq as -> -> -> -> -> ->.
  unfold Earlier.storeResult, handleProvidedValue, count, wantSlice. cbv zeta. simpl.
  destruct (decide (default 0 (pc' !! TypeOf v) ≤ 0)); [done |].
  destruct (decide (1 < default 0 (pc' !! TypeOf v)
                    ∧ default false (ps' !! TypeOf v) = false)); simpl.
  - rewrite lookup_insert_eq. simpl.
    unfold saveIfCloser. simpl.
    destruct (InterfaceOf v) as [[[id [| ret | sel] run] | e] |]; simpl;
      rewrite ?lookup_insert_eq; simpl; by destruct (vals' !! _).
  - unfold saveIfCloser. simpl.
    destruct (InterfaceOf v) as [[[id [| ret | sel] run] | e] |]; simpl;
      destruct (default false (ps' !! TypeOf v)); simpl; try done;
      by destruct (vals' !! _).
Qed.

Lemma earlier_storeResults_same l ra r :
  set_closers [] ra = set_closers [] r →
  snd (Earlier.storeResults ra l) = snd (handleResults r l)
  ∧ set_closers [] (fst (Earlier.storeResults ra l)) = set_closers [] (fst (handleResults r l))
  ∧ closers (fst (Earlier.storeResults ra l)) = closers ra.
Proof.
  revert ra r. induction l as [| [t v] l IH]; intros ra r Heq; simpl; [done |].
  destruct (IsNil v); [done |].
  destruct (earlier_storeResult_same ra r v Heq) as (Hs & Hf & Hc).
  destruct (Earlier.storeResult ra v) as [ra1 [e |]],
           (handleProvidedValue r v) as [r1 [e' |]]; simpl in *; try done.
  destruct (IH ra1 r1 Hf) as (Hs' & Hf' & Hc'). by rewrite Hc' .
Qed.

(** X19: the earlier revision of [resolveProvider] and the current one end
    an attempt alike, unless a parameter is a slice that is neither pending
    nor in the store: the same error or none, and the same runner, but for
    the closers, which only the current revision records. *)
Theorem X19_earlier_revision_resolves_alike (r : runner) (p : func) :
  Forall (λ t, ¬ (kind t = Slice ∧ ¬ pending r t ∧ values r !! t = None)) (fn_in p) →
  snd (Earlier.resolveProvider r p) = snd (resolveProvider r p)
  ∧ fst (Earlier.resolveProvider r p) = set_closers (closers r) (fst (resolveProvider r p)).
Proof.
  intros Hins. unfold Earlier.resolveProvider, resolveProvider.
  rewrite (earlier_lookupParams_same _ _ Hins).
  destruct (findParams r (fn_in p)) as [err | ins]; [by destruct r |].
  cbv zeta.
  assert (∀ l, snd (Earlier.storeResults (emit (Called (fn_id p) ins) r) l)
               = snd (handleResults (emit (Called (fn_id p) ins) r) l)
               ∧ fst (Earlier.storeResults (emit (Called (fn_id p) ins) r) l)
                 = set_closers (closers r)
                     (fst (handleResults (emit (Called (fn_id p) ins) r) l))) as Hl.
  { intros l.
    destruct (earlier_storeResults_same l (emit (Called (fn_id p) ins) r)
                (emit (Called (fn_id p) ins) r) eq_refl) as (Hs & Hf & Hc).
    split; [done |]. simpl in Hc.
    destruct (Earlier.storeResults _ l) as [[] ?], (handleResults _ l) as [[] ?].
    simpl in *. injection Hf as -> -> -> -> -> ->. by subst. }
  case_decide.
  - destruct (Call p ins !! _) as [[| t [d |] | t l] |];
      first [apply Hl | by destruct r].
  - apply Hl.
Qed.

Lemma X19_earlier_revision_resolves_alike_witness :
  let r := fst (resolveProvider
                  (fst (addAll new [PFunc Tests.new2Closer; PFunc Tests.new1Consume2]))
                  Tests.new2Closer) in
  snd (Earlier.resolveProvider r Tests.new1Consume2)
  = snd (resolveProvider r Tests.new1Consume2)
  ∧ fst (Earlier.resolveProvider r Tests.new1Consume2)
    = set_closers (closers r) (fst (resolveProvider r Tests.new1Consume2)).
Proof.
  intros r. apply (X19_earlier_revision_resolves_alike r Tests.new1Consume2).
  repeat constructor. intros [Hk _]. discriminate.
Defined.

(** ** shutdownermain: one value goes through the channel *)

Section ShutdownermainProofs.
Import Shutdownermain.

Lemma fresh_consistent calls :
  Forall (λ c, fresh c = true) calls → consistent NewShutdownerMain calls.
Proof.
  intros Hall.
  assert (∀ i c, calls !! i = Some c → fresh c = true) as Hf.
  { intros i c Hc. apply (proj1 (Forall_forall _ _) Hall). by eapply list_elem_of_lookup_2. }
  split; [| split; [| split]]; simpl.
  - intros i j ci cj Hi Hj Hhi. pose proof (Hf _ _ Hi). by destruct ci.
  - intros _ i c Hc. pose proof (Hf _ _ Hc). by destruct c.
  - intros _. repeat split; try done. intros i c Hc. pose proof (Hf _ _ Hc). by destruct c.
  - done.
Qed.

(** A call that has returned from [Run] stays in the list when another
    call moves. *)
Lemma returned_stays (calls : list call) i c x ret :
  calls !! i = Some c → (∀ r, c ≠ RunReturned r) →
  (∃ j, calls !! j = Some (RunReturned ret)) →
  ∃ j, <[i := x]> calls !! j = Some (RunReturned ret).
Proof.
  intros Hi Hc [j Hj]. exists j. rewrite list_lookup_insert_ne; [done |].
  intros <-. rewrite Hi in Hj. injection Hj as ->. by apply (Hc ret).
Qed.

Lemma holder_unique (calls : list call) i ci x :
  (∀ i j ci cj, calls !! i = Some ci → calls !! j = Some cj →
                holds ci = true → holds cj = true → i = j) →
  calls !! i = Some ci → holds ci = true →
  ∀ k1 k2 c1 c2, <[i := x]> calls !! k1 = Some c1 → <[i := x]> calls !! k2 = Some c2 →
                 holds c1 = true → holds c2 = true → k1 = k2.
Proof.
  intros HU Hi Hh k1 k2 c1 c2
    [(<- & <- & _) | [Hn1 H1]]%list_lookup_insert_Some
    [(<- & <- & _) | [Hn2 H2]]%list_lookup_insert_Some Hh1 Hh2.
  - done.
  - by eapply (HU i k2).
  - symmetry. by eapply (HU i k1).
  - by eapply (HU k1 k2).
Qed.

Lemma step_consistent a s calls s' calls' :
  consistent s calls → step a s calls = Some (s', calls') → consistent s' calls'.
Proof.
  intros (HU & HF & HN & HD) Hstep.
  destruct a as [i | i j]; simpl in Hstep.
  - unfold advance in Hstep.
    destruct (calls !! i) as [c |] eqn:Hi; [| done].
    destruct c as [err | err | err | | | | | ret |]; try done.
    + (* r.Lock() *)
      destruct (locked s) eqn:Hl; [done |]. injection Hstep as <- <-.
      specialize (HF eq_refl).
      split; [| split; [| split]]; simpl.
      * intros k1 k2 c1 c2 [(-> & <- & _) | [_ H1]]%list_lookup_insert_Some
                           [(-> & <- & _) | [_ H2]]%list_lookup_insert_Some Hh1 Hh2;
          try done.
        -- pose proof (HF _ _ H2). congruence.
        -- pose proof (HF _ _ H1). congruence.
        -- pose proof (HF _ _ H1). congruence.
      * done.
      * intros Hd. destruct (HN Hd) as (Hs & Hc & Ho & Hall).
        rewrite (Ho eq_refl). repeat split; try done.
        intros k c [(-> & <- & _) | [_ Hk]]%list_lookup_insert_Some; [done |].
        pose proof (Hall _ _ Hk) as Hc'. pose proof (HF _ _ Hk) as Hh.
        by destruct c.
      * intros Hd. destruct (HD Hd) as (first & rest & Ho & Hs & Hret & Hfree & Hall).
        exists first, (rest ++ [err]). rewrite Ho. split; [done |]. split; [done |].
        split; [| split; [done |]].
        -- intros Hsent. eapply returned_stays; [done | done | by apply Hret].
        -- intros k c [(-> & <- & _) | [_ Hk]]%list_lookup_insert_Some;
             [by apply Hfree |].
           exact (Hall _ _ Hk).
    + (* if !r.done *)
      destruct (done s) eqn:Hd.
      * injection Hstep as <- <-.
        split; [| split; [| split]].
        -- by eapply holder_unique.
        -- intros Hl. pose proof (HF Hl _ _ Hi) as Hh. simpl in Hh. discriminate.
        -- intros Hd'. congruence.
        -- intros _. destruct (HD eq_refl) as (first & rest & Ho & Hs & Hret & Hfree & Hall).
           exists first, rest. split; [done |]. split; [done |].
           split; [| split; [done |]].
           ++ intros Hsent. eapply returned_stays; [done | done | by apply Hret].
           ++ intros k c [(-> & <- & _) | [_ Hk]]%list_lookup_insert_Some;
                [exact (Hall _ _ Hi) |].
              exact (Hall _ _ Hk).
      * injection Hstep as <- <-.
        destruct (HN eq_refl) as (Hs & Hc & Ho & Hall).
        pose proof (Hall _ _ Hi) as Horder. simpl in Horder.
        split; [| split; [| split]]; simpl.
        -- by eapply holder_unique.
        -- intros Hl. pose proof (HF Hl _ _ Hi) as Hh. simpl in Hh. discriminate.
        -- done.
        -- intros _. exists err, []. split; [done |]. split; [by left |].
           split; [congruence |]. split.
           { intros Hl. pose proof (HF Hl _ _ Hi) as Hh. simpl in Hh. discriminate. }
           intros k c [(-> & <- & _) | [Hne Hk]]%list_lookup_insert_Some; [done |].
           pose proof (Hall _ _ Hk) as Hc'. destruct c; try done.
           exfalso. apply Hne. by eapply (HU i k).
    + (* r.shutdownChan <- err, alone *)
      destruct (closed s) eqn:Hc; [| done]. injection Hstep as <- <-.
      destruct (done s) eqn:Hd.
      * destruct (HD eq_refl) as (first & rest & Ho & Hs & Hret & Hfree & Hall).
        pose proof (Hall _ _ Hi) as H. simpl in H. destruct H as (_ & _ & H). congruence.
      * destruct (HN eq_refl) as (_ & _ & _ & Hall). by pose proof (Hall _ _ Hi).
    + (* close(r.shutdownChan) *)
      destruct (done s) eqn:Hd.
      2: { destruct (HN eq_refl) as (_ & _ & _ & Hall). by pose proof (Hall _ _ Hi). }
      destruct (HD eq_refl) as (first & rest & Ho & Hs & Hret & Hfree & Hall).
      pose proof (Hall _ _ Hi) as [Hsent Hc]. simpl in Hsent, Hc.
      rewrite Hc in Hstep. injection Hstep as <- <-.
      split; [| split; [| split]]; simpl.
      * by eapply holder_unique.
      * intros Hl. pose proof (HF Hl _ _ Hi) as Hh. simpl in Hh. discriminate.
      * congruence.
      * intros _. exists first, rest. split; [done |]. split; [done |].
        split; [| split; [done |]].
        -- intros _. eapply returned_stays; [done | done | by apply Hret].
        -- intros k c [(-> & <- & _) | [Hne Hk]]%list_lookup_insert_Some; [done |].
           pose proof (Hall _ _ Hk) as Hc'. destruct c; try done.
           ++ exfalso. apply Hne. by eapply (HU i k).
           ++ exfalso. apply Hne. by eapply (HU i k).
           ++ destruct Hc' as [? | [? _]]; [by left | by right].
    + (* r.Unlock() *)
      injection Hstep as <- <-.
      assert (∀ k c, <[i := ShutdownReturned]> calls !! k = Some c → holds c = false) as Hnone.
      { intros k c [(-> & <- & _) | [Hne Hk]]%list_lookup_insert_Some; [done |].
        destruct (holds c) eqn:Hh; [| done]. exfalso. apply Hne. by eapply (HU i k). }
      split; [| split; [| split]]; simpl.
      * intros k1 k2 c1 c2 H1 H2 Hh1. pose proof (Hnone _ _ H1). congruence.
      * intros _. apply Hnone.
      * intros Hd. destruct (HN Hd) as (_ & _ & _ & Hall). by pose proof (Hall _ _ Hi).
      * intros Hd. destruct (HD Hd) as (first & rest & Ho & Hs & Hret & Hfree & Hall).
        exists first, rest. split; [done |]. split; [done |].
        split; [| split].
        -- intros Hsent. eapply returned_stays; [done | done | by apply Hret].
        -- intros _. exact (Hall _ _ Hi).
        -- intros k c [(-> & <- & _) | [Hne Hk]]%list_lookup_insert_Some;
             [exact (Hall _ _ Hi) |].
           exact (Hall _ _ Hk).
    + (* <-r on the closed channel *)
      destruct (closed s) eqn:Hc; [| done]. injection Hstep as <- <-.
      split; [| split; [| split]].
      * intros k1 k2 c1 c2 [(-> & <- & _) | [_ H1]]%list_lookup_insert_Some
                           [(-> & <- & _) | [_ H2]]%list_lookup_insert_Some Hh1 Hh2;
          try done.
        by eapply (HU k1 k2).
      * intros Hl k c [(-> & <- & _) | [_ Hk]]%list_lookup_insert_Some; [done |].
        exact (HF Hl _ _ Hk).
      * intros Hd. destruct (HN Hd) as (_ & Hc' & _). congruence.
      * intros Hd. destruct (HD Hd) as (first & rest & Ho & Hs & Hret & Hfree & Hall).
        exists first, rest. split; [done |]. split; [done |].
        split; [| split; [by rewrite Hc |]].
        -- intros Hsent. eapply returned_stays; [done | done | by apply Hret].
        -- intros k c [(-> & <- & _) | [_ Hk]]%list_lookup_insert_Some; [by right |].
           rewrite Hc. exact (Hall _ _ Hk).
  - (* the send and a receive *)
    unfold rendezvous in Hstep.
    destruct (calls !! i) as [[err | err | err | | | | | ret |] |] eqn:Hi; try done.
    destruct (calls !! j) as [[err' | err' | err' | | | | | ret |] |] eqn:Hj; try done.
    destruct (closed s) eqn:Hc; [done |]. injection Hstep as <- <-.
    destruct (done s) eqn:Hd.
    2: { destruct (HN eq_refl) as (_ & _ & _ & Hall). by pose proof (Hall _ _ Hi). }
    destruct (HD eq_refl) as (first & rest & Ho & Hs & Hret & Hfree & Hall).
    pose proof (Hall _ _ Hi) as (-> & Hsent & _). simpl in Hsent.
    assert (i ≠ j) as Hij by (intros ->; congruence).
    assert (∀ k c, <[i := AtClose]> (<[j := RunReturned first]> calls) !! k = Some c →
                   (k = i ∧ c = AtClose) ∨ (k = j ∧ c = RunReturned first)
                   ∨ (k ≠ i ∧ k ≠ j ∧ calls !! k = Some c)) as Hcases.
    { intros k c [(-> & <- & _) | [Hne Hk]]%list_lookup_insert_Some; [by left |].
      apply list_lookup_insert_Some in Hk as [(-> & <- & _) | [Hne' Hk]]; [right; by left |].
      right. right. done. }
    split; [| split; [| split]]; simpl.
    + intros k1 k2 c1 c2 H1 H2 Hh1 Hh2.
      apply Hcases in H1 as [[-> ->] | [[-> ->] | (Hn1 & _ & H1)]]; [| done |];
        apply Hcases in H2 as [[-> ->] | [[-> ->] | (Hn2 & _ & H2)]]; try done.
      * exfalso. apply Hn2. symmetry. by eapply (HU i k2).
      * exfalso. apply Hn1. symmetry. by eapply (HU i k1).
      * by eapply (HU k1 k2).
    + intros Hl. pose proof (HF Hl _ _ Hi) as Hh. simpl in Hh. discriminate.
    + congruence.
    + intros _. exists first, rest. split; [done |]. rewrite Hsent. simpl.
      split; [by right |]. split; [| split].
      * intros _. exists j. rewrite list_lookup_insert_ne by done.
        apply list_lookup_insert_eq. by eapply lookup_lt_Some.
      * intros Hl. pose proof (HF Hl _ _ Hi) as Hh. simpl in Hh. discriminate.
      * intros k c [[-> ->] | [[-> ->] | (Hn & _ & Hk)]]%Hcases; [done | by left |].
        pose proof (Hall _ _ Hk) as Hc'. destruct c; try done.
        -- exfalso. apply Hn. symmetry. by eapply (HU i k).
        -- exfalso. apply Hn. symmetry. by eapply (HU i k).
        -- exfalso. apply Hn. symmetry. by eapply (HU i k).
        -- destruct Hc' as [? _]. congruence.
        -- destruct Hc' as [[_ ?] | [_ ?]]; congruence.
Qed.

Lemma steps_consistent schedule s calls s' calls' :
  consistent s calls → steps schedule s calls = Some (s', calls') → consistent s' calls'.
Proof.
  revert s calls. induction schedule as [| a schedule IH]; intros s calls Hc; simpl.
  - by intros [= <- <-].
  - destruct (step a s calls) as [[s1 calls1] |] eqn:Hstep; [| done].
    apply IH. by eapply step_consistent.
Qed.

End ShutdownermainProofs.

(** X20: whatever calls of [Shutdown] and [Main.Run] are made on a new
    shutdowner and however they are interleaved, no call panics, at most
    one value goes through the channel, the error of the call of
    [Shutdown] that took the mutex first, and a call of [Main.Run] that has
    returned has returned this value, or nil once the channel was
    closed. *)
Theorem X20_shutdown_sends_first_error_only (calls : list Shutdownermain.call)
    (schedule : list Shutdownermain.action) (s : Shutdownermain.shutdowner)
    (calls' : list Shutdownermain.call) :
  Forall (λ c, Shutdownermain.fresh c = true) calls →
  Shutdownermain.steps schedule Shutdownermain.NewShutdownerMain calls = Some (s, calls') →
  (Shutdownermain.Panicked ∉ calls')
  ∧ (Shutdownermain.sent s = []
     ∨ ∃ first rest, Shutdownermain.order s = first :: rest
                     ∧ Shutdownermain.sent s = [first])
  ∧ (∀ ret, Shutdownermain.RunReturned ret ∈ calls' →
            Shutdownermain.sent s = [ret]
            ∨ (ret = None ∧ Shutdownermain.closed s = true)).
Proof.
  intros Hfresh Hsteps.
  apply fresh_consistent in Hfresh.
  pose proof (steps_consistent _ _ _ _ _ Hfresh Hsteps) as (HU & HF & HN & HD).
  destruct (Shutdownermain.done s) eqn:Hd.
  - destruct (HD eq_refl) as (first & rest & Ho & Hs & _ & _ & Hall). split; [| split].
    + intros [i Hi]%list_elem_of_lookup_1. by pose proof (Hall _ _ Hi).
    + destruct Hs as [Hs | Hs]; [by left |]. right. by exists first, rest.
    + intros ret [i Hi]%list_elem_of_lookup_1.
      pose proof (Hall _ _ Hi) as [[-> ?] | ?]; [by left | by right].
  - destruct (HN eq_refl) as (Hs & _ & _ & Hall). split; [| split].
    + intros [i Hi]%list_elem_of_lookup_1. by pose proof (Hall _ _ Hi).
    + by left.
    + intros ret [i Hi]%list_elem_of_lookup_1. by pose proof (Hall _ _ Hi).
Qed.

Lemma X20_shutdown_sends_first_error_only_witness :
  let calls := [Shutdownermain.AtLock (Some ErrNoMain); Shutdownermain.AtReceive;
                Shutdownermain.AtLock None; Shutdownermain.AtReceive] in
  let schedule := [Shutdownermain.Advance 0; Shutdownermain.Advance 0;
                   Shutdownermain.Rendezvous 0 1; Shutdownermain.Advance 0;
                   Shutdownermain.Advance 0; Shutdownermain.Advance 2;
                   Shutdownermain.Advance 2; Shutdownermain.Advance 3] in
  let s := Shutdownermain.Shutdowner true true true [Some ErrNoMain] [Some ErrNoMain; None] in
  let calls' := [Shutdownermain.ShutdownReturned;
                 Shutdownermain.RunReturned (Some ErrNoMain);
                 Shutdownermain.AtUnlock; Shutdownermain.RunReturned None] in
  (Shutdownermain.Panicked ∉ calls')
  ∧ (Shutdownermain.sent s = []
     ∨ ∃ first rest, Shutdownermain.order s = first :: rest
                     ∧ Shutdownermain.sent s = [first])
  ∧ (∀ ret, Shutdownermain.RunReturned ret ∈ calls' →
            Shutdownermain.sent s = [ret]
            ∨ (ret = None ∧ Shutdownermain.closed s = true)).
Proof.
  intros calls schedule s calls'.
  apply (X20_shutdown_sends_first_error_only calls schedule s calls').
  - repeat constructor.
  - reflexivity.
Defined.

(** X21: a call of [Shutdown] does not return before a call of [Main.Run]
    has taken the error of the first [Shutdown] from the channel: when some
    call of [Shutdown] has returned, that error was sent, a call of
    [Main.Run] has returned it, and the channel is closed. *)
Theorem X21_shutdown_returns_after_receive (calls : list Shutdownermain.call)
    (schedule : list Shutdownermain.action) (s : Shutdownermain.shutdowner)
    (calls' : list Shutdownermain.call) :
  Forall (λ c, Shutdownermain.fresh c = true) calls →
  Shutdownermain.steps schedule Shutdownermain.NewShutdownerMain calls = Some (s, calls') →
  Shutdownermain.ShutdownReturned ∈ calls' →
  ∃ first rest,
    Shutdownermain.order s = first :: rest
    ∧ Shutdownermain.sent s = [first]
    ∧ Shutdownermain.closed s = true
    ∧ Shutdownermain.RunReturned first ∈ calls'.
Proof.
  intros Hfresh Hsteps [i Hi]%list_elem_of_lookup_1.
  apply fresh_consistent in Hfresh.
  pose proof (steps_consistent _ _ _ _ _ Hfresh Hsteps) as (HU & HF & HN & HD).
  destruct (Shutdownermain.done s) eqn:Hd.
  - destruct (HD eq_refl) as (first & rest & Ho & Hs & Hret & _ & Hall).
    pose proof (Hall _ _ Hi) as [Hsent Hc]. simpl in Hsent, Hc.
    exists first, rest. repeat split; try done.
    destruct (Hret Hsent) as [j Hj]. by eapply list_elem_of_lookup_2.
  - destruct (HN eq_refl) as (_ & _ & _ & Hall). by pose proof (Hall _ _ Hi).
Qed.

Lemma X21_shutdown_returns_after_receive_witness :
  let calls := [Shutdownermain.AtLock (Some ErrNoMain); Shutdownermain.AtReceive] in
  let schedule := [Shutdownermain.Advance 0; Shutdownermain.Advance 0;
                   Shutdownermain.Rendezvous 0 1; Shutdownermain.Advance 0;
                   Shutdownermain.Advance 0] in
  let s := Shutdownermain.Shutdowner false true true [Some ErrNoMain] [Some ErrNoMain] in
  let calls' := [Shutdownermain.ShutdownReturned;
                 Shutdownermain.RunReturned (Some ErrNoMain)] in
  ∃ first rest,
    Shutdownermain.order s = first :: rest
    ∧ Shutdownermain.sent s = [first]
    ∧ Shutdownermain.closed s = true
    ∧ Shutdownermain.RunReturned first ∈ calls'.
Proof.
  intros calls schedule s calls'.
  apply (X21_shutdown_returns_after_receive calls schedule s calls').
  - repeat constructor.
  - reflexivity.
  - repeat constructor.
Defined.

(** ** shutdownermain: the calls can return *)

Section ShutdownermainProgress.
Import Shutdownermain.

Lemma steps_app schedule1 schedule2 s calls :
  steps (schedule1 ++ schedule2) s calls
  = match steps schedule1 s calls with
    | Some (s', calls') => steps schedule2 s' calls'
    | None => None
    end.
Proof.
  revert s calls. induction schedule1 as [| a schedule1 IH]; intros s calls; simpl; [done |].
  destruct (step a s calls) as [[s1 calls1] |]; [apply IH | done].
Qed.

(** The first [Shutdown] and a [Run]: lock, test, the send and the receive,
    close, unlock. *)
Lemma first_shutdown calls i j err :
  calls !! i = Some (AtLock err) → calls !! j = Some AtReceive →
  ∃ s calls',
    steps [Advance i; Advance i; Rendezvous i j; Advance i; Advance i]
      NewShutdownerMain calls = Some (s, calls')
    ∧ locked s = false ∧ done s = true ∧ closed s = true
    ∧ length calls' = length calls
    ∧ calls' !! i = Some ShutdownReturned
    ∧ calls' !! j = Some (RunReturned err)
    ∧ ∀ k, k ≠ i → k ≠ j → calls' !! k = calls !! k.
Proof.
  intros Hi Hj.
  assert (i ≠ j) as Hij by (intros ->; congruence).
  assert (i < length calls)%nat as Hil by (by eapply lookup_lt_Some).
  assert (j < length calls)%nat as Hjl by (by eapply lookup_lt_Some).
  eexists _, _. split.
  - cbn [steps step]. unfold advance at 1. rewrite Hi. cbn.
    unfold advance at 1. rewrite list_lookup_insert_eq by done. cbn.
    unfold rendezvous.
    rewrite list_lookup_insert_eq by (by rewrite length_insert).
    rewrite !list_lookup_insert_ne by done. rewrite Hj. cbn.
    unfold advance at 1.
    rewrite list_lookup_insert_eq by (by rewrite !length_insert). cbn.
    unfold advance at 1.
    rewrite list_lookup_insert_eq by (by rewrite !length_insert). cbn.
    reflexivity.
  - cbn. repeat split.
    + by rewrite !length_insert.
    + apply list_lookup_insert_eq. by rewrite !length_insert.
    + rewrite !list_lookup_insert_ne by done.
      apply list_lookup_insert_eq. by rewrite !length_insert.
    + intros k Hki Hkj. by rewrite !list_lookup_insert_ne by done.
Qed.

(** Once the channel is closed and the mutex free, a call that has not
    started returns: a [Shutdown] finds [done] set, a [Run] gets nil. *)
Lemma late_call_returns s calls k c :
  locked s = false → done s = true → closed s = true →
  calls !! k = Some c → fresh c = true →
  ∃ schedule s' calls',
    steps schedule s calls = Some (s', calls')
    ∧ locked s' = false ∧ done s' = true ∧ closed s' = true
    ∧ length calls' = length calls
    ∧ (calls' !! k = Some ShutdownReturned ∨ calls' !! k = Some (RunReturned None))
    ∧ ∀ k', k' ≠ k → calls' !! k' = calls !! k'.
Proof.
  intros Hl Hd Hc Hk Hfresh.
  assert (k < length calls)%nat as Hkl by (by eapply lookup_lt_Some).
  destruct c as [err | | | | | | | |]; try done.
  - exists [Advance k; Advance k; Advance k]. eexists _, _. split.
    + cbn [steps step]. unfold advance at 1. rewrite Hk, Hl. cbn.
      unfold advance at 1. rewrite list_lookup_insert_eq by done. cbn. rewrite Hd.
      unfold advance at 1.
      rewrite list_lookup_insert_eq by (by rewrite !length_insert). cbn.
      reflexivity.
    + cbn. repeat split; try done.
      * by rewrite !length_insert.
      * left. apply list_lookup_insert_eq. by rewrite !length_insert.
      * intros k' Hk'. by rewrite !list_lookup_insert_ne by done.
  - exists [Advance k]. eexists _, _. split.
    + cbn [steps step]. unfold advance. rewrite Hk, Hc. reflexivity.
    + repeat split; try done.
      * by rewrite length_insert.
      * right. by apply list_lookup_insert_eq.
      * intros k' Hk'. by rewrite list_lookup_insert_ne by done.
Qed.

(** The calls below [n] that have not started can all be made to return. *)
Lemma late_calls_return n s calls :
  locked s = false → done s = true → closed s = true →
  (∀ k c, calls !! k = Some c →
          fresh c = true ∨ c = ShutdownReturned ∨ ∃ ret, c = RunReturned ret) →
  ∃ schedule s' calls',
    steps schedule s calls = Some (s', calls')
    ∧ locked s' = false ∧ done s' = true ∧ closed s' = true
    ∧ length calls' = length calls
    ∧ (∀ k c, (k < n)%nat → calls' !! k = Some c →
              c = ShutdownReturned ∨ ∃ ret, c = RunReturned ret)
    ∧ (∀ k c, calls !! k = Some c → fresh c = false → calls' !! k = Some c)
    ∧ (∀ k, (n ≤ k)%nat → calls' !! k = calls !! k).
Proof.
  intros Hl Hd Hc Hall. induction n as [| n IH].
  - exists [], s, calls. simpl. repeat split; try done. intros k c Hk. lia.
  - destruct IH as (sch & s1 & calls1 & Hsteps & Hl1 & Hd1 & Hc1 & Hlen & Hbelow & Hkept
                    & Habove).
    destruct (calls1 !! n) as [c |] eqn:Hn.
    + destruct (fresh c) eqn:Hfresh.
      * destruct (late_call_returns s1 calls1 n c Hl1 Hd1 Hc1 Hn Hfresh)
          as (sch2 & s2 & calls2 & Hsteps2 & Hl2 & Hd2 & Hc2 & Hlen2 & Hret & Hother).
        exists (sch ++ sch2), s2, calls2. rewrite steps_app, Hsteps.
        split; [done |]. split; [done |]. split; [done |]. split; [done |].
        split; [congruence |]. split; [| split].
        -- intros k c' Hk Hk'. destruct (decide (k = n)) as [-> | Hne].
           ++ destruct Hret as [Hr | Hr]; rewrite Hr in Hk'; injection Hk' as <-;
                [by left | right; by eexists].
           ++ rewrite Hother in Hk' by done. apply (Hbelow k); [lia | done].
        -- intros k c' Hk Hf. destruct (decide (k = n)) as [-> | Hne].
           ++ rewrite Habove in Hn by lia. congruence.
           ++ rewrite Hother by done. by apply Hkept.
        -- intros k Hk. rewrite Hother by lia. apply Habove. lia.
      * exists sch, s1, calls1. split; [done |]. split; [done |]. split; [done |].
        split; [done |]. split; [done |]. split; [| split; [done |]].
        -- intros k c' Hk Hk'. destruct (decide (k = n)) as [-> | Hne].
           ++ rewrite Hn in Hk'. injection Hk' as <-.
              rewrite Habove in Hn by lia.
              destruct (Hall _ _ Hn) as [Hf | Hfin]; [congruence | done].
           ++ apply (Hbelow k); [lia | done].
        -- intros k Hk. apply Habove. lia.
    + exists sch, s1, calls1. split; [done |]. split; [done |]. split; [done |].
      split; [done |]. split; [done |]. split; [| split; [done |]].
      * intros k c' Hk Hk'. destruct (decide (k = n)) as [-> | Hne]; [congruence |].
        apply (Hbelow k); [lia | done].
      * intros k Hk. apply Habove. lia.
Qed.

End ShutdownermainProgress.

(** X22: when [Shutdown] and [Main.Run] are both called on a new
    shutdowner, no call has to wait for ever: for any of the calls of
    [Shutdown] and any of the calls of [Main.Run] there is an interleaving
    in which that [Main.Run] returns the error given to that [Shutdown] and
    every call returns. *)
Theorem X22_shutdown_and_run_return (calls : list Shutdownermain.call) (i j : nat)
    (err : option error) :
  Forall (λ c, Shutdownermain.fresh c = true) calls →
  calls !! i = Some (Shutdownermain.AtLock err) →
  calls !! j = Some Shutdownermain.AtReceive →
  ∃ schedule s calls',
    Shutdownermain.steps schedule Shutdownermain.NewShutdownerMain calls = Some (s, calls')
    ∧ calls' !! j = Some (Shutdownermain.RunReturned err)
    ∧ length calls' = length calls
    ∧ Forall (λ c, c = Shutdownermain.ShutdownReturned
                   ∨ ∃ ret, c = Shutdownermain.RunReturned ret) calls'.
Proof.
  intros Hfresh Hi Hj.
  destruct (first_shutdown calls i j err Hi Hj)
    as (s1 & calls1 & Hsteps1 & Hl & Hd & Hc & Hlen & Hi1 & Hj1 & Hother).
  destruct (late_calls_return (length calls1) s1 calls1 Hl Hd Hc)
    as (sch & s2 & calls2 & Hsteps2 & _ & _ & _ & Hlen2 & Hbelow & Hkept & _).
  { intros k c Hk. destruct (decide (k = i)) as [-> | Hki].
    { right. left. rewrite Hi1 in Hk. by injection Hk. }
    destruct (decide (k = j)) as [-> | Hkj].
    { right. right. exists err. rewrite Hj1 in Hk. by injection Hk. }
    left. rewrite Hother in Hk by done.
    apply (proj1 (Forall_forall _ _) Hfresh). by eapply list_elem_of_lookup_2. }
  eexists (_ ++ sch), s2, calls2. rewrite steps_app, Hsteps1.
  split; [done |]. split; [by apply Hkept |]. split; [congruence |].
  apply Forall_forall. intros c [k Hk]%list_elem_of_lookup_1.
  apply (Hbelow k c); [| done]. apply lookup_lt_Some in Hk. lia.
Qed.

Lemma X22_shutdown_and_run_return_witness :
  let calls := [Shutdownermain.AtLock None; Shutdownermain.AtReceive;
                Shutdownermain.AtLock (Some ErrNoMain); Shutdownermain.AtReceive] in
  ∃ schedule s calls',
    Shutdownermain.steps schedule Shutdownermain.NewShutdownerMain calls = Some (s, calls')
    ∧ calls' !! 3%nat = Some (Shutdownermain.RunReturned (Some ErrNoMain))
    ∧ length calls' = length calls
    ∧ Forall (λ c, c = Shutdownermain.ShutdownReturned
                   ∨ ∃ ret, c = Shutdownermain.RunReturned ret) calls'.
Proof.
  intros calls.
  apply (X22_shutdown_and_run_return calls 2%nat 3%nat (Some ErrNoMain)).
  - repeat constructor.
  - reflexivity.
  - reflexivity.
Defined.
